(** * Catalog binding validator (scripts/validate_catalog_binding.py)

    A shallow embedding of the validator and the properties its
    specification states about it.

    Conventions of the model.
    - A Python [str] is a Rocq [string]; a character stands for the code
      point of the same number, so the model covers texts whose code
      points are below 256.
    - [print] appends one line to a stream; the streams are threaded
      through the program by a small state-and-exception monad.
    - Library calls whose result depends on the outside world
      ([read_text], [json.loads], [exists], the order in which [rglob]
      enumerates a directory) are represented by their results, which are
      part of the input.
    - The order in which a run iterates over a [set] depends on the string
      hashes of that run; [main] takes it as a parameter.
    - A number is held by its exact value, a rational or an infinity,
      by which Python compares and hashes it ([True], [1] and [1.0] are
      one member of a set), and a float also by the text [str] gives
      for it. The literal [NaN], which [json.loads] reads although it is
      not JSON, is outside the model: it is unordered, and a set keeps
      every occurrence of it apart. *)

From Stdlib Require Import Ascii String List ZArith Lia Permutation.
From Stdlib Require Import QArith_base Qcanon.
From stdpp Require Import base option list gmap sets strings sorting pretty.

Local Open Scope string_scope.
Local Open Scope list_scope.
#[local] Set Warnings "-clear-no-such-hyp".

(** ** Python values and effects *)

Module Py.

(** Exceptions the program can meet. A message is carried where the
    program prints it. *)
Inductive exn :=
| JSONDecodeError (msg : string)
| KeyError (msg : string)
| UnicodeDecodeError (msg : string)
| OSError (msg : string)
| AttributeError
| TypeError.

(** [str(e)] as the warnings print it. *)
Definition exn_str (e : exn) : string :=
  match e with
  | JSONDecodeError m | KeyError m | UnicodeDecodeError m | OSError m => m
  | AttributeError => "AttributeError"
  | TypeError => "TypeError"
  end.

Inductive outcome (A : Type) :=
| Return (a : A)
| Raise (e : exn).
Arguments Return {A} a.
Arguments Raise {A} e.

(** The two output streams, oldest line first. *)
Record console := Console { stdout : list string; stderr : list string }.

Definition empty_console : console := Console [] [].

(** A computation: runs on the streams, returns or raises. *)
Definition M (A : Type) : Type := console → outcome A * console.

Definition ret {A} (a : A) : M A := λ c, (Return a, c).
Definition bind {A B} (m : M A) (f : A → M B) : M B :=
  λ c, match m c with
       | (Return a, c') => f a c'
       | (Raise e, c') => (Raise e, c')
       end.
Definition raise {A} (e : exn) : M A := λ c, (Raise e, c).

(** [try: body  except <handled>: handler(e)]. *)
Definition try_except {A} (body : M A) (handled : exn → bool)
    (handler : exn → M A) : M A :=
  λ c, match body c with
       | (Return a, c') => (Return a, c')
       | (Raise e, c') => if handled e then handler e c' else (Raise e, c')
       end.

(** A pure step that may raise. *)
Definition lift {A} (o : outcome A) : M A := λ c, (o, c).

Definition print (line : string) : M unit :=
  λ c, (Return tt, Console (stdout c ++ [line]) (stderr c)).
Definition eprint (line : string) : M unit :=
  λ c, (Return tt, Console (stdout c) (stderr c ++ [line])).

(** [for x in xs: body x], the loop state [s] passed along. *)
Fixpoint for_ {A S} (xs : list A) (body : S → A → M S) (s : S) : M S :=
  match xs with
  | [] => ret s
  | x :: xs' => bind (body s x) (for_ xs' body)
  end.

(** ** Strings *)

(** [str.isspace] on one character (code points below 256). *)
Definition isspace (c : ascii) : bool :=
  let n := nat_of_ascii c in
  (((9 <=? n) && (n <=? 13)) || ((28 <=? n) && (n <=? 32))
   || (n =? 133) || (n =? 160))%nat.

(** [str.lower] on one character (code points below 256). *)
Definition lower (c : ascii) : ascii :=
  let n := nat_of_ascii c in
  if (((65 <=? n) && (n <=? 90))
      || ((192 <=? n) && (n <=? 222) && negb (n =? 215)))%nat
  then ascii_of_nat (n + 32) else c.

Fixpoint lstrip (p : ascii → bool) (s : string) : string :=
  match s with
  | String c s' => if p c then lstrip p s' else s
  | EmptyString => EmptyString
  end.

Fixpoint rstrip (p : ascii → bool) (s : string) : string :=
  match s with
  | EmptyString => EmptyString
  | String c s' =>
      match rstrip p s' with
      | EmptyString => if p c then EmptyString else String c EmptyString
      | t => String c t
      end
  end.

(** [s.strip()] and [s.strip(chars)] for a one-character [chars]. *)
Definition strip_by (p : ascii → bool) (s : string) : string :=
  rstrip p (lstrip p s).
Definition strip (s : string) : string := strip_by isspace s.
Definition strip_char (q : ascii) (s : string) : string :=
  strip_by (Ascii.eqb q) s.

(** [s.split(sep)] for a one-character separator. *)
Fixpoint split (sep : ascii) (s : string) : list string :=
  match s with
  | EmptyString => [EmptyString]
  | String c s' =>
      if Ascii.eqb c sep then EmptyString :: split sep s'
      else match split sep s' with
           | w :: ws => String c w :: ws
           | [] => [String c EmptyString]
           end
  end.

(** [sep.join(parts)]. *)
Fixpoint join (sep : string) (parts : list string) : string :=
  match parts with
  | [] => EmptyString
  | [p] => p
  | p :: ps => p +:+ sep +:+ join sep ps
  end.

(** [str(n)] for a length. *)
Definition str_of_nat (n : nat) : string := pretty n.

(** *** Numbers *)

(** The value of a number: a rational, or an infinity (a float out of
    range, as [1e999] in a JSON text). *)
Inductive fval :=
| NegInf
| Fin (q : Qc)
| PosInf.

Global Instance fval_eq_dec : EqDecision fval.
Proof. solve_decision. Defined.

(** [<=] on numbers. *)
Definition fval_le (a b : fval) : Prop :=
  match a, b with
  | NegInf, _ => True
  | _, PosInf => True
  | Fin p, Fin q => (p ≤ q)%Qc
  | _, _ => False
  end.

Global Instance fval_le_dec : RelDecision fval_le.
Proof. intros [|p|] [|q|]; simpl; apply _. Defined.

(** A [bool], an [int] or a [float]; a float comes with [str] of it. *)
Inductive number :=
| NBool (b : bool)
| NInt (z : Z)
| NFloat (v : fval) (shown : string).

Definition value (n : number) : fval :=
  match n with
  | NBool b => Fin (Qc_of_Z (if b then 1 else 0))
  | NInt z => Fin (Qc_of_Z z)
  | NFloat v _ => v
  end.

(** [str(n)] *)
Definition num_str (n : number) : string :=
  match n with
  | NBool true => "True"
  | NBool false => "False"
  | NInt z => pretty z
  | NFloat _ shown => shown
  end.

(** [bool(n)] *)
Definition num_truthy (n : number) : bool :=
  negb (bool_decide (value n = Fin (Qc_of_Z 0))).

(** [n <= m] *)
Definition num_le (n m : number) : Prop := fval_le (value n) (value m).

Global Instance num_le_dec : RelDecision num_le.
Proof. intros n m. unfold num_le. apply _. Defined.

(** *** The members of a set of identifiers *)

(** What the program puts into its set: a string or a number. *)
Inductive pyval :=
| VStr (s : string)
| VNum (n : number).

(** [str(v)], as an f-string shows [v]. *)
Definition py_str (v : pyval) : string :=
  match v with
  | VStr s => s
  | VNum n => num_str n
  end.

Definition strings_of (l : list pyval) : list string :=
  omap (λ v, match v with VStr s => Some s | VNum _ => None end) l.

Definition numbers_of (l : list pyval) : list number :=
  omap (λ v, match v with VNum n => Some n | VStr _ => None end) l.

(** [sorted(l)]: strings ascending by code points, numbers ascending
    by value; a string and a number do not compare. *)
Definition sorted (l : list pyval) : outcome (list pyval) :=
  match strings_of l, numbers_of l with
  | _ :: _, _ :: _ => Raise TypeError
  | ss, [] => Return (VStr <$> merge_sort String.le ss)
  | [], ns => Return (VNum <$> merge_sort num_le ns)
  end.

(** A [set] of such members. Strings are members by equality. Numbers
    are members by value: the set keeps the number that came first
    and ignores a later one of the same value; [nums] lists them in the
    order in which they came. *)
Record idset := IdSet { strs : gset string; nums : list number }.

(** [set()] *)
Global Instance idset_empty : Empty idset := IdSet ∅ [].

(** [s in ids] for a string [s]: no number equals a string. *)
Global Instance idset_elem_of : ElemOf string idset := λ s ids, s ∈ strs ids.

Global Instance idset_elem_of_dec : RelDecision (∈@{idset}).
Proof. intros s ids. unfold elem_of, idset_elem_of. apply _. Defined.

(** [len(ids)] *)
Global Instance idset_size : Size idset :=
  λ ids, (size (strs ids) + List.length (nums ids))%nat.

(** The members of a set, the strings first. *)
Global Instance idset_elements : Elements pyval idset :=
  λ ids, (VStr <$> elements (strs ids)) ++ (VNum <$> nums ids).

(** [ids.add(s)] for a string. *)
Definition add_str (s : string) (ids : idset) : idset :=
  IdSet ({[ s ]} ∪ strs ids) (nums ids).

(** [ids.add(n)] for each number of [l] in turn. *)
Definition add_nums (ns : list number) (l : list number) : list number :=
  fold_left (λ acc n,
      if bool_decide (value n ∈ value <$> acc) then acc else acc ++ [n])
    l ns.

(** [ids.add(n)] for a number. *)
Definition add_num (n : number) (ids : idset) : idset :=
  IdSet (strs ids) (add_nums (nums ids) [n]).

End Py.

Export Py.

Global Instance M_ret : MRet M := @Py.ret.
Global Instance M_bind : MBind M := λ A B f m, Py.bind m f.

(** ** Regular expressions: the part of [re] the program uses *)

Module Re.

(** An item of a bracketed set. *)
Inductive citem :=
| CChar (c : ascii)
| CRange (lo hi : ascii)
| CSpace.

(** What matches exactly one character. *)
Inductive one :=
| Lit (c : ascii)              (* a literal, [\|] and [\[] included *)
| Space                        (* [\s] *)
| Set_ (items : list citem)    (* [[...]] *)
| NotSet (items : list citem). (* [[^...]] *)

Inductive regex :=
| Eps
| One (o : one)
| Star (o : one)               (* [o*], greedy *)
| Plus (o : one)               (* [o+], greedy *)
| Opt (o : one)                (* [o?], greedy *)
| Seq (r1 r2 : regex)
| Alt (r1 r2 : regex)          (* [r1|r2], left first *)
| Group (n : nat) (r : regex)  (* the n-th capturing group *)
| Bol                          (* [^] *)
| Eol.                         (* [$] *)

Record flags := Flags { ignorecase : bool; multiline : bool }.

Definition citem_mem (i : citem) (c : ascii) : bool :=
  match i with
  | CChar x => Ascii.eqb x c
  | CRange lo hi =>
      ((nat_of_ascii lo <=? nat_of_ascii c)
       && (nat_of_ascii c <=? nat_of_ascii hi))%nat
  | CSpace => isspace c
  end.

Definition set_mem (items : list citem) (c : ascii) : bool :=
  existsb (λ i, citem_mem i c) items.

(** Under IGNORECASE the subject character is lowered before it is
    compared (the sets and literals of the program are lower case). *)
Definition fold_case (f : flags) (c : ascii) : ascii :=
  if ignorecase f then lower c else c.

Definition one_ok (f : flags) (o : one) (c : ascii) : bool :=
  match o with
  | Lit x => Ascii.eqb (fold_case f x) (fold_case f c)
  | Space => isspace c
  | Set_ items => set_mem items (fold_case f c)
  | NotSet items => negb (set_mem items (fold_case f c))
  end.

(** Captured groups, the latest binding first. *)
Definition caps := list (nat * string).

Fixpoint group_opt (n : nat) (cs : caps) : option string :=
  match cs with
  | [] => None
  | (m, w) :: cs' => if Nat.eqb m n then Some w else group_opt n cs'
  end.

(** [m.group(n)]; a group that took no part has no text. *)
Definition group (n : nat) (cs : caps) : string :=
  default EmptyString (group_opt n cs).

(** The first [n] characters of [s]. *)
Fixpoint take_str (n : nat) (s : string) : string :=
  match n, s with
  | S n', String c s' => String c (take_str n' s')
  | _, _ => EmptyString
  end.

(** The text between two cursors of the same subject: what was
    consumed to go from [s] to its suffix [s']. *)
Definition consumed (s s' : string) : string :=
  take_str (String.length s - String.length s') s.

Section Matcher.
Context {R : Type} (f : flags).

(** A continuation gets the character before the cursor, the rest
    of the subject and the groups. *)
Definition cont := option ascii → string → caps → option R.

(** Greedy repetition of a one-character item: take as many as
    there are, and give them back one by one when what follows
    fails. *)
Fixpoint star (o : one) (prev : option ascii) (s : string) (cs : caps)
    (k : cont) : option R :=
  match s with
  | String c s' =>
      if one_ok f o c then
        match star o (Some c) s' cs k with
        | Some r => Some r
        | None => k prev s cs
        end
      else k prev s cs
  | EmptyString => k prev s cs
  end.

Definition at_bol (prev : option ascii) : bool :=
  match prev with
  | None => true
  | Some c => multiline f && Ascii.eqb c "010"
  end.

Definition at_eol (s : string) : bool :=
  match s with
  | EmptyString => true
  | String c s' =>
      (* without MULTILINE [$] also matches before a final newline *)
      Ascii.eqb c "010" && (multiline f || String.eqb s' EmptyString)
  end.

Fixpoint rmatch (r : regex) (prev : option ascii) (s : string) (cs : caps)
    (k : cont) : option R :=
  match r with
  | Eps => k prev s cs
  | One o =>
      match s with
      | String c s' => if one_ok f o c then k (Some c) s' cs else None
      | EmptyString => None
      end
  | Star o => star o prev s cs k
  | Plus o =>
      match s with
      | String c s' => if one_ok f o c then star o (Some c) s' cs k else None
      | EmptyString => None
      end
  | Opt o =>
      match s with
      | String c s' =>
          if one_ok f o c then
            match k (Some c) s' cs with
            | Some r => Some r
            | None => k prev s cs
            end
          else k prev s cs
      | EmptyString => k prev s cs
      end
  | Seq r1 r2 =>
      rmatch r1 prev s cs (λ prev' s' cs', rmatch r2 prev' s' cs' k)
  | Alt r1 r2 =>
      match rmatch r1 prev s cs k with
      | Some r => Some r
      | None => rmatch r2 prev s cs k
      end
  | Group n r1 =>
      rmatch r1 prev s cs
        (λ prev' s' cs', k prev' s' ((n, consumed s s') :: cs'))
  | Bol => if at_bol prev then k prev s cs else None
  | Eol => if at_eol s then k prev s cs else None
  end.
End Matcher.

(** A match anchored at the cursor: the rest after it and its groups. *)
Definition match_here (f : flags) (r : regex) (prev : option ascii)
    (s : string) : option (string * caps) :=
  rmatch f r prev s [] (λ _ s' cs, Some (s', cs)).

(** [re.search]: the leftmost match, tried at every cursor up to the
    end of the subject. *)
Fixpoint search_from (f : flags) (r : regex) (prev : option ascii)
    (s : string) : option caps :=
  match match_here f r prev s with
  | Some (_, cs) => Some cs
  | None =>
      match s with
      | String c s' => search_from f r (Some c) s'
      | EmptyString => None
      end
  end.

Definition search (f : flags) (r : regex) (s : string) : option caps :=
  search_from f r None s.

(** [re.finditer]: the matches from left to right, not overlapping.
    [skip] counts the characters of the last match still to step over.
    An empty match is yielded and the scan moves on by one character;
    no pattern of the program matches the empty string. *)
Fixpoint finditer_from (f : flags) (r : regex) (prev : option ascii)
    (s : string) (skip : nat) : list caps :=
  match skip with
  | S n =>
      match s with
      | String c s' => finditer_from f r (Some c) s' n
      | EmptyString => []
      end
  | O =>
      match match_here f r prev s with
      | Some (s', cs) =>
          cs :: match s with
                | String c t =>
                    finditer_from f r (Some c) t
                      (String.length s - String.length s' - 1)
                | EmptyString => []
                end
      | None =>
          match s with
          | String c t => finditer_from f r (Some c) t 0
          | EmptyString => []
          end
      end
  end.

Definition finditer (f : flags) (r : regex) (s : string) : list caps :=
  finditer_from f r None s 0.

(** Pattern syntax helpers. *)
Definition cat (rs : list regex) : regex := fold_right Seq Eps rs.

Fixpoint lits (s : string) : regex :=
  match s with
  | EmptyString => Eps
  | String c s' => Seq (One (Lit c)) (lits s')
  end.

Definition no_flags : flags := Flags false false.
Definition MULTILINE : flags := Flags false true.
Definition IGNORECASE : flags := Flags true false.

End Re.

Export Re.

(** ** JSON documents, as [json.loads] returns them *)

Module Json.

(** An object lists its members in document order. *)
#[local] Unset Elimination Schemes.
Inductive json :=
| JNull
| JBool (b : bool)
| JInt (z : Z)
| JFloat (v : fval) (shown : string)
| JStr (s : string)
| JArr (elems : list json)
| JObj (members : list (string * json)).
#[local] Set Elimination Schemes.

(** The number a scalar is, if it is one. *)
Definition json_number (v : json) : option number :=
  match v with
  | JBool b => Some (NBool b)
  | JInt z => Some (NInt z)
  | JFloat x shown => Some (NFloat x shown)
  | _ => None
  end.

(** A repeated key keeps its first position and its last value. *)
Fixpoint dict_get (k : string) (ms : list (string * json)) : option json :=
  match ms with
  | [] => None
  | (k', v) :: ms' =>
      match dict_get k ms' with
      | Some v' => Some v'
      | None => if String.eqb k' k then Some v else None
      end
  end.

Fixpoint dict_keys_from (seen : list string) (ms : list (string * json))
    : list string :=
  match ms with
  | [] => []
  | (k, _) :: ms' =>
      if existsb (String.eqb k) seen then dict_keys_from seen ms'
      else k :: dict_keys_from (k :: seen) ms'
  end.

Definition dict_keys (ms : list (string * json)) : list string :=
  dict_keys_from [] ms.

(** [d.values()] *)
Definition dict_values (ms : list (string * json)) : list json :=
  omap (λ k, dict_get k ms) (dict_keys ms).

(** [v.get(key, dflt)]: only a dict has [get]. *)
Definition py_get (v : json) (key : string) (dflt : json) : outcome json :=
  match v with
  | JObj ms => Return (default dflt (dict_get key ms))
  | _ => Raise AttributeError
  end.

(** [v.values()]: only a dict has [values]. *)
Definition py_values (v : json) : outcome (list json) :=
  match v with
  | JObj ms => Return (dict_values ms)
  | _ => Raise AttributeError
  end.

(** What [for p in v] iterates over. *)
Definition py_iter (v : json) : outcome (list json) :=
  match v with
  | JArr l => Return l
  | JObj ms => Return (JStr <$> dict_keys ms)
  | JStr s => Return ((λ c, JStr (String c EmptyString)) <$> list_ascii_of_string s)
  | JNull | JBool _ | JInt _ | JFloat _ _ => Raise TypeError
  end.

(** [bool(v)] *)
Definition truthy (v : json) : bool :=
  match v with
  | JNull => false
  | JBool b => b
  | JInt z => num_truthy (NInt z)
  | JFloat x shown => num_truthy (NFloat x shown)
  | JStr s => negb (String.eqb s EmptyString)
  | JArr l => negb (Nat.eqb (List.length l) 0)
  | JObj ms => negb (Nat.eqb (List.length ms) 0)
  end.

(** [isinstance(v, dict)] *)
Definition is_dict (v : json) : bool :=
  match v with JObj _ => true | _ => false end.

(** [ids.add(v)]: lists and dicts are unhashable. [None] is falsy and
    never reaches [add] in the program. *)
Definition set_add (ids : idset) (v : json) : outcome idset :=
  match v with
  | JStr s => Return (add_str s ids)
  | JBool b => Return (add_num (NBool b) ids)
  | JInt z => Return (add_num (NInt z) ids)
  | JFloat x shown => Return (add_num (NFloat x shown) ids)
  | JNull => Return ids
  | JArr _ | JObj _ => Raise TypeError
  end.

End Json.

Export Json.

(** ** Paths and the file tree *)

Module Fs.

(** A pure path: its parts, an absolute path starting with ["/"]. *)
Definition Path := list string.

(** [p / child] *)
Definition child (p : Path) (name : string) : Path := p ++ [name].

(** [p.name] *)
Definition name (p : Path) : string := List.last p EmptyString.

(** [str(p)] *)
Definition path_str (p : Path) : string :=
  match p with
  | [] => "."
  | "/" :: rest => "/" +:+ join "/" rest
  | _ => join "/" p
  end.

(** [p.is_relative_to(root)] and [p.relative_to(root)]. *)
Fixpoint is_relative_to (p root : Path) {struct root} : bool :=
  match root, p with
  | [], _ => true
  | r :: root', x :: p' => String.eqb r x && is_relative_to p' root'
  | _ :: _, [] => false
  end.

Definition relative_to (p root : Path) : Path :=
  drop (List.length root) p.

(** The index of the last ['.'] of [s], counted from [i]. *)
Fixpoint rfind_dot_from (i : nat) (s : string) : option nat :=
  match s with
  | EmptyString => None
  | String c s' =>
      match rfind_dot_from (S i) s' with
      | Some j => Some j
      | None => if Ascii.eqb c "." then Some i else None
      end
  end.

(** [p.stem]: the name without its last suffix. *)
Definition stem_of_name (nm : string) : string :=
  match rfind_dot_from 0 nm with
  | Some i =>
      if ((0 <? i) && (i <? String.length nm - 1))%nat
      then take_str i nm else nm
  | None => nm
  end.

Definition stem (p : Path) : string := stem_of_name (name p).

(** Shell-style match of a name against a pattern whose only
    wildcard is [*]. *)
Fixpoint fnmatch (pat : string) (nm : string) : bool :=
  match pat with
  | EmptyString => String.eqb nm EmptyString
  | String "*" pat' =>
      (fix any (s : string) : bool :=
         fnmatch pat' s
         || match s with
            | String _ s' => any s'
            | EmptyString => false
            end) nm
  | String c pat' =>
      match nm with
      | String c' nm' => Ascii.eqb c c' && fnmatch pat' nm'
      | EmptyString => false
      end
  end.

(** What lies below a directory: its path relative to the directory
    and what [read_text] gives for it (a directory raises). *)
Record entry := Entry { rel : Path; text : outcome string }.

(** A directory that exists lists everything below it, in the order
    in which the recursive walk visits it. *)
Definition dir := option (list entry).

(** [d.exists()] is [is_Some d]. *)

(** [d.rglob(pat)]: the paths below [d] whose name matches. *)
Definition rglob (pat : string) (d : Path) (entries : list entry)
    : list (Path * outcome string) :=
  (λ e, (d ++ rel e, text e))
    <$> filter (λ e, fnmatch pat (name (rel e)) = true) entries.

(** The catalog directory. *)
Record catalog := Catalog {
  (** [None]: no [index.json]; else what
      [json.loads(index_path.read_text())] gives *)
  index_json : option (outcome json);
  (** the [patterns] directory *)
  patterns : dir }.

(** The tree below the project root. *)
Record project := Project {
  project_root : Path;
  catalog_tree : catalog;
  manifests_tree : dir;
  specs_tree : dir }.

End Fs.

Export Fs.

(** ** The validator *)

Module Validator.

(** *** The patterns

    In the comments Q stands for the double quote character. *)

(** [[a-z0-9-]] *)
Definition ident_char : one :=
  Set_ [CRange "a" "z"; CRange "0" "9"; CChar "-"].

(** [[Q\']] *)
Definition quote : one := Set_ [CChar "034"; CChar "'"].

(** [\s*[Q\']?([a-z0-9-]+)[Q\']?\s*$], the tail the line patterns share *)
Definition value_tail : list regex :=
  [Star Space; Opt quote; Group 1 (Plus ident_char); Opt quote;
   Star Space; Eol].

(** [^id:\s*[Q\']?([a-z0-9-]+)[Q\']?\s*$] *)
Definition id_decl_re : regex :=
  cat ([Bol; lits "id:"] ++ value_tail).

(** [^\s*-\s*id:\s*[Q\']?([a-z0-9-]+)[Q\']?\s*$] *)
Definition list_item_re : regex :=
  cat ([Bol; Star Space; One (Lit "-"); Star Space; lits "id:"] ++ value_tail).

(** [^\s*pattern_id:\s*[Q\']?([a-z0-9-]+)[Q\']?\s*$] *)
Definition pattern_id_re : regex :=
  cat ([Bol; Star Space; lits "pattern_id:"] ++ value_tail).

(** [^\s*provider:\s*[Q\']?([a-z0-9-]+)[Q\']?\s*$] *)
Definition provider_re : regex :=
  cat ([Bol; Star Space; lits "provider:"] ++ value_tail).

(** [from_catalog:\s*\[([^\]]+)\]] *)
Definition from_catalog_re : regex :=
  cat [lits "from_catalog:"; Star Space; One (Lit "[");
       Group 1 (Plus (NotSet [CChar "]"])); One (Lit "]")].

(** [(matched|auto-applied|selected)] *)
Definition markers_re : regex :=
  Alt (lits "matched") (Alt (lits "auto-applied") (lits "selected")).

(** [\|\s*[^|]+\s*\|\s*([a-z0-9-]+)\s*\|\s*(matched|auto-applied|selected)] *)
Definition plan_row_re : regex :=
  cat [One (Lit "|"); Star Space; Plus (NotSet [CChar "|"]); Star Space;
       One (Lit "|"); Star Space; Group 1 (Plus ident_char); Star Space;
       One (Lit "|"); Star Space; Group 2 markers_re].

(** *** load_valid_pattern_ids *)

(** [except (json.JSONDecodeError, KeyError)] *)
Definition is_json_or_key_error (e : exn) : bool :=
  match e with
  | JSONDecodeError _ | KeyError _ => true
  | _ => false
  end.

(** [except Exception] *)
Definition is_exception (e : exn) : bool := true.

(** [for p in entries: pid = p.get("id"); if pid: ids.add(pid)] *)
Definition add_entry_ids (ids : idset) (entries : json)
    : M idset :=
  ps ← lift (py_iter entries);
  for_ ps (λ ids p,
    pid ← lift (py_get p "id" JNull);
    if truthy pid then lift (set_add ids pid) else mret ids) ids.

(** The body of the [try] on the index document. *)
Definition load_index (ids : idset) (loaded : outcome json)
    : M idset :=
  data ← lift loaded;
  top ← lift (py_get data "patterns" (JArr []));
  ids ← add_entry_ids ids top;
  cats ← lift (py_get data "categories" JNull);
  groups ← lift (py_values (if truthy cats then cats else JObj []));
  for_ groups (λ ids category,
    entries ← (if is_dict category
               then lift (py_get category "patterns" (JArr []))
               else mret (JArr []));
    add_entry_ids ids entries) ids.

(** [re.search(id_decl, content, re.MULTILINE)] and its group 1. *)
Definition declared_id (content : string) : option string :=
  group 1 <$> search MULTILINE id_decl_re content.

(** The body of the loop over the entry files. *)
Definition load_entry (ids : idset) (f : Path * outcome string)
    : M idset :=
  let '(yaml_file, read) := f in
  let ids := add_str (stem yaml_file) ids in
  try_except
    (content ← lift read;
     match declared_id content with
     | Some pid => mret (add_str pid ids)
     | None => mret ids
     end)
    is_exception
    (λ _, mret ids).

Definition load_valid_pattern_ids (catalog_dir : Path) (c : catalog)
    : M idset :=
  let ids : idset := ∅ in
  let index_path := child catalog_dir "index.json" in
  ids ← match index_json c with
        | Some loaded =>
            try_except (load_index ids loaded)
              is_json_or_key_error
              (λ e, eprint ("[WARN] Failed to parse " +:+ path_str index_path
                            +:+ ": " +:+ exn_str e);;
                    mret ids)
        | None => mret ids
        end;
  let patterns_dir := child catalog_dir "patterns" in
  match patterns c with
  | Some entries => for_ (rglob "*.yaml" patterns_dir entries) load_entry ids
  | None => mret ids
  end.

(** *** collect_used_pattern_ids_from_manifests *)

Definition Reference : Type := Path * string.

(** [for match in re.finditer(...): ids.append((doc, match.group(1)))] *)
Definition append_matches (f : flags) (r : regex) (doc : Path)
    (content : string) (ids : list Reference) : list Reference :=
  fold_left (λ ids m, ids ++ [(doc, group 1 m)]) (finditer f r content) ids.

(** [item.strip().strip(Q).strip(')], Q the double quote and ' the
    single quote, each as a one-character string *)
Definition clean_item (item : string) : string :=
  strip_char "'" (strip_char "034" (strip item)).

(** The loop over the inline [from_catalog: [...]] lists. *)
Definition append_inline_items (doc : Path) (content : string)
    (ids : list Reference) : list Reference :=
  fold_left (λ ids m,
      let items := split "," (group 1 m) in
      fold_left (λ ids item,
          let item := clean_item item in
          if negb (String.eqb item EmptyString) then ids ++ [(doc, item)]
          else ids) items ids)
    (finditer no_flags from_catalog_re content) ids.

(** What one readable manifest appends. *)
Definition scan_manifest (manifest : Path) (content : string)
    (ids : list Reference) : list Reference :=
  let ids := append_matches MULTILINE list_item_re manifest content ids in
  let ids := append_matches MULTILINE pattern_id_re manifest content ids in
  let ids := append_matches MULTILINE provider_re manifest content ids in
  append_inline_items manifest content ids.

(** One round of a collecting loop: read, scan, or warn and go on.
    Only the read can raise, so nothing was appended when it does. *)
Definition scan_document
    (scan : Path → string → list Reference → list Reference)
    (ids : list Reference) (f : Path * outcome string)
    : M (list Reference) :=
  let '(doc, read) := f in
  try_except
    (content ← lift read; mret (scan doc content ids))
    is_exception
    (λ e, eprint ("[WARN] Failed to read " +:+ path_str doc +:+ ": "
                  +:+ exn_str e);;
          mret ids).

Definition collect_used_pattern_ids_from_manifests (manifests_dir : Path)
    (d : dir) : M (list Reference) :=
  let ids : list Reference := [] in
  match d with
  | None => mret ids
  | Some entries =>
      for_ (rglob "*.yaml" manifests_dir entries)
        (scan_document scan_manifest) ids
  end.

(** *** collect_used_pattern_ids_from_plans *)

Definition scan_plan (plan_file : Path) (content : string)
    (ids : list Reference) : list Reference :=
  append_matches IGNORECASE plan_row_re plan_file content ids.

Definition collect_used_pattern_ids_from_plans (specs_dir : Path)
    (d : dir) : M (list Reference) :=
  let ids : list Reference := [] in
  match d with
  | None => mret ids
  | Some entries =>
      for_ (rglob "plan.md" specs_dir entries) (scan_document scan_plan) ids
  end.

(** *** main *)

(** The validation loop of [main]. *)
Definition find_errors (used_ids : list Reference) (valid_ids : idset)
    : list Reference :=
  fold_left (λ errors '(source_file, pid),
      if bool_decide (pid ∉ valid_ids)
      then errors ++ [(source_file, pid)] else errors)
    used_ids [].

(** [for x in xs: print(fmt x)] *)
Definition print_each {A} (xs : list A) (fmt : A → string) : M unit :=
  for_ xs (λ _ x, print (fmt x)) tt.

(** The path a failure line shows. *)
Definition rel_path (project_root source_file : Path) : Path :=
  if is_relative_to source_file project_root
  then relative_to source_file project_root else source_file.

Section Run.
(** The order in which this run iterates over a set: it depends on
    the string hashes of the run. *)
Variable set_iter : idset → list pyval.

(** [main], the exit code its result. *)
Definition main (argv : list string) (fs : project) : M nat :=
  let verbose :=
    bool_decide ("--verbose" ∈ argv) || bool_decide ("-v" ∈ argv) in
  let project_root := project_root fs in
  let catalog_dir := child project_root "catalog" in
  let manifests_dir := child project_root "manifests" in
  let specs_dir := child project_root "specs" in
  valid_ids ← load_valid_pattern_ids catalog_dir (catalog_tree fs);
  (if verbose then
     print ("[INFO] Found " +:+ str_of_nat (size valid_ids)
            +:+ " valid pattern IDs in catalog");;
     ids ← lift (sorted (set_iter valid_ids));
     print_each ids (λ pid, "       - " +:+ py_str pid);;
     print ""
   else mret tt);;
  from_manifests ←
    collect_used_pattern_ids_from_manifests manifests_dir (manifests_tree fs);
  from_plans ←
    collect_used_pattern_ids_from_plans specs_dir (specs_tree fs);
  let used_ids := from_manifests ++ from_plans in
  (if verbose then
     print ("[INFO] Found " +:+ str_of_nat (List.length used_ids)
            +:+ " pattern ID references");;
     print ""
   else mret tt);;
  let errors := find_errors used_ids valid_ids in
  match errors with
  | _ :: _ =>
      print "[ERROR] Unknown pattern IDs found:";;
      print_each errors (λ '(source_file, pid),
        "  - '" +:+ pid +:+ "' in "
        +:+ path_str (rel_path project_root source_file));;
      print "";;
      print "Available pattern IDs:";;
      ids ← lift (sorted (set_iter valid_ids));
      print_each (take 20 ids) (λ pid, "  - " +:+ py_str pid);;
      (if (20 <? size valid_ids)%nat
       then print ("  ... and " +:+ str_of_nat (size valid_ids - 20)
                   +:+ " more")
       else mret tt);;
      mret 1%nat
  | [] =>
      (match used_ids with
       | _ :: _ =>
           print ("[OK] All " +:+ str_of_nat (List.length used_ids)
                  +:+ " pattern ID references are valid.")
       | [] => print "[OK] No pattern ID references found to validate."
       end);;
      mret 0%nat
  end.

(** The process: its exit status and what it printed. A fault that
    nothing catches ends the process with status 1. *)
Definition run_main (argv : list string) (fs : project) : nat * console :=
  match main argv fs empty_console with
  | (Return code, c) => (code, c)
  | (Raise _, c) => (1%nat, c)
  end.
End Run.

End Validator.

Export Validator.

(** ** What the properties are stated with *)

Module Spec.

(** *** Texts *)

Fixpoint str_forall (p : ascii → bool) (s : string) : bool :=
  match s with
  | EmptyString => true
  | String c s' => p c && str_forall p s'
  end.

(** The character before the cursor once [w] has been read. *)
Fixpoint last_char (prev : option ascii) (w : string) : option ascii :=
  match w with
  | EmptyString => prev
  | String c w' => last_char (Some c) w'
  end.


(** White space only. *)
Definition blank (s : string) : bool := str_forall isspace s.

(** The lexical rule [[a-z0-9-]+]. *)
Definition is_ident_char (c : ascii) : bool :=
  one_ok no_flags ident_char c.

Definition is_identifier (s : string) : bool :=
  negb (String.eqb s EmptyString) && str_forall is_ident_char s.

(** The same rule with letters of either case. *)
Definition is_identifier_ci (s : string) : bool :=
  negb (String.eqb s EmptyString) && str_forall (λ c, is_ident_char (lower c)) s.



(** *** What a pattern matches *)

(** [matches f r prev w rest cs cs']: the pattern matches the text [w]
    when [prev] is the character before it and [rest] follows it, and
    turns the groups [cs] into [cs']. *)
Fixpoint matches (f : flags) (r : regex) (prev : option ascii)
    (w rest : string) (cs cs' : caps) : Prop :=
  match r with
  | Eps => w = EmptyString ∧ cs' = cs
  | One o => ∃ c, w = String c EmptyString ∧ one_ok f o c = true ∧ cs' = cs
  | Star o => str_forall (one_ok f o) w = true ∧ cs' = cs
  | Plus o =>
      w ≠ EmptyString ∧ str_forall (one_ok f o) w = true ∧ cs' = cs
  | Opt o =>
      (w = EmptyString ∨ ∃ c, w = String c EmptyString ∧ one_ok f o c = true)
      ∧ cs' = cs
  | Seq r1 r2 =>
      ∃ w1 w2 cs1, w = w1 +:+ w2
        ∧ matches f r1 prev w1 (w2 +:+ rest) cs cs1
        ∧ matches f r2 (last_char prev w1) w2 rest cs1 cs'
  | Alt r1 r2 =>
      matches f r1 prev w rest cs cs' ∨ matches f r2 prev w rest cs cs'
  | Group n r1 =>
      ∃ cs1, matches f r1 prev w rest cs cs1 ∧ cs' = (n, w) :: cs1
  | Bol => w = EmptyString ∧ at_bol f prev = true ∧ cs' = cs
  | Eol => w = EmptyString ∧ at_eol f rest = true ∧ cs' = cs
  end.

(** The bodies of the groups numbered [n]. *)
Fixpoint group_bodies (n : nat) (r : regex) : list regex :=
  match r with
  | Group m r1 => (if Nat.eqb m n then [r1] else []) ++ group_bodies n r1
  | Seq r1 r2 | Alt r1 r2 => group_bodies n r1 ++ group_bodies n r2
  | _ => []
  end.

(** Group [n] takes part in every match. *)
Fixpoint always_binds (n : nat) (r : regex) : bool :=
  match r with
  | Group m r1 => Nat.eqb m n || always_binds n r1
  | Seq r1 r2 => always_binds n r1 || always_binds n r2
  | Alt r1 r2 => always_binds n r1 && always_binds n r2
  | _ => false
  end.

(** The pattern does not look at the character before the cursor. *)
Fixpoint no_bol (r : regex) : bool :=
  match r with
  | Bol => false
  | Seq r1 r2 | Alt r1 r2 => no_bol r1 && no_bol r2
  | Group _ r1 => no_bol r1
  | _ => true
  end.

(** The repetition of [o] cannot go on into [rest]. *)
Definition stops (f : flags) (o : one) (rest : string) : bool :=
  match rest with
  | EmptyString => true
  | String c _ => negb (one_ok f o c)
  end.

(** *** Table rows *)





(** The four patterns anchored on a line. *)
Definition line_pattern (r : regex) : Prop :=
  r = id_decl_re ∨ r = list_item_re ∨ r = pattern_id_re ∨ r = provider_re.

(** *** The references of a document, stream by stream *)

(** The matches of one pattern, in textual order. *)
Definition pattern_refs (f : flags) (r : regex) (doc : Path)
    (content : string) : list Reference :=
  (λ m, (doc, group 1 m)) <$> finditer f r content.

(** The elements of one inline list. *)
Definition inline_items (body : string) : list string :=
  filter (λ item, item ≠ EmptyString) (clean_item <$> split "," body).

Definition inline_refs (doc : Path) (content : string) : list Reference :=
  m ← finditer no_flags from_catalog_re content;
  (λ item, (doc, item)) <$> inline_items (group 1 m).

(** A dependent-configuration document: the four streams, one after
    the other. *)
Definition manifest_doc_refs (doc : Path) (content : string)
    : list Reference :=
  pattern_refs MULTILINE list_item_re doc content
  ++ pattern_refs MULTILINE pattern_id_re doc content
  ++ pattern_refs MULTILINE provider_re doc content
  ++ inline_refs doc content.

Definition plan_doc_refs (doc : Path) (content : string) : list Reference :=
  pattern_refs IGNORECASE plan_row_re doc content.


(** A document that cannot be read contributes nothing. *)
Definition refs_of (per_doc : Path → string → list Reference)
    (f : Path * outcome string) : list Reference :=
  match f.2 with
  | Return content => per_doc f.1 content
  | Raise _ => []
  end.

Definition manifest_refs (manifests_dir : Path) (d : dir) : list Reference :=
  match d with
  | Some entries =>
      f ← rglob "*.yaml" manifests_dir entries; refs_of manifest_doc_refs f
  | None => []
  end.

Definition plan_refs (specs_dir : Path) (d : dir) : list Reference :=
  match d with
  | Some entries =>
      f ← rglob "plan.md" specs_dir entries; refs_of plan_doc_refs f
  | None => []
  end.

(** Everything [main] collects: the manifests first, then the plans. *)
Definition collected (fs : project) : list Reference :=
  manifest_refs (child (project_root fs) "manifests") (manifests_tree fs)
  ++ plan_refs (child (project_root fs) "specs") (specs_tree fs).

(** The outcome of a computation started on empty streams. *)
Definition result_of {A} (m : M A) : outcome A := (m empty_console).1.

(** The valid set [main] works with, when the loader returns. *)
Definition loaded (fs : project) : outcome idset :=
  result_of (load_valid_pattern_ids (child (project_root fs) "catalog")
               (catalog_tree fs)).

(** *** The index and the entry files, stream by stream *)

(** The identifier an index entry contributes. *)
Definition entry_id (p : json) : option string :=
  match p with
  | JObj ms =>
      match dict_get "id" ms with
      | Some (JStr s) => if String.eqb s EmptyString then None else Some s
      | _ => None
      end
  | _ => None
  end.

(** The number an index entry contributes: a truthy boolean, integer
    or float. *)
Definition entry_num (p : json) : option number :=
  match p with
  | JObj ms =>
      n ← dict_get "id" ms ≫= json_number;
      if num_truthy n then Some n else None
  | _ => None
  end.

(** The entries of a [patterns] member. *)
Definition entries_of (holder : list (string * json)) : list json :=
  match py_iter (default (JArr []) (dict_get "patterns" holder)) with
  | Return ps => ps
  | Raise _ => []
  end.

Definition entry_ids (holder : list (string * json)) : list string :=
  omap entry_id (entries_of holder).

Definition entry_nums (holder : list (string * json)) : list number :=
  omap entry_num (entries_of holder).

(** The index document, when it was read and parsed. *)
Definition index_members (c : catalog) : list (string * json) :=
  match index_json c with
  | Some (Return (JObj ms)) => ms
  | _ => []
  end.

(** (a) the top-level entry list *)
Definition top_level_ids (c : catalog) : list string :=
  entry_ids (index_members c).

(** (b) the entry lists of the category groups *)
Definition category_ids (c : catalog) : list string :=
  match dict_get "categories" (index_members c) with
  | Some (JObj groups) =>
      g ← dict_values groups;
      match g with
      | JObj ms => entry_ids ms
      | _ => []
      end
  | _ => []
  end.

(** The numbers of the index, in the order in which the loader meets
    them: the top-level entry list, then the category groups. *)
Definition index_nums (c : catalog) : list number :=
  entry_nums (index_members c)
  ++ match dict_get "categories" (index_members c) with
     | Some (JObj groups) =>
         g ← dict_values groups;
         match g with
         | JObj ms => entry_nums ms
         | _ => []
         end
     | _ => []
     end.

(** The set [ids] after [add] of the strings [ss] and of the numbers
    [ns] in turn. *)
Definition extend (ids : idset) (ss : list string) (ns : list number)
    : idset :=
  IdSet (strs ids ∪ list_to_set ss) (add_nums (nums ids) ns).

(** The set holds strings and numbers, which [sorted] cannot compare. *)
Definition mixed (ids : idset) : bool :=
  bool_decide (strs ids ≠ ∅) && bool_decide (nums ids ≠ []).

(** No two numbers of the set have the same value. *)
Definition distinct (ids : idset) : Prop := NoDup (value <$> nums ids).

(** The entry files the loader visits. *)
Definition entry_files (catalog_dir : Path) (c : catalog)
    : list (Path * outcome string) :=
  match patterns c with
  | Some entries => rglob "*.yaml" (child catalog_dir "patterns") entries
  | None => []
  end.

(** (c) the base names of the entry files, readable or not *)
Definition base_names (catalog_dir : Path) (c : catalog) : list string :=
  (λ f, stem f.1) <$> entry_files catalog_dir c.

(** The identifier an entry file declares, when it can be read. *)
Definition file_declared (f : Path * outcome string) : option string :=
  match f.2 with
  | Return content => declared_id content
  | Raise _ => None
  end.

(** (d) the identifier declaration lines of the readable entry files *)
Definition declared_ids (catalog_dir : Path) (c : catalog) : list string :=
  omap file_declared (entry_files catalog_dir c).

(** *** The report *)

Definition is_verbose (argv : list string) : bool :=
  bool_decide ("--verbose" ∈ argv) || bool_decide ("-v" ∈ argv).

(** What the verbosity flag adds before the report. *)
Definition info_lines (ids : list string) (n_valid n_used : nat)
    : list string * list string :=
  (["[INFO] Found " +:+ str_of_nat n_valid +:+ " valid pattern IDs in catalog"]
     ++ ((λ pid, "       - " +:+ pid) <$> ids) ++ [""],
   ["[INFO] Found " +:+ str_of_nat n_used +:+ " pattern ID references"; ""]).

Definition failure_line (shown : Path) (pid : string) : string :=
  "  - '" +:+ pid +:+ "' in " +:+ path_str shown.

(** The preview: at most 20 identifiers, then how many are left. *)
Definition preview (ids : list string) : list string :=
  ((λ pid, "  - " +:+ pid) <$> take 20 ids)
  ++ (if (20 <? List.length ids)%nat
      then ["  ... and " +:+ str_of_nat (List.length ids - 20) +:+ " more"]
      else []).

(** The report for the references [used], the failures among them
    and the valid identifiers [ids] in ascending order. *)
Definition report (root : Path) (used failures : list Reference)
    (ids : list string) : list string :=
  match failures, used with
  | _ :: _, _ =>
      ["[ERROR] Unknown pattern IDs found:"]
      ++ ((λ r : Reference, failure_line (relative_to r.1 root) r.2) <$> failures)
      ++ [""; "Available pattern IDs:"]
      ++ preview ids
  | [], _ :: _ =>
      ["[OK] All " +:+ str_of_nat (List.length used)
       +:+ " pattern ID references are valid."]
  | [], [] => ["[OK] No pattern ID references found to validate."]
  end.

(** The lines of the two branches, as the code writes them, for the
    sorted valid identifiers [ids] and their number [n_valid]. *)
Definition failure_report (root : Path) (failures : list Reference)
    (ids : list string) (n_valid : nat) : list string :=
  ["[ERROR] Unknown pattern IDs found:"]
  ++ ((λ '(source_file, pid),
        "  - '" +:+ pid +:+ "' in " +:+ path_str (rel_path root source_file))
      <$> failures)
  ++ [""; "Available pattern IDs:"]
  ++ ((λ pid, "  - " +:+ pid) <$> take 20 ids)
  ++ (if (20 <? n_valid)%nat
      then ["  ... and " +:+ str_of_nat (n_valid - 20) +:+ " more"]
      else []).

Definition success_report (used : list Reference) : list string :=
  match used with
  | _ :: _ => ["[OK] All " +:+ str_of_nat (List.length used)
               +:+ " pattern ID references are valid."]
  | [] => ["[OK] No pattern ID references found to validate."]
  end.

Definition verbose_lines (argv : list string) (ids : list string)
    (n_valid n_used : nat) : list string :=
  if is_verbose argv
  then (info_lines ids n_valid n_used).1 ++ (info_lines ids n_valid n_used).2
  else [].

(** The first information line. *)
Definition info_head (n_valid : nat) : string :=
  "[INFO] Found " +:+ str_of_nat n_valid +:+ " valid pattern IDs in catalog".

(** What the failure branch has printed when it comes to sort the
    valid identifiers. *)
Definition failure_head (root : Path) (failures : list Reference)
    : list string :=
  ["[ERROR] Unknown pattern IDs found:"]
  ++ ((λ '(source_file, pid),
        "  - '" +:+ pid +:+ "' in " +:+ path_str (rel_path root source_file))
      <$> failures)
  ++ [""; "Available pattern IDs:"].

(** How [main] ends once the loader has returned: [ids] is what
    [sorted] gives for the valid set. The flag sorts before the
    collectors run, the failure branch sorts for its preview, and
    nothing catches the fault of [sorted]. *)
Definition main_outcome (argv : list string) (ids : outcome (list pyval))
    (failures : list Reference) : outcome nat :=
  match ids, failures with
  | Return _, [] => Return 0%nat
  | Return _, _ :: _ => Return 1%nat
  | Raise e, [] => if is_verbose argv then Raise e else Return 0%nat
  | Raise e, _ :: _ => Raise e
  end.

(** What [main] has printed by then. *)
Definition main_stdout (argv : list string) (root : Path)
    (ids : outcome (list pyval)) (n_valid : nat)
    (used failures : list Reference) : list string :=
  match ids with
  | Return ids =>
      verbose_lines argv (py_str <$> ids) n_valid (List.length used)
      ++ match failures with
         | [] => success_report used
         | _ :: _ => failure_report root failures (py_str <$> ids) n_valid
         end
  | Raise _ =>
      if is_verbose argv then [info_head n_valid]
      else match failures with
           | [] => success_report used
           | _ :: _ => failure_head root failures
           end
  end.

(** Steps that raise nothing but the faults [P] allows. *)
Definition raises_only {A} (P : exn → Prop) (m : M A) : Prop :=
  ∀ c e c', m c = (Raise e, c') → P e.

(** The faults of a structural surprise in a parsed document. *)
Definition is_shape_fault (e : exn) : Prop :=
  e = AttributeError ∨ e = TypeError.

(** Steps that leave both streams alone. *)
Definition quiet {A} (m : M A) : Prop := ∀ c, (m c).2 = c.

End Spec.

Export Spec.

(** ** Sample projects *)

Module Examples.

Definition nl : string := String "010" EmptyString.

Definition repo : Path := ["/"; "repo"].

(** Scenario A: the index lists the identifier a manifest uses. *)
Definition scenario_a : project :=
  Project repo
    (Catalog
       (Some (Return (JObj [("patterns",
                             JArr [JObj [("id", JStr "feature-create-entity")]])])))
       None)
    (Some [Entry ["app.yaml"]
             (Return ("uses:" +:+ nl +:+ "  - id: feature-create-entity" +:+ nl))])
    None.

(** Scenario B: an empty catalog and one provider reference. *)
Definition scenario_b : project :=
  Project repo (Catalog None None)
    (Some [Entry ["app.yaml"] (Return ("provider: some-provider" +:+ nl))])
    None.

(** Scenario C: a plan with a matched row and a rejected row. *)
Definition scenario_c_plan : string :=
  "| Foo | bar-baz | matched |" +:+ nl
  +:+ "| Foo | old-thing | rejected |" +:+ nl.

Definition scenario_c : project :=
  Project repo (Catalog None None) None
    (Some [Entry ["001"; "plan.md"] (Return scenario_c_plan)]).

(** Scenario D: no document at all. *)
Definition scenario_d : project :=
  Project repo (Catalog None None) None None.

(** An index document that is valid JSON but a list, next to one
    entry file. *)
Definition list_index : project :=
  Project repo
    (Catalog (Some (Return (JArr [])))
       (Some [Entry ["feature-a.yaml"] (Return ("id: feature-a" +:+ nl))]))
    None None.

(** Both index shapes, and entry files of which one cannot be read. *)
Definition mixed_catalog : catalog :=
  Catalog
    (Some (Return (JObj
       [("patterns", JArr [JObj [("id", JStr "top-one")]; JObj [("name", JStr "x")]]);
        ("categories",
         JObj [("features", JObj [("patterns", JArr [JObj [("id", JStr "nested-one")]])]);
               ("notes", JStr "free text")])])))
    (Some [Entry ["a"; "file-one.yaml"] (Return ("id: declared-one" +:+ nl));
           Entry ["locked.yaml"] (Raise (OSError "Permission denied"));
           Entry ["README.md"] (Return "id: not-an-entry")]).

Definition mixed_project : project :=
  Project repo mixed_catalog
    (Some [Entry ["app.yaml"]
             (Return ("provider: top-one" +:+ nl
                      +:+ "pattern_id: nested-one" +:+ nl
                      +:+ "from_catalog: [locked, 'missing-one']" +:+ nl
                      +:+ "- id: file-one" +:+ nl))])
    (Some [Entry ["plan.md"] (Return ("| F | declared-one | Selected |" +:+ nl))]).


(** A catalog and documents whose identifiers break the lexical rule. *)
Definition free_form : project :=
  Project repo
    (Catalog (Some (Return (JObj [("patterns", JArr [JObj [("id", JStr "Foo Bar")]])])))
       (Some [Entry ["My_Pattern.yaml"] (Return "")]))
    (Some [Entry ["app.yaml"] (Return "from_catalog: [Foo Bar, My_Pattern]")])
    (Some [Entry ["plan.md"] (Return "| F | UPPER | matched |")]).

(** Twenty-two valid identifiers and one unknown reference. *)
Definition many_ids : list string :=
  ["p01"; "p02"; "p03"; "p04"; "p05"; "p06"; "p07"; "p08"; "p09"; "p10"; "p11";
   "p12"; "p13"; "p14"; "p15"; "p16"; "p17"; "p18"; "p19"; "p20"; "p21"; "p22"].

Definition crowded : project :=
  Project repo
    (Catalog
       (Some (Return (JObj [("patterns",
          JArr ((λ s, JObj [("id", JStr s)]) <$> many_ids))])))
       None)
    (Some [Entry ["app.yaml"] (Return ("provider: p00" +:+ nl))])
    None.

(** A run whose sets iterate in the reverse order. *)
Definition reversed_iter (s : idset) : list pyval := reverse (elements s).

(** An index whose identifiers are a number and a string, with a
    manifest whose reference resolves, and with one whose reference
    does not. *)
Definition number_catalog : catalog :=
  Catalog
    (Some (Return (JObj [("patterns",
       JArr [JObj [("id", JInt 5)]; JObj [("id", JStr "a")]])])))
    None.

Definition number_resolved : project :=
  Project repo number_catalog
    (Some [Entry ["app.yaml"] (Return ("- id: a" +:+ nl))])
    None.

Definition number_unresolved : project :=
  Project repo number_catalog
    (Some [Entry ["app.yaml"] (Return ("- id: zzz" +:+ nl))])
    None.

End Examples.

Export Examples.

(** ** Diagnostics and shapes, for the further properties *)

Module More.

(** The line a collector writes for a document it cannot read. *)
Definition read_warning (f : Path * outcome string) : option string :=
  match f.2 with
  | Raise e =>
      Some ("[WARN] Failed to read " +:+ path_str f.1 +:+ ": " +:+ exn_str e)
  | Return _ => None
  end.

Definition read_warnings (fs : list (Path * outcome string)) : list string :=
  omap read_warning fs.

(** The documents a collector visits. *)
Definition visited (pat : string) (d : Path) (tree : dir)
    : list (Path * outcome string) :=
  match tree with
  | Some entries => rglob pat d entries
  | None => []
  end.

(** The line the loader writes for an index it cannot parse. *)
Definition index_warning (catalog_dir : Path) (cat : catalog) : list string :=
  match index_json cat with
  | Some (Raise e) =>
      if is_json_or_key_error e
      then ["[WARN] Failed to parse "
            +:+ path_str (child catalog_dir "index.json") +:+ ": " +:+ exn_str e]
      else []
  | _ => []
  end.

(** Everything a run writes to the error stream. *)
Definition diagnostics (fs : project) : list string :=
  index_warning (child (project_root fs) "catalog") (catalog_tree fs)
  ++ read_warnings (visited "*.yaml" (child (project_root fs) "manifests")
                      (manifests_tree fs))
  ++ read_warnings (visited "plan.md" (child (project_root fs) "specs")
                      (specs_tree fs)).

(** What a run whose loader returned writes to the error stream;
    [ids] is what [sorted] gives for the valid set. Under the flag a
    fault of [sorted] ends the run before the collectors. *)
Definition main_stderr (argv : list string) (fs : project)
    (ids : outcome (list pyval)) : list string :=
  match ids with
  | Raise _ =>
      if is_verbose argv
      then index_warning (child (project_root fs) "catalog") (catalog_tree fs)
      else diagnostics fs
  | Return _ => diagnostics fs
  end.

(** *** Lines of a document *)

(** Nothing, a double quote or a single quote. *)
Definition opt_quote (q : string) : bool :=
  String.eqb q EmptyString
  || String.eqb q (String "034" EmptyString)
  || String.eqb q "'".

(** The value of a line: white space, the identifier between optional
    quotes, white space, up to the end of a line. *)
Definition value_occurrence (v pid rest : string) : Prop :=
  ∃ s1 q1 q2 s2,
    v = s1 +:+ q1 +:+ pid +:+ q2 +:+ s2
    ∧ blank s1 = true ∧ opt_quote q1 = true ∧ is_identifier pid = true
    ∧ opt_quote q2 = true ∧ blank s2 = true
    ∧ at_eol MULTILINE rest = true.

(** What a line pattern reads before the value. *)
Definition key_occurrence (r : regex) (k : string) : Prop :=
  (r = id_decl_re ∧ k = "id:")
  ∨ (r = list_item_re
     ∧ ∃ s0 s1, blank s0 = true ∧ blank s1 = true
                ∧ k = s0 +:+ "-" +:+ s1 +:+ "id:")
  ∨ (r = pattern_id_re ∧ ∃ s0, blank s0 = true ∧ k = s0 +:+ "pattern_id:")
  ∨ (r = provider_re ∧ ∃ s0, blank s0 = true ∧ k = s0 +:+ "provider:").

(** The text [before] ends a line: it is empty or ends with a newline. *)
Definition line_start (before : string) : bool :=
  at_bol MULTILINE (last_char None before).

(** [w], found after [before] and followed by [rest], is a line of the
    pattern [r] with the identifier [pid]. *)
Definition line_occurrence (r : regex) (before w pid rest : string) : Prop :=
  line_start before = true
  ∧ ∃ k v, w = k +:+ v ∧ key_occurrence r k ∧ value_occurrence v pid rest.

(** The computation returned. *)
Definition returns {A} (o : outcome A) : bool :=
  match o with
  | Return _ => true
  | Raise _ => false
  end.

(** An entry the loops go through: an object whose [id] is missing,
    falsy, a string or a number; a list or an object that is not
    empty cannot be added to a set. *)
Definition entry_ok (p : json) : bool :=
  match p with
  | JObj ms =>
      match dict_get "id" ms with
      | Some (JArr (_ :: _)) | Some (JObj (_ :: _)) => false
      | _ => true
      end
  | _ => false
  end.

(** The [patterns] member of an object is missing or can be iterated,
    and gives such entries. A string gives its characters and an
    object its keys, none of which is an entry. *)
Definition holder_ok (ms : list (string * json)) : bool :=
  match py_iter (default (JArr []) (dict_get "patterns" ms)) with
  | Return ps => forallb entry_ok ps
  | Raise _ => false
  end.

(** The [categories] member is missing, falsy, or an object whose
    object values are such holders. *)
Definition categories_ok (ms : list (string * json)) : bool :=
  match dict_get "categories" ms with
  | None => true
  | Some cats =>
      if truthy cats then
        match cats with
        | JObj groups =>
            forallb (λ g, match g with JObj gs => holder_ok gs | _ => true end)
              (dict_values groups)
        | _ => false
        end
      else true
  end.

Definition index_ok (data : json) : bool :=
  match data with
  | JObj ms => holder_ok ms && categories_ok ms
  | _ => false
  end.

(** The catalogs the loader returns on. *)
Definition loader_accepts (cat : catalog) : bool :=
  match index_json cat with
  | None => true
  | Some (Raise e) => is_json_or_key_error e
  | Some (Return data) => index_ok data
  end.

(** An index that is not JSON, an entry file, a manifest and a plan that
    cannot be read, next to documents that can. *)
Definition noisy : project :=
  Project repo
    (Catalog
       (Some (Raise (JSONDecodeError "Expecting value: line 1 column 1 (char 0)")))
       (Some [Entry ["feature-a.yaml"] (Return ("id: feature-a" +:+ nl));
              Entry ["locked.yaml"] (Raise (OSError "Permission denied"))]))
    (Some [Entry ["bad.yaml"] (Raise (UnicodeDecodeError "invalid start byte"));
           Entry ["app.yaml"]
             (Return ("- id: feature-a" +:+ nl +:+ "- id: locked" +:+ nl))])
    (Some [Entry ["x"; "plan.md"] (Raise (OSError "Is a directory"))]).

(** *** Inline lists *)

(** No closing bracket. *)
Definition bracket_free (s : string) : bool :=
  str_forall (λ c, negb (Ascii.eqb c "]")) s.

(** Neither white space, nor a quote, nor a comma, nor a closing
    bracket. *)
Definition plain_char (c : ascii) : bool :=
  negb (isspace c || Ascii.eqb c "034" || Ascii.eqb c "'"
        || Ascii.eqb c "," || Ascii.eqb c "]").

Definition plain (x : string) : bool :=
  negb (String.eqb x EmptyString) && str_forall plain_char x.

(** Only the character [q], any number of times. *)
Definition all_char (q : ascii) (s : string) : bool :=
  str_forall (Ascii.eqb q) s.

(** [raw] is the element [x] as written in a list: white space, double
    quotes, single quotes, [x], single quotes, double quotes, white
    space; each of them optional but [x]. *)
Definition decorated (raw x : string) : Prop :=
  ∃ w1 d1 q1 q2 d2 w2,
    raw = w1 +:+ d1 +:+ q1 +:+ x +:+ q2 +:+ d2 +:+ w2
    ∧ blank w1 = true ∧ all_char "034" d1 = true ∧ all_char "'" q1 = true
    ∧ plain x = true
    ∧ all_char "'" q2 = true ∧ all_char "034" d2 = true ∧ blank w2 = true.

(** *** Lines that follow other lines *)

(** No newline. *)
Definition on_line (s : string) : bool :=
  str_forall (λ c, negb (Ascii.eqb c "010")) s.

(** The text is not empty and ends with a newline. *)
Definition ends_line (d : string) : Prop :=
  last_char None d = Some "010"%char.

(** The text starts with a character that is not white space. *)
Definition nonblank_head (s : string) : bool :=
  match s with
  | String c _ => negb (isspace c)
  | EmptyString => false
  end.

(** What can follow the identifier of a value: nothing, white space or
    a quote. *)
Definition value_stop (z : string) : bool :=
  match z with
  | String c _ => isspace c || one_ok MULTILINE quote c
  | EmptyString => true
  end.

(** The key of a manifest line pattern, the dash and [id:] of a list
    item on one line. *)
Definition key_on_line (r : regex) (k : string) : Prop :=
  (r = list_item_re
   ∧ ∃ s0 s1, blank s0 = true ∧ blank s1 = true ∧ on_line s1 = true
              ∧ k = s0 +:+ "-" +:+ s1 +:+ "id:")
  ∨ (r = pattern_id_re ∧ ∃ s0, blank s0 = true ∧ k = s0 +:+ "pattern_id:")
  ∨ (r = provider_re ∧ ∃ s0, blank s0 = true ∧ k = s0 +:+ "provider:").

(** [s.startswith(p)]. *)
Fixpoint starts_with (p s : string) : bool :=
  match p, s with
  | EmptyString, _ => true
  | String a p', String b s' => Ascii.eqb a b && starts_with p' s'
  | String _ _, EmptyString => false
  end.

(** Some line of [s] starts with [p]; [prev] is the character before
    [s]. *)
Fixpoint has_line_with (p : string) (prev : option ascii) (s : string) : bool :=
  match s with
  | EmptyString => false
  | String c s' =>
      (at_bol MULTILINE prev && starts_with p s) || has_line_with p (Some c) s'
  end.

(** [w] is an inline list with the bracketed text [body]. *)
Definition inline_occurrence (w body : string) : Prop :=
  ∃ s1, w = "from_catalog:" +:+ s1 +:+ "[" +:+ body +:+ "]"
        ∧ blank s1 = true ∧ body ≠ EmptyString ∧ bracket_free body = true.

(** Where a reference of a manifest can come from: a line of one of
    the three line patterns, or an element of an inline list. *)
Definition manifest_source (content pid : string) : Prop :=
  (∃ re before w rest,
     re ∈ [list_item_re; pattern_id_re; provider_re]
     ∧ content = before +:+ w +:+ rest ∧ line_occurrence re before w pid rest)
  ∨ (∃ before w body rest,
       content = before +:+ w +:+ rest
       ∧ inline_occurrence w body ∧ pid ∈ inline_items body).

(** *** The order of a walk *)

(** The same directory, walked in another order. *)
Definition walk_perm (d d' : dir) : Prop :=
  match d, d' with
  | Some es, Some es' => es ≡ₚ es'
  | None, None => True
  | _, _ => False
  end.

(** The same tree, its directories walked in another order. *)
Definition same_tree (fs fs' : project) : Prop :=
  project_root fs = project_root fs'
  ∧ index_json (catalog_tree fs) = index_json (catalog_tree fs')
  ∧ walk_perm (patterns (catalog_tree fs)) (patterns (catalog_tree fs'))
  ∧ walk_perm (manifests_tree fs) (manifests_tree fs')
  ∧ walk_perm (specs_tree fs) (specs_tree fs').

(** [noisy] with its entry files and its manifests walked from
    the last to the first. *)
Definition noisy_reversed : project :=
  Project (project_root noisy)
    (Catalog (index_json (catalog_tree noisy))
       (reverse <$> patterns (catalog_tree noisy)))
    (reverse <$> manifests_tree noisy)
    (specs_tree noisy).

End More.

Export More.

(** ** Texts *)

Section Strings.

Lemma str_app_nil_l (s : string) : EmptyString +:+ s = s.
Proof. reflexivity. Qed.

Lemma str_app_cons (c : ascii) (a b : string) :
  String c a +:+ b = String c (a +:+ b).
Proof. reflexivity. Qed.

Lemma str_app_nil_r (s : string) : s +:+ EmptyString = s.
Proof.
  induction s as [|c s IH]; [done|]. by rewrite str_app_cons, IH.
Qed.

Lemma str_app_assoc (a b c : string) : (a +:+ b) +:+ c = a +:+ (b +:+ c).
Proof.
  induction a as [|x a IH]; [done|]. by rewrite !str_app_cons, IH.
Qed.

Lemma str_app_length (a b : string) :
  String.length (a +:+ b) = (String.length a + String.length b)%nat.
Proof.
  induction a as [|x a IH]; [done|]. rewrite str_app_cons. simpl. by rewrite IH.
Qed.

Lemma take_str_app (w s : string) : take_str (String.length w) (w +:+ s) = w.
Proof.
  induction w as [|c w IH]; [by destruct s|].
  rewrite str_app_cons. simpl. by rewrite IH.
Qed.

Lemma consumed_app (w s : string) : consumed (w +:+ s) s = w.
Proof.
  unfold consumed. rewrite str_app_length.
  replace (String.length w + String.length s - String.length s)%nat
    with (String.length w) by lia.
  apply take_str_app.
Qed.

Lemma last_char_app (prev : option ascii) (a b : string) :
  last_char prev (a +:+ b) = last_char (last_char prev a) b.
Proof.
  revert prev. induction a as [|x a IH]; intros prev; [done|].
  rewrite str_app_cons. simpl. apply IH.
Qed.

Lemma str_forall_app (p : ascii → bool) (a b : string) :
  str_forall p (a +:+ b) = str_forall p a && str_forall p b.
Proof.
  induction a as [|x a IH]; [done|].
  rewrite str_app_cons. simpl. rewrite IH. by rewrite andb_assoc.
Qed.

End Strings.

(** ** The matcher is sound for [matches] *)

Section MatcherSound.
Context {R : Type} (f : flags).
Implicit Types (k : @cont R) (prev : option ascii) (s w : string) (cs : caps).

Lemma star_sound o s : ∀ prev cs k res,
  star f o prev s cs k = Some res →
  ∃ w s', s = w +:+ s' ∧ str_forall (one_ok f o) w = true
          ∧ k (last_char prev w) s' cs = Some res.
Proof.
  induction s as [|c s IH]; intros prev cs k res H; simpl in H.
  - by exists EmptyString, EmptyString.
  - destruct (one_ok f o c) eqn:Hc.
    + destruct (star f o (Some c) s cs k) as [r|] eqn:Hs.
      * injection H as ->. apply IH in Hs as (w & s' & -> & Hw & Hk).
        exists (String c w), s'. simpl. by rewrite Hc, Hw.
      * by exists EmptyString, (String c s).
    + by exists EmptyString, (String c s).
Qed.

Lemma rmatch_sound r : ∀ prev s cs k res,
  rmatch f r prev s cs k = Some res →
  ∃ w s' cs', s = w +:+ s' ∧ matches f r prev w s' cs cs'
              ∧ k (last_char prev w) s' cs' = Some res.
Proof.
  induction r as [|o|o|o|o|r1 IH1 r2 IH2|r1 IH1 r2 IH2|n r1 IH1| |];
    intros prev s cs k res H; simpl in H.
  - by exists EmptyString, s, cs.
  - destruct s as [|c s]; [done|]. destruct (one_ok f o c) eqn:Hc; [|done].
    exists (String c EmptyString), s, cs. simpl. eauto 10.
  - apply star_sound in H as (w & s' & -> & Hw & Hk).
    by exists w, s', cs.
  - destruct s as [|c s]; [done|]. destruct (one_ok f o c) eqn:Hc; [|done].
    apply star_sound in H as (w & s' & -> & Hw & Hk).
    exists (String c w), s', cs. simpl. by rewrite Hc, Hw.
  - destruct s as [|c s]; [by exists EmptyString, EmptyString, cs; simpl; auto|].
    destruct (one_ok f o c) eqn:Hc.
    + destruct (k (Some c) s cs) as [r|] eqn:Hk.
      * injection H as ->. exists (String c EmptyString), s, cs. simpl. eauto 10.
      * exists EmptyString, (String c s), cs. simpl. auto.
    + exists EmptyString, (String c s), cs. simpl. auto.
  - apply IH1 in H as (w1 & s1 & cs1 & -> & M1 & H).
    apply IH2 in H as (w2 & s2 & cs2 & -> & M2 & H).
    exists (w1 +:+ w2), s2, cs2. rewrite str_app_assoc, last_char_app.
    split; [done|]. split; [|done]. simpl. by exists w1, w2, cs1.
  - destruct (rmatch f r1 prev s cs k) as [r|] eqn:H1.
    + injection H as ->. apply IH1 in H1 as (w & s' & cs' & -> & M & H).
      exists w, s', cs'. simpl. auto.
    + apply IH2 in H as (w & s' & cs' & -> & M & H).
      exists w, s', cs'. simpl. auto.
  - apply IH1 in H as (w & s' & cs' & -> & M & H).
    rewrite consumed_app in H.
    exists w, s', ((n, w) :: cs'). simpl. eauto.
  - destruct (at_bol f prev) eqn:Hb; [|done].
    by exists EmptyString, s, cs.
  - destruct (at_eol f s) eqn:He; [|done].
    by exists EmptyString, s, cs.
Qed.

End MatcherSound.

(** A match at the cursor, read as an occurrence of the pattern. *)
Lemma match_here_sound f r prev s s' cs :
  match_here f r prev s = Some (s', cs) →
  ∃ w, s = w +:+ s' ∧ matches f r prev w s' [] cs.
Proof.
  unfold match_here. intros H.
  apply rmatch_sound in H as (w & s1 & cs1 & -> & M & H).
  injection H as <- <-. by exists w.
Qed.

(** ** Where the groups of a match come from *)

Lemma matches_group f n r : ∀ prev w rest cs cs',
  matches f r prev w rest cs cs' →
  group_opt n cs' = group_opt n cs
  ∨ ∃ r1 prev1 w1 rest1 csa csb,
      r1 ∈ group_bodies n r ∧ matches f r1 prev1 w1 rest1 csa csb
      ∧ group_opt n cs' = Some w1.
Proof.
  induction r as [|o|o|o|o|r1 IH1 r2 IH2|r1 IH1 r2 IH2|m r1 IH1| |];
    intros prev w rest cs cs' H; simpl in H.
  - destruct H as [_ ->]; auto.
  - destruct H as (c & _ & _ & ->); auto.
  - destruct H as [_ ->]; auto.
  - destruct H as (_ & _ & ->); auto.
  - destruct H as [_ ->]; auto.
  - destruct H as (w1 & w2 & cs1 & -> & M1 & M2).
    apply IH2 in M2 as [E2|(r0 & p0 & w0 & rest0 & ca & cb & Hin & M0 & E)].
    + rewrite E2. apply IH1 in M1 as [E1|(r0 & p0 & w0 & rest0 & ca & cb & Hin & M0 & E)];
        [auto|].
      right. exists r0, p0, w0, rest0, ca, cb. simpl. rewrite elem_of_app. auto.
    + right. exists r0, p0, w0, rest0, ca, cb. simpl. rewrite elem_of_app. auto.
  - destruct H as [M|M].
    + apply IH1 in M as [E|(r0 & p0 & w0 & rest0 & ca & cb & Hin & M0 & E)]; [auto|].
      right. exists r0, p0, w0, rest0, ca, cb. simpl. rewrite elem_of_app. auto.
    + apply IH2 in M as [E|(r0 & p0 & w0 & rest0 & ca & cb & Hin & M0 & E)]; [auto|].
      right. exists r0, p0, w0, rest0, ca, cb. simpl. rewrite elem_of_app. auto.
  - destruct H as (cs1 & M & ->). simpl.
    destruct (Nat.eqb m n) eqn:Hm.
    + right. exists r1, prev, w, rest, cs, cs1. split; [left|]. auto.
    + apply IH1 in M as [E|(r0 & p0 & w0 & rest0 & ca & cb & Hin & M0 & E)]; [auto|].
      right. exists r0, p0, w0, rest0, ca, cb. auto.
  - destruct H as (_ & _ & ->); auto.
  - destruct H as (_ & _ & ->); auto.
Qed.

Lemma matches_binds f n r : ∀ prev w rest cs cs',
  matches f r prev w rest cs cs' →
  (always_binds n r = true ∨ is_Some (group_opt n cs)) →
  is_Some (group_opt n cs').
Proof.
  induction r as [|o|o|o|o|r1 IH1 r2 IH2|r1 IH1 r2 IH2|m r1 IH1| |];
    intros prev w rest cs cs' H Hb; simpl in H, Hb.
  - destruct H as [_ ->]. by destruct Hb.
  - destruct H as (c & _ & _ & ->). by destruct Hb.
  - destruct H as [_ ->]. by destruct Hb.
  - destruct H as (_ & _ & ->). by destruct Hb.
  - destruct H as [_ ->]. by destruct Hb.
  - destruct H as (w1 & w2 & cs1 & -> & M1 & M2).
    destruct Hb as [Hb|Hb].
    + apply orb_true_iff in Hb as [Hb|Hb].
      * eapply IH2; [done|]. right. eapply IH1; eauto.
      * eapply IH2; eauto.
    + eapply IH2; [done|]. right. eapply IH1; eauto.
  - destruct Hb as [Hb|Hb].
    + apply andb_true_iff in Hb as [Hb1 Hb2]. destruct H; [eapply IH1|eapply IH2]; eauto.
    + destruct H; [eapply IH1|eapply IH2]; eauto.
  - destruct H as (cs1 & M & ->). simpl.
    destruct (Nat.eqb m n) eqn:Hm; [by eexists|].
    simpl in Hb. eapply IH1; eauto.
  - destruct H as (_ & _ & ->). by destruct Hb.
  - destruct H as (_ & _ & ->). by destruct Hb.
Qed.

(** The text of a group that always takes part is matched by one of
    the bodies of that group. *)
Lemma match_here_group f n r prev s s' cs :
  match_here f r prev s = Some (s', cs) →
  always_binds n r = true →
  ∃ r1 prev1 rest1 csa csb,
    r1 ∈ group_bodies n r
    ∧ matches f r1 prev1 (group n cs) rest1 csa csb.
Proof.
  intros H Hb. apply match_here_sound in H as (w & -> & M).
  destruct (matches_binds f n r _ _ _ _ _ M (or_introl Hb)) as [g Hg].
  destruct (matches_group f n r _ _ _ _ _ M)
    as [E|(r1 & p1 & w1 & rest1 & ca & cb & Hin & M1 & E)].
  - rewrite Hg in E. done.
  - exists r1, p1, rest1, ca, cb. unfold group. rewrite E. done.
Qed.

(** ** Every result of a scan is a match at some cursor *)

Lemma finditer_from_sound f r cs : ∀ s prev skip,
  cs ∈ finditer_from f r prev s skip →
  ∃ prev' s1 s2, match_here f r prev' s1 = Some (s2, cs).
Proof.
  induction s as [|c s IH]; intros prev skip H.
  - destruct skip; simpl in H; [|by apply elem_of_nil in H].
    destruct (match_here f r prev EmptyString) as [[s' cs']|] eqn:Hm;
      [|by apply elem_of_nil in H].
    apply list_elem_of_singleton in H as ->. eauto.
  - destruct skip; simpl in H; [|by eapply IH].
    destruct (match_here f r prev (String c s)) as [[s' cs']|] eqn:Hm.
    + apply elem_of_cons in H as [->|H]; [eauto|]. by eapply IH.
    + by eapply IH.
Qed.

Lemma search_from_sound f r cs : ∀ s prev,
  search_from f r prev s = Some cs →
  ∃ prev' s1 s2, match_here f r prev' s1 = Some (s2, cs).
Proof.
  induction s as [|c s IH]; intros prev H; simpl in H.
  - destruct (match_here f r prev EmptyString) as [[s' cs']|] eqn:Hm; [|done].
    injection H as ->. eauto.
  - destruct (match_here f r prev (String c s)) as [[s' cs']|] eqn:Hm.
    + injection H as ->. eauto.
    + by eapply IH.
Qed.

(** ** The collecting loops, as lists *)

(** Runs the monadic steps that are known. *)
Ltac run_m :=
  unfold mbind, M_bind, mret, M_ret, Py.bind, Py.ret, Py.raise, lift,
    try_except, print, eprint; simpl.

Section Collect.

Lemma fold_append {A B} (g : A → B) (l : list A) : ∀ acc,
  fold_left (λ acc x, acc ++ [g x]) l acc = acc ++ (g <$> l).
Proof.
  induction l as [|x l IH]; intros acc; simpl.
  - by rewrite app_nil_r.
  - rewrite IH. by rewrite <- app_assoc.
Qed.

Lemma append_matches_spec f r doc content ids :
  append_matches f r doc content ids = ids ++ pattern_refs f r doc content.
Proof. unfold append_matches, pattern_refs. apply fold_append. Qed.

Lemma append_items_spec (doc : Path) (items : list string) : ∀ ids,
  fold_left (λ (ids : list Reference) item,
      let item := clean_item item in
      if negb (String.eqb item EmptyString) then ids ++ [(doc, item)]
      else ids) items ids
  = ids ++ ((λ item, (doc, item))
            <$> filter (λ item, item ≠ EmptyString) (clean_item <$> items)).
Proof.
  induction items as [|x items IH]; intros ids; simpl.
  - by rewrite app_nil_r.
  - rewrite IH. rewrite filter_cons.
    destruct (String.eqb_spec (clean_item x) EmptyString) as [E|E]; simpl.
    + rewrite decide_False by (intros ?; congruence). done.
    + rewrite decide_True by done. simpl. by rewrite <- app_assoc.
Qed.

Lemma append_inline_items_spec doc content ids :
  append_inline_items doc content ids = ids ++ inline_refs doc content.
Proof.
  unfold append_inline_items, inline_refs.
  generalize (finditer no_flags from_catalog_re content) as ms.
  intros ms. revert ids.
  induction ms as [|m ms IH]; intros ids; simpl.
  - by rewrite app_nil_r.
  - rewrite append_items_spec, IH. unfold inline_items.
    by rewrite <- app_assoc.
Qed.

Lemma scan_manifest_spec doc content ids :
  scan_manifest doc content ids = ids ++ manifest_doc_refs doc content.
Proof.
  unfold scan_manifest, manifest_doc_refs.
  rewrite append_inline_items_spec, !append_matches_spec.
  by rewrite <- !app_assoc.
Qed.

Lemma scan_plan_spec doc content ids :
  scan_plan doc content ids = ids ++ plan_doc_refs doc content.
Proof. apply append_matches_spec. Qed.

(** One round never raises, appends the references of the document
    and leaves the standard output alone. *)
Lemma scan_document_spec scan per_doc ids f c :
  (∀ doc content ids, scan doc content ids = ids ++ per_doc doc content) →
  ∃ c', scan_document scan ids f c = (Return (ids ++ refs_of per_doc f), c')
        ∧ stdout c' = stdout c.
Proof.
  intros Hscan. destruct f as [doc [content|e]]; unfold refs_of; simpl; run_m.
  - exists c. by rewrite Hscan.
  - eexists. rewrite app_nil_r. split; [reflexivity|]. done.
Qed.

Lemma scan_loop_spec scan per_doc (fs : list (Path * outcome string)) :
  (∀ doc content ids, scan doc content ids = ids ++ per_doc doc content) →
  ∀ ids c,
  ∃ c', for_ fs (scan_document scan) ids c
        = (Return (ids ++ (f ← fs; refs_of per_doc f)), c')
        ∧ stdout c' = stdout c.
Proof.
  intros Hscan. induction fs as [|f fs IH]; intros ids c; simpl.
  - exists c. by rewrite app_nil_r.
  - destruct (scan_document_spec scan per_doc ids f c Hscan) as (c1 & E1 & O1).
    unfold Py.bind. rewrite E1.
    destruct (IH (ids ++ refs_of per_doc f) c1) as (c2 & E2 & O2).
    exists c2. rewrite E2, <- app_assoc. split; [done|]. congruence.
Qed.

Lemma collect_manifests_spec manifests_dir d c :
  ∃ c', collect_used_pattern_ids_from_manifests manifests_dir d c
        = (Return (manifest_refs manifests_dir d), c')
        ∧ stdout c' = stdout c.
Proof.
  unfold collect_used_pattern_ids_from_manifests, manifest_refs.
  destruct d as [entries|]; [|by exists c].
  destruct (scan_loop_spec scan_manifest manifest_doc_refs
              (rglob "*.yaml" manifests_dir entries) scan_manifest_spec [] c)
    as (c' & E & O).
  exists c'. by rewrite E.
Qed.

(** The validation loop is a filter. *)
Lemma find_errors_filter used valid :
  find_errors used valid = filter (λ r, r.2 ∉ valid) used.
Proof.
  unfold find_errors.
  enough (∀ acc,
    fold_left (λ errors '(source_file, pid),
        if bool_decide (pid ∉ valid)
        then errors ++ [(source_file, pid)] else errors) used acc
    = acc ++ filter (λ r : Reference, r.2 ∉ valid) used) as H by apply H.
  induction used as [|[src pid] used IH]; intros acc; simpl.
  - by rewrite app_nil_r.
  - rewrite IH, filter_cons. simpl.
    destruct (decide (pid ∉ valid)) as [Hn|Hn].
    + rewrite bool_decide_eq_true_2 by done. by rewrite <- app_assoc.
    + rewrite bool_decide_eq_false_2 by done. done.
Qed.

End Collect.

(** ** Running [main] *)

Section RunMain.

Lemma print_each_run {A} (xs : list A) (fmt : A → string) : ∀ c,
  print_each xs fmt c
  = (Return tt, Console (stdout c ++ (fmt <$> xs)) (stderr c)).
Proof.
  unfold print_each. induction xs as [|x xs IH]; intros [out err]; simpl.
  - by rewrite app_nil_r.
  - run_m. unfold print_each in IH. rewrite IH. simpl.
    by rewrite <- app_assoc.
Qed.

Lemma quiet_lift {A} (o : outcome A) : quiet (lift o).
Proof. by intros c. Qed.

Lemma quiet_ret {A} (a : A) : quiet (mret a).
Proof. by intros c. Qed.

Lemma quiet_bind {A B} (m : M A) (g : A → M B) :
  quiet m → (∀ a, quiet (g a)) → quiet (m ≫= g).
Proof.
  intros Hm Hg c. run_m. specialize (Hm c).
  destruct (m c) as [[a|e] c'] eqn:E; simpl in *; subst; [apply Hg|done].
Qed.

Lemma quiet_for {A S} (xs : list A) (body : S → A → M S) :
  (∀ s x, quiet (body s x)) → ∀ s, quiet (for_ xs body s).
Proof.
  intros Hb. induction xs as [|x xs IH]; intros s; simpl.
  - apply quiet_ret.
  - apply (quiet_bind (body s x) (for_ xs body)); auto.
Qed.

Lemma quiet_add_entry_ids ids entries : quiet (add_entry_ids ids entries).
Proof.
  unfold add_entry_ids. apply quiet_bind; [apply quiet_lift|]. intros ps.
  apply quiet_for. intros s p. apply quiet_bind; [apply quiet_lift|].
  intros pid. destruct (truthy pid); [apply quiet_lift|apply quiet_ret].
Qed.

Lemma quiet_load_index ids loaded : quiet (load_index ids loaded).
Proof.
  unfold load_index.
  repeat (apply quiet_bind; [first [apply quiet_lift|apply quiet_add_entry_ids]|intros ?]).
  apply quiet_for. intros s category.
  apply quiet_bind; [|intros ?; apply quiet_add_entry_ids].
  destruct (is_dict category); [apply quiet_lift|apply quiet_ret].
Qed.

Lemma quiet_load_entry ids f : quiet (load_entry ids f).
Proof.
  destruct f as [p [content|e]]; intros c; unfold load_entry; run_m; [|done].
  by destruct (declared_id content).
Qed.

Lemma is_relative_to_app (root p : Path) : is_relative_to (root ++ p) root = true.
Proof.
  induction root as [|x root IH]; simpl; [done|].
  by rewrite String.eqb_refl, IH.
Qed.

Lemma rel_path_app (root p : Path) : rel_path root (root ++ p) = p.
Proof.
  unfold rel_path, relative_to. rewrite is_relative_to_app.
  by rewrite drop_app_length.
Qed.

Lemma relative_to_app (root p : Path) : relative_to (root ++ p) root = p.
Proof. unfold relative_to. by rewrite drop_app_length. Qed.

(** Every collected reference names a document below the root. *)
Lemma rglob_under pat d entries f :
  f ∈ rglob pat d entries → ∃ e, e ∈ entries ∧ f = (d ++ rel e, text e)
                                 ∧ fnmatch pat (name (rel e)) = true.
Proof.
  unfold rglob. intros H. apply list_elem_of_fmap in H as (e & -> & He).
  apply list_elem_of_filter in He as [Hm He]. eauto.
Qed.

Lemma pattern_refs_doc f r doc content x :
  x ∈ pattern_refs f r doc content → x.1 = doc.
Proof.
  unfold pattern_refs. intros H. by apply list_elem_of_fmap in H as (m & -> & _).
Qed.

Lemma manifest_doc_refs_doc doc content x :
  x ∈ manifest_doc_refs doc content → x.1 = doc.
Proof.
  unfold manifest_doc_refs. rewrite !elem_of_app.
  intros [H|[H|[H|H]]]; try by eapply pattern_refs_doc.
  unfold inline_refs in H. apply list_elem_of_bind in H as (m & H & _).
  by apply list_elem_of_fmap in H as (i & -> & _).
Qed.

Lemma collected_under_root fs x :
  x ∈ collected fs →
  ∃ top p, x.1 = project_root fs ++ top :: p
           ∧ (top = "manifests" ∨ top = "specs").
Proof.
  unfold collected, manifest_refs, plan_refs. rewrite elem_of_app.
  intros [H|H].
  - destruct (manifests_tree fs) as [entries|]; [|by apply elem_of_nil in H].
    apply list_elem_of_bind in H as (f & H & Hf).
    apply rglob_under in Hf as (e & _ & -> & _).
    unfold refs_of in H. simpl in H. destruct (text e); [|by apply elem_of_nil in H].
    apply manifest_doc_refs_doc in H. exists "manifests", (rel e).
    split; [|auto]. etrans; [exact H|]. unfold child. by rewrite <- app_assoc.
  - destruct (specs_tree fs) as [entries|]; [|by apply elem_of_nil in H].
    apply list_elem_of_bind in H as (f & H & Hf).
    apply rglob_under in Hf as (e & _ & -> & _).
    unfold refs_of in H. simpl in H. destruct (text e); [|by apply elem_of_nil in H].
    apply pattern_refs_doc in H. exists "specs", (rel e).
    split; [|auto]. etrans; [exact H|]. unfold child. by rewrite <- app_assoc.
Qed.

End RunMain.

(** ** Sorting does away with the order of iteration *)

Section Sorted.

Global Instance fval_le_total : Total fval_le.
Proof.
  intros [|p|] [|q|]; simpl; auto. apply (total Qcle).
Qed.

Global Instance fval_le_trans : Transitive fval_le.
Proof.
  intros [|p|] [|q|] [|r|]; simpl; try done. apply Qcle_trans.
Qed.

Global Instance fval_le_antisym : AntiSymm (=) fval_le.
Proof.
  intros [|p|] [|q|]; simpl; try done. intros H1 H2. f_equal.
  by apply Qcle_antisym.
Qed.

Global Instance num_le_total : Total num_le.
Proof. intros n m. apply (total fval_le). Qed.

Global Instance num_le_trans : Transitive num_le.
Proof. intros n m k. apply (transitivity (R:=fval_le)). Qed.

Lemma strings_of_perm (l1 l2 : list pyval) :
  l1 ≡ₚ l2 → strings_of l1 ≡ₚ strings_of l2.
Proof. intros H. unfold strings_of. by rewrite H. Qed.

Lemma numbers_of_perm (l1 l2 : list pyval) :
  l1 ≡ₚ l2 → numbers_of l1 ≡ₚ numbers_of l2.
Proof. intros H. unfold numbers_of. by rewrite H. Qed.

Lemma strings_of_strs (l : list string) : strings_of (VStr <$> l) = l.
Proof.
  unfold strings_of. induction l as [|x l IH]; [done|]. csimpl. by f_equal.
Qed.

Lemma strings_of_nums (l : list number) : strings_of (VNum <$> l) = [].
Proof. by induction l. Qed.

Lemma numbers_of_strs (l : list string) : numbers_of (VStr <$> l) = [].
Proof. by induction l. Qed.

Lemma numbers_of_nums (l : list number) : numbers_of (VNum <$> l) = l.
Proof.
  unfold numbers_of. induction l as [|x l IH]; [done|]. csimpl. by f_equal.
Qed.

Lemma strings_of_elements (s : idset) :
  strings_of (elements s) = elements (strs s).
Proof.
  unfold elements at 1, idset_elements. unfold strings_of at 1.
  rewrite omap_app. fold (strings_of (VStr <$> elements (strs s))).
  fold (strings_of (VNum <$> nums s)).
  by rewrite strings_of_strs, strings_of_nums, app_nil_r.
Qed.

Lemma numbers_of_elements (s : idset) : numbers_of (elements s) = nums s.
Proof.
  unfold elements at 1, idset_elements. unfold numbers_of at 1.
  rewrite omap_app. fold (numbers_of (VStr <$> elements (strs s))).
  fold (numbers_of (VNum <$> nums s)).
  by rewrite numbers_of_strs, numbers_of_nums.
Qed.

Lemma str_sort_unique (l1 l2 : list string) :
  l1 ≡ₚ l2 → merge_sort String.le l1 = merge_sort String.le l2.
Proof.
  intros H. apply (Sorted_unique String.le);
    try apply (Sorted_merge_sort String.le).
  by rewrite !merge_sort_Permutation.
Qed.

(** Numbers of different values are sorted in one way only. *)
Lemma num_sort_unique (l1 l2 : list number) :
  l1 ≡ₚ l2 → NoDup (value <$> l1) →
  merge_sort num_le l1 = merge_sort num_le l2.
Proof.
  intros H Hnd.
  apply (Sorted_unique_strong num_le);
    try apply (Sorted_merge_sort num_le).
  - intros x1 x2 H1 H2 Hle1 Hle2.
    rewrite merge_sort_Permutation in H1, H2. rewrite <- H in H2.
    assert (value x1 = value x2) as Hv by (by apply (anti_symm fval_le)).
    apply list_elem_of_lookup in H1 as [i Hi], H2 as [j Hj].
    assert (i = j) as ->.
    { apply (NoDup_lookup (value <$> l1) i j (value x1)); [done|..];
        rewrite list_lookup_fmap; [by rewrite Hi|by rewrite Hj, Hv]. }
    congruence.
  - by rewrite !merge_sort_Permutation.
Qed.

(** [sorted] does not depend on the order of its argument, for the
    members of a set. *)
Lemma sorted_unique (l1 l2 : list pyval) :
  l1 ≡ₚ l2 → NoDup (value <$> numbers_of l1) → sorted l1 = sorted l2.
Proof.
  intros H Hnd. unfold sorted.
  pose proof (strings_of_perm _ _ H) as Hs.
  pose proof (numbers_of_perm _ _ H) as Hn.
  destruct (strings_of l1) as [|s1 ss1], (strings_of l2) as [|s2 ss2];
    try (by apply Permutation_nil_l in Hs);
    try (by apply Permutation_nil_r in Hs);
    destruct (numbers_of l1) as [|n1 ns1], (numbers_of l2) as [|n2 ns2];
    try (by apply Permutation_nil_l in Hn);
    try (by apply Permutation_nil_r in Hn);
    try done.
  - by rewrite (num_sort_unique _ _ Hn).
  - by rewrite (str_sort_unique _ _ Hs).
Qed.

Lemma sorted_iter (set_iter : idset → list pyval) (s : idset) :
  (∀ s, set_iter s ≡ₚ elements s) → distinct s →
  sorted (set_iter s) = sorted (elements s).
Proof.
  intros H Hd. apply sorted_unique; [apply H|].
  rewrite (numbers_of_perm _ _ (H s)), numbers_of_elements. exact Hd.
Qed.

Lemma pyval_split (l : list pyval) :
  l ≡ₚ (VStr <$> strings_of l) ++ (VNum <$> numbers_of l).
Proof.
  unfold strings_of, numbers_of.
  induction l as [|[s|n] l IH]; csimpl; [done|by apply Permutation_skip|].
  rewrite <- Permutation_middle. by apply Permutation_skip.
Qed.

(** [sorted] raises on a set that holds strings and numbers, and on
    no other. *)
Lemma sorted_mixed (set_iter : idset → list pyval) (s : idset) :
  (∀ s, set_iter s ≡ₚ elements s) →
  if mixed s then sorted (set_iter s) = Raise TypeError
  else ∃ ids, sorted (set_iter s) = Return ids ∧ ids ≡ₚ elements s.
Proof.
  intros H.
  pose proof (strings_of_perm _ _ (H s)) as Hs.
  pose proof (numbers_of_perm _ _ (H s)) as Hn.
  rewrite strings_of_elements in Hs. rewrite numbers_of_elements in Hn.
  pose proof (pyval_split (set_iter s)) as Hsplit.
  unfold mixed, sorted.
  destruct (strings_of (set_iter s)) as [|s1 ss1];
    destruct (numbers_of (set_iter s)) as [|n1 ns1].
  - apply Permutation_nil_l in Hn.
    rewrite (bool_decide_eq_false_2 (nums s ≠ [])) by (by intros Hn'; apply Hn').
    rewrite andb_false_r. eexists. split; [done|].
    by rewrite merge_sort_Permutation, <- (H s), Hsplit.
  - apply Permutation_nil_l in Hs. symmetry in Hs.
    apply elements_empty_inv, leibniz_equiv in Hs.
    rewrite (bool_decide_eq_false_2 (strs s ≠ ∅)) by (by intros Hn'; apply Hn').
    simpl. eexists. split; [done|].
    by rewrite merge_sort_Permutation, <- (H s), Hsplit.
  - apply Permutation_nil_l in Hn.
    rewrite (bool_decide_eq_false_2 (nums s ≠ [])) by (by intros Hn'; apply Hn').
    rewrite andb_false_r. eexists. split; [done|].
    rewrite merge_sort_Permutation, <- (H s), Hsplit. csimpl.
    by rewrite app_nil_r.
  - rewrite !bool_decide_eq_true_2; [done|..].
    + intros E. rewrite E in Hn. by apply Permutation_nil_r in Hn.
    + intros E. rewrite E, elements_empty in Hs.
      by apply Permutation_nil_r in Hs.
Qed.

End Sorted.

(** The failure branch, with the paths shown below the root. *)
Lemma failure_report_spec fs (used : list Reference) f fs' ids :
  (∀ r, r ∈ f :: fs' → r ∈ collected fs) →
  failure_report (project_root fs) (f :: fs') ids (List.length ids)
  = report (project_root fs) used (f :: fs') ids.
Proof.
  intros Hsub. unfold failure_report, report, preview.
  f_equal. f_equal.
  apply list_fmap_ext. intros i [src pid] Hin.
  apply list_elem_of_lookup_2, Hsub in Hin.
  apply collected_under_root in Hin as (top & p & Hsrc & _). simpl in Hsrc.
  unfold failure_line. simpl. rewrite Hsrc, rel_path_app, relative_to_app. done.
Qed.

(** ** What the loader returns *)

Section Loader.

Lemma return_eq {A} (a b : A) (c : console) :
  a = b → (Return a, c) = (Return b, c).
Proof. by intros ->. Qed.

Lemma idset_eq (a b : idset) : strs a = strs b → nums a = nums b → a = b.
Proof. destruct a, b; simpl. by intros -> ->. Qed.

Lemma elem_of_idset (s : string) (ids : idset) : s ∈ ids ↔ s ∈ strs ids.
Proof. done. Qed.

Lemma add_nums_app (ns l1 l2 : list number) :
  add_nums ns (l1 ++ l2) = add_nums (add_nums ns l1) l2.
Proof. apply fold_left_app. Qed.

Lemma extend_nil (ids : idset) : extend ids [] [] = ids.
Proof. apply idset_eq; simpl; [set_solver|done]. Qed.

Lemma extend_extend (ids : idset) s1 n1 s2 n2 :
  extend (extend ids s1 n1) s2 n2 = extend ids (s1 ++ s2) (n1 ++ n2).
Proof. apply idset_eq; simpl; [set_solver|by rewrite add_nums_app]. Qed.

Lemma add_str_extend (s : string) (ids : idset) : add_str s ids = extend ids [s] [].
Proof. apply idset_eq; simpl; [set_solver|done]. Qed.

Lemma add_num_extend (n : number) (ids : idset) : add_num n ids = extend ids [] [n].
Proof. apply idset_eq; simpl; [set_solver|done]. Qed.

(** Adding numbers keeps their values apart. *)
Lemma add_nums_distinct (l : list number) : ∀ ns,
  NoDup (value <$> ns) → NoDup (value <$> add_nums ns l).
Proof.
  unfold add_nums.
  induction l as [|n l IH]; intros ns Hns; simpl; [done|].
  apply IH. case_bool_decide as Hin; [done|].
  rewrite fmap_app. simpl. apply NoDup_app. split; [done|]. split.
  - intros x Hx ->%list_elem_of_singleton. by apply Hin.
  - apply NoDup_singleton.
Qed.

Lemma entry_step_spec (ids : idset) (p : json) c ids' c' :
  (pid ← lift (py_get p "id" JNull);
   if truthy pid then lift (set_add ids pid) else mret ids) c
  = (Return ids', c') →
  ids' = extend ids (option_list (entry_id p)) (option_list (entry_num p)).
Proof.
  run_m. destruct p as [|b|z|v sh|s|l|ms]; simpl; try done.
  unfold entry_id, entry_num.
  destruct (dict_get "id" ms) as [[|b|z|v sh|s|l|ms']|]; csimpl.
  - intros [= <- _]. by rewrite extend_nil.
  - replace (num_truthy (NBool b)) with b by (by destruct b).
    destruct b; simpl; intros [= <- _];
      [apply add_num_extend|by rewrite extend_nil].
  - destruct (num_truthy (NInt z)); simpl; intros [= <- _];
      [apply add_num_extend|by rewrite extend_nil].
  - destruct (num_truthy (NFloat v sh)); simpl; intros [= <- _];
      [apply add_num_extend|by rewrite extend_nil].
  - destruct (String.eqb s EmptyString); simpl; intros [= <- _];
      [by rewrite extend_nil|apply add_str_extend].
  - destruct (negb _); simpl; [done|]. intros [= <- _]. by rewrite extend_nil.
  - destruct (negb _); simpl; [done|]. intros [= <- _]. by rewrite extend_nil.
  - intros [= <- _]. by rewrite extend_nil.
Qed.

Lemma entry_loop_spec (ps : list json) : ∀ (ids : idset) c ids' c',
  for_ ps (λ ids p,
    pid ← lift (py_get p "id" JNull);
    if truthy pid then lift (set_add ids pid) else mret ids) ids c
  = (Return ids', c') →
  ids' = extend ids (omap entry_id ps) (omap entry_num ps).
Proof.
  induction ps as [|p ps IH]; intros ids c ids' c'; simpl.
  - intros [= <- _]. by rewrite extend_nil.
  - unfold Py.bind at 1.
    destruct ((pid ← lift (py_get p "id" JNull);
               if truthy pid then lift (set_add ids pid) else mret ids) c)
      as [[ids1|e] c1] eqn:E1; [|done].
    apply entry_step_spec in E1 as ->. intros H. apply IH in H as ->.
    rewrite extend_extend.
    by destruct (entry_id p), (entry_num p).
Qed.

Lemma add_entry_ids_spec (ids : idset) (ms : list (string * json))
    c ids' c' :
  add_entry_ids ids (default (JArr []) (dict_get "patterns" ms)) c
  = (Return ids', c') →
  ids' = extend ids (entry_ids ms) (entry_nums ms).
Proof.
  unfold add_entry_ids, entry_ids, entry_nums, entries_of.
  unfold mbind at 1, M_bind, Py.bind at 1, lift.
  destruct (py_iter (default (JArr []) (dict_get "patterns" ms))) as [ps|e];
    [|done].
  apply entry_loop_spec.
Qed.

Lemma group_loop_spec (groups : list json) : ∀ (ids : idset) c ids' c',
  for_ groups (λ ids category,
    entries ← (if is_dict category
               then lift (py_get category "patterns" (JArr []))
               else mret (JArr []));
    add_entry_ids ids entries) ids c
  = (Return ids', c') →
  ids' = extend ids
           (g ← groups; match g with JObj ms => entry_ids ms | _ => [] end)
           (g ← groups; match g with JObj ms => entry_nums ms | _ => [] end).
Proof.
  induction groups as [|g groups IH]; intros ids c ids' c'; simpl.
  - intros [= <- _]. by rewrite extend_nil.
  - unfold Py.bind at 1.
    match goal with
    | |- context [match ?step c with _ => _ end] =>
        destruct (step c) as [[ids1|e] c1] eqn:E1; [|done]
    end.
    intros H. apply IH in H as ->.
    assert (ids1 = extend ids
               (match g with JObj ms => entry_ids ms | _ => [] end)
               (match g with JObj ms => entry_nums ms | _ => [] end)) as ->.
    { destruct g as [|b|z|v sh|s|l|ms]; simpl in E1;
        try (revert E1; unfold add_entry_ids; run_m; intros [= <- _];
             by rewrite extend_nil).
      revert E1. unfold mbind at 1, M_bind, Py.bind at 1, lift, py_get.
      apply add_entry_ids_spec. }
    by rewrite extend_extend.
Qed.

(** The index, once read and parsed, contributes its two streams or
    makes the loader raise. *)
Lemma load_index_spec (ids : idset) (data : json) c ids' c' :
  load_index ids (Return data) c = (Return ids', c') →
  ∃ ms, data = JObj ms
    ∧ ids' = extend ids
               (entry_ids ms
                ++ match dict_get "categories" ms with
                   | Some (JObj groups) =>
                       g ← dict_values groups;
                       match g with JObj gs => entry_ids gs | _ => [] end
                   | _ => []
                   end)
               (entry_nums ms
                ++ match dict_get "categories" ms with
                   | Some (JObj groups) =>
                       g ← dict_values groups;
                       match g with JObj gs => entry_nums gs | _ => [] end
                   | _ => []
                   end).
Proof.
  unfold load_index. unfold mbind at 1 2, M_bind, Py.bind at 1 2, lift at 1 2.
  destruct data as [|b|z|v sh|s|l|ms]; simpl; try done.
  intros H. exists ms. split; [done|]. revert H.
  unfold mbind at 1, M_bind, Py.bind at 1.
  destruct (add_entry_ids ids (default (JArr []) (dict_get "patterns" ms)) c)
    as [[ids1|e] c1] eqn:E1; [|done].
  apply add_entry_ids_spec in E1 as ->.
  unfold mbind at 1 2, Py.bind at 1 2, lift at 1 2. simpl.
  rewrite <- extend_extend.
  destruct (dict_get "categories" ms) as [[|b|z|v sh|s|l|groups]|]; simpl;
    try (destruct (negb _); simpl; [done|]);
    try (destruct b; simpl; try done);
    try (destruct (num_truthy _); simpl; try done);
    try (destruct groups as [|g0 groups]; simpl);
    intros H;
    first [ injection H as <- _; by rewrite extend_nil
          | by apply group_loop_spec in H as -> ].
Qed.

Lemma load_entry_spec (ids : idset) (f : Path * outcome string) c :
  load_entry ids f c
  = (Return (extend ids (stem f.1 :: option_list (file_declared f)) []), c).
Proof.
  destruct f as [p [content|e]]; unfold load_entry, file_declared; run_m.
  - destruct (declared_id content); simpl; apply return_eq;
      apply idset_eq; simpl; set_solver.
  - apply return_eq. apply idset_eq; simpl; set_solver.
Qed.

Lemma entry_files_loop_spec (files : list (Path * outcome string)) :
  ∀ (ids : idset) c,
  for_ files load_entry ids c
  = (Return (extend ids (((λ f, stem f.1) <$> files) ++ omap file_declared files) []),
     c).
Proof.
  induction files as [|f files IH]; intros ids c; simpl.
  - run_m. apply return_eq. by rewrite extend_nil.
  - unfold Py.bind. rewrite load_entry_spec, IH. apply return_eq.
    rewrite extend_extend. apply idset_eq; simpl; [|done].
    destruct (file_declared f); simpl; set_solver.
Qed.

Lemma raises_only_bind {A B} P (m : M A) (g : A → M B) :
  raises_only P m → (∀ a, raises_only P (g a)) → raises_only P (m ≫= g).
Proof.
  intros Hm Hg c e c'. unfold mbind, M_bind, Py.bind.
  destruct (m c) as [[a|e1] c1] eqn:E.
  - apply Hg.
  - intros [= <- _]. eapply Hm, E.
Qed.

Lemma raises_only_ret {A} P (a : A) : raises_only P (mret a).
Proof. intros c e c'. run_m. done. Qed.

Lemma raises_only_for {A S} P (xs : list A) (body : S → A → M S) :
  (∀ s x, raises_only P (body s x)) → ∀ s, raises_only P (for_ xs body s).
Proof.
  intros Hb. induction xs as [|x xs IH]; intros s; simpl.
  - apply raises_only_ret.
  - apply (raises_only_bind P (body s x) (for_ xs body)); auto.
Qed.

Lemma py_get_fault v key dflt : raises_only is_shape_fault (lift (py_get v key dflt)).
Proof. intros c e c'. unfold lift. destruct v; simpl; intros [= <- _]; by left. Qed.

Lemma py_iter_fault v : raises_only is_shape_fault (lift (py_iter v)).
Proof. intros c e c'. unfold lift. destruct v; simpl; intros [= <- _]; by right. Qed.

Lemma py_values_fault v : raises_only is_shape_fault (lift (py_values v)).
Proof. intros c e c'. unfold lift. destruct v; simpl; intros [= <- _]; by left. Qed.

Lemma set_add_fault ids v : raises_only is_shape_fault (lift (set_add ids v)).
Proof. intros c e c'. unfold lift. destruct v; simpl; intros [= <- _]; by right. Qed.

Lemma add_entry_ids_fault ids entries :
  raises_only is_shape_fault (add_entry_ids ids entries).
Proof.
  unfold add_entry_ids. apply raises_only_bind; [apply py_iter_fault|].
  intros ps. apply raises_only_for. intros s p.
  apply raises_only_bind; [apply py_get_fault|]. intros pid.
  destruct (truthy pid); [apply set_add_fault|apply raises_only_ret].
Qed.

(** A parsed index makes the loader raise only by its shape. *)
Lemma load_index_fault ids data :
  raises_only is_shape_fault (load_index ids (Return data)).
Proof.
  unfold load_index.
  apply raises_only_bind; [by intros c e c'|]. intros d.
  apply raises_only_bind; [apply py_get_fault|]. intros top.
  apply raises_only_bind; [apply add_entry_ids_fault|]. intros ids1.
  apply raises_only_bind; [apply py_get_fault|]. intros cats.
  apply raises_only_bind; [apply py_values_fault|]. intros groups.
  apply raises_only_for. intros s category.
  apply raises_only_bind; [|intros ?; apply add_entry_ids_fault].
  destruct (is_dict category); [apply py_get_fault|apply raises_only_ret].
Qed.

(** When the loader returns, it returns the union of the four streams,
    and the numbers of the index. *)
Lemma load_valid_pattern_ids_union catalog_dir cat c valid c' :
  load_valid_pattern_ids catalog_dir cat c = (Return valid, c') →
  valid = IdSet (list_to_set (top_level_ids cat)
                 ∪ list_to_set (category_ids cat)
                 ∪ list_to_set (base_names catalog_dir cat)
                 ∪ list_to_set (declared_ids catalog_dir cat))
                (add_nums [] (index_nums cat)).
Proof.
  unfold load_valid_pattern_ids, top_level_ids, category_ids, index_nums,
    base_names, declared_ids, entry_files, index_members.
  unfold mbind at 1, M_bind, Py.bind at 1.
  assert (∀ (ids : idset) c1,
    match patterns cat with
    | Some entries =>
        for_ (rglob "*.yaml" (child catalog_dir "patterns") entries) load_entry ids
    | None => mret ids
    end c1
    = (Return (extend ids
                 (((λ f, stem f.1) <$>
                    match patterns cat with
                    | Some entries => rglob "*.yaml" (child catalog_dir "patterns") entries
                    | None => []
                    end)
                  ++ omap file_declared
                    match patterns cat with
                    | Some entries => rglob "*.yaml" (child catalog_dir "patterns") entries
                    | None => []
                    end) []), c1)) as Hp.
  { intros ids c1. destruct (patterns cat) as [entries|].
    - apply entry_files_loop_spec.
    - run_m. apply return_eq. by rewrite extend_nil. }
  destruct (index_json cat) as [[data|e]|].
  - unfold try_except.
    destruct (load_index ∅ (Return data) c) as [[ids|e] c1] eqn:E1.
    + apply load_index_spec in E1 as (ms & -> & ->).
      rewrite Hp. intros [= <- _]. rewrite extend_extend, app_nil_r.
      apply idset_eq; simpl; [|done].
      rewrite !list_to_set_app_L. set_solver.
    + destruct (is_json_or_key_error e) eqn:He; [|done].
      apply load_index_fault in E1 as [-> | ->]; done.
  - unfold load_index, try_except. run_m.
    destruct (is_json_or_key_error e); [|done].
    simpl. rewrite Hp. intros [= <- _].
    apply idset_eq; simpl; [|done].
    unfold entry_ids, entries_of. simpl. rewrite !list_to_set_app_L. set_solver.
  - run_m. rewrite Hp. intros [= <- _].
    apply idset_eq; simpl; [|done].
    unfold entry_ids, entries_of. simpl. rewrite !list_to_set_app_L. set_solver.
Qed.

(** The numbers of a loaded set have values apart from each other. *)
Lemma loaded_distinct catalog_dir cat c valid c' :
  load_valid_pattern_ids catalog_dir cat c = (Return valid, c') →
  distinct valid.
Proof.
  intros ->%load_valid_pattern_ids_union. unfold distinct. simpl.
  apply add_nums_distinct. constructor.
Qed.

End Loader.

(** ** The identifiers the patterns capture *)

Section Captured.

(** Group 1 of a pattern whose only group 1 is [[a-z0-9-]+]. *)
Lemma group_one_ident f r prev s s' cs :
  match_here f r prev s = Some (s', cs) →
  always_binds 1 r = true →
  group_bodies 1 r = [Plus ident_char] →
  group 1 cs ≠ EmptyString
  ∧ str_forall (one_ok f ident_char) (group 1 cs) = true.
Proof.
  intros Hm Hb Hg.
  destruct (match_here_group f 1 r prev s s' cs Hm Hb)
    as (r1 & p1 & rest1 & ca & cb & Hin & M).
  rewrite Hg in Hin. apply list_elem_of_singleton in Hin as ->.
  simpl in M. tauto.
Qed.

Lemma ident_case_sensitive (f : flags) (w : string) :
  ignorecase f = false →
  str_forall (one_ok f ident_char) w = str_forall is_ident_char w.
Proof.
  intros Hf. induction w as [|c w IH]; simpl; [done|].
  rewrite IH. f_equal. unfold is_ident_char, one_ok, ident_char, fold_case.
  by rewrite Hf.
Qed.

Lemma ident_ignore_case (f : flags) (w : string) :
  ignorecase f = true →
  str_forall (one_ok f ident_char) w
  = str_forall (λ c, is_ident_char (lower c)) w.
Proof.
  intros Hf. induction w as [|c w IH]; simpl; [done|].
  rewrite IH. f_equal. unfold is_ident_char, one_ok, ident_char, fold_case.
  by rewrite Hf.
Qed.

Lemma is_identifier_intro (w : string) :
  w ≠ EmptyString → str_forall is_ident_char w = true → is_identifier w = true.
Proof.
  intros Hne Hall. unfold is_identifier. rewrite Hall, andb_true_r.
  apply negb_true_iff, String.eqb_neq, Hne.
Qed.

Lemma is_identifier_nonempty (w : string) :
  is_identifier w = true → w ≠ EmptyString.
Proof.
  unfold is_identifier. intros H ->. done.
Qed.

Lemma line_pattern_ident r prev s s' cs :
  line_pattern r →
  match_here MULTILINE r prev s = Some (s', cs) →
  is_identifier (group 1 cs) = true.
Proof.
  intros Hr Hm.
  assert (always_binds 1 r = true ∧ group_bodies 1 r = [Plus ident_char])
    as [Hb Hg] by (destruct Hr as [->|[->|[->| ->]]]; split; reflexivity).
  destruct (group_one_ident _ _ _ _ _ _ Hm Hb Hg) as [Hne Hall].
  rewrite ident_case_sensitive in Hall by done.
  by apply is_identifier_intro.
Qed.

Lemma finditer_line_ident r content cs :
  line_pattern r →
  cs ∈ finditer MULTILINE r content →
  is_identifier (group 1 cs) = true.
Proof.
  intros Hr Hin. apply finditer_from_sound in Hin as (p & s1 & s2 & Hm).
  by eapply line_pattern_ident.
Qed.

Lemma declared_id_ident content pid :
  declared_id content = Some pid → is_identifier pid = true.
Proof.
  unfold declared_id, search. intros H.
  destruct (search_from MULTILINE id_decl_re None content) as [cs|] eqn:Hs;
    [|done].
  injection H as <-. apply search_from_sound in Hs as (p & s1 & s2 & Hm).
  eapply line_pattern_ident; [|done]. by left.
Qed.

(** The table-row pattern captures an identifier up to letter case. *)
Lemma plan_row_ident prev s s' cs :
  match_here IGNORECASE plan_row_re prev s = Some (s', cs) →
  is_identifier_ci (group 1 cs) = true.
Proof.
  intros Hm.
  destruct (group_one_ident _ _ _ _ _ _ Hm eq_refl eq_refl) as [Hne Hall].
  rewrite ident_ignore_case in Hall by done.
  unfold is_identifier_ci. rewrite Hall, andb_true_r.
  apply negb_true_iff, String.eqb_neq, Hne.
Qed.

Lemma is_identifier_ci_nonempty (w : string) :
  is_identifier_ci w = true → w ≠ EmptyString.
Proof. unfold is_identifier_ci. intros H ->. done. Qed.

End Captured.

(** ** Base names *)

Section Names.

Lemma name_app (d rel : Path) : rel ≠ [] → name (d ++ rel) = name rel.
Proof.
  intros Hne. unfold name. induction d as [|x d IH]; [done|].
  simpl. destruct (d ++ rel) eqn:E; [|done].
  apply app_eq_nil in E as [_ ->]. done.
Qed.

Lemma take_str_nonempty (i : nat) (s : string) :
  (0 < i)%nat → s ≠ EmptyString → take_str i s ≠ EmptyString.
Proof. destruct i, s; simpl; try done; lia. Qed.

Lemma stem_of_name_nonempty (nm : string) :
  nm ≠ EmptyString → stem_of_name nm ≠ EmptyString.
Proof.
  intros Hne. unfold stem_of_name.
  destruct (rfind_dot_from 0 nm) as [i|]; [|done].
  destruct ((0 <? i)%nat) eqn:Hi; simpl; [|done].
  destruct ((i <? String.length nm - 1)%nat); [|done].
  apply take_str_nonempty; [|done]. by apply Nat.ltb_lt.
Qed.

(** A path the walk yields for [*.yaml] has a base name. *)
Lemma rglob_yaml_stem d entries f :
  f ∈ rglob "*.yaml" d entries → stem f.1 ≠ EmptyString.
Proof.
  intros Hf. apply rglob_under in Hf as (e & _ & -> & Hm). simpl.
  assert (rel e ≠ []) as Hrel by (intros E; rewrite E in Hm; done).
  unfold stem. rewrite name_app by done.
  apply stem_of_name_nonempty. intros E. rewrite E in Hm. done.
Qed.

Lemma entry_id_nonempty p s : entry_id p = Some s → s ≠ EmptyString.
Proof.
  unfold entry_id. destruct p as [| | | | | |ms]; try done.
  destruct (dict_get "id" ms) as [[| | | |s'| |]|]; try done.
  destruct (String.eqb_spec s' EmptyString); [done|]. by intros [= <-].
Qed.

Lemma entry_ids_nonempty ms s : s ∈ entry_ids ms → s ≠ EmptyString.
Proof.
  unfold entry_ids. intros H. apply list_elem_of_omap in H as (p & _ & H).
  by eapply entry_id_nonempty.
Qed.

End Names.

(** ** Greedy repetition, when what follows succeeds at once *)

Section Greedy.
Context {R : Type} (f : flags).
Implicit Types (k : @cont R) (prev : option ascii) (w rest : string) (cs : caps).

Lemma star_take o w : ∀ prev rest cs k r,
  str_forall (one_ok f o) w = true →
  stops f o rest = true →
  k (last_char prev w) rest cs = Some r →
  star f o prev (w +:+ rest) cs k = Some r.
Proof.
  induction w as [|c w IH]; intros prev rest cs k r Hw Hs Hk.
  - rewrite str_app_nil_l. destruct rest as [|c rest]; simpl; [done|].
    simpl in Hs. apply negb_true_iff in Hs. by rewrite Hs.
  - rewrite str_app_cons. simpl in *. apply andb_true_iff in Hw as [Hc Hw].
    rewrite Hc. by rewrite (IH (Some c) rest cs k r).
Qed.

Lemma plus_take o w prev rest cs k r :
  w ≠ EmptyString →
  str_forall (one_ok f o) w = true →
  stops f o rest = true →
  k (last_char prev w) rest cs = Some r →
  rmatch f (Plus o) prev (w +:+ rest) cs k = Some r.
Proof.
  intros Hne Hw Hs Hk. destruct w as [|c w]; [done|].
  rewrite str_app_cons. simpl in *. apply andb_true_iff in Hw as [Hc Hw].
  rewrite Hc. by apply star_take.
Qed.


(** A literal text, character by character. *)
Lemma lits_take x : ∀ y prev rest cs k,
  String.length y = String.length x →
  (∀ i a b, String.get i x = Some a → String.get i y = Some b →
            one_ok f (Lit a) b = true) →
  rmatch f (lits x) prev (y +:+ rest) cs k = k (last_char prev y) rest cs.
Proof.
  induction x as [|a x IH]; intros y prev rest cs k Hlen Hall.
  - destruct y; [done|discriminate].
  - destruct y as [|b y]; [discriminate|]. rewrite str_app_cons.
    pose proof (Hall 0%nat a b eq_refl eq_refl) as H0. simpl in H0 |- *.
    rewrite H0. apply IH.
    + simpl in Hlen. congruence.
    + intros i a' b' Ha Hb. by apply (Hall (S i)).
Qed.


End Greedy.

(** ** Scanning on after a match *)

Section Scan.
Context (f : flags) (r : regex).

Lemma star_prev {R} o s : ∀ prev prev' cs (k k' : @cont R),
  (∀ p p' s' cs', k p s' cs' = k' p' s' cs') →
  star f o prev s cs k = star f o prev' s cs k'.
Proof.
  induction s as [|c s IH]; intros prev prev' cs k k' Hk; simpl; [apply Hk|].
  destruct (one_ok f o c); [|apply Hk].
  rewrite (IH (Some c) (Some c) cs k k' Hk). by rewrite (Hk prev prev').
Qed.

(** A pattern without [^] does not see what comes before the cursor. *)
Lemma rmatch_prev {R} r0 : no_bol r0 = true →
  ∀ prev prev' s cs (k k' : @cont R),
  (∀ p p' s' cs', k p s' cs' = k' p' s' cs') →
  rmatch f r0 prev s cs k = rmatch f r0 prev' s cs k'.
Proof.
  induction r0 as [|o|o|o|o|r1 IH1 r2 IH2|r1 IH1 r2 IH2|n r1 IH1| |];
    intros Hnb prev prev' s cs k k' Hk; simpl in *; try done.
  - destruct s as [|c s]; [done|]. destruct (one_ok f o c); [apply Hk|done].
  - by apply star_prev.
  - destruct s as [|c s]; [done|]. destruct (one_ok f o c); [|done].
    by apply star_prev.
  - destruct s as [|c s]; [apply Hk|]. destruct (one_ok f o c); [|apply Hk].
    rewrite (Hk (Some c) (Some c)). by rewrite (Hk prev prev').
  - apply andb_true_iff in Hnb as [H1 H2]. apply IH1; [done|].
    intros p p' s' cs'. by apply IH2.
  - apply andb_true_iff in Hnb as [H1 H2].
    rewrite (IH1 H1 prev prev' s cs k k' Hk).
    by rewrite (IH2 H2 prev prev' s cs k k' Hk).
  - apply IH1; [done|]. intros p p' s' cs'. apply Hk.
  - destruct (at_eol f s); [apply Hk|done].
Qed.

Lemma finditer_from_prev : no_bol r = true →
  ∀ s prev prev' skip,
  finditer_from f r prev s skip = finditer_from f r prev' s skip.
Proof.
  intros Hnb. induction s as [|c s IH]; intros prev prev' skip.
  - destruct skip; simpl; [|done]. unfold match_here.
    by rewrite (rmatch_prev r Hnb prev prev' EmptyString []
                  (λ _ s' cs, Some (s', cs)) (λ _ s' cs, Some (s', cs))).
  - destruct skip; simpl; [|done]. unfold match_here.
    by rewrite (rmatch_prev r Hnb prev prev' (String c s) []
                  (λ _ s' cs, Some (s', cs)) (λ _ s' cs, Some (s', cs))).
Qed.

(** Stepping over the characters of the last match. *)
Lemma finditer_from_skip w : ∀ prev rest,
  finditer_from f r prev (w +:+ rest) (String.length w)
  = finditer_from f r (last_char prev w) rest 0.
Proof.
  induction w as [|c w IH]; intros prev rest; [done|].
  rewrite str_app_cons. simpl. apply IH.
Qed.

(** A match at the start of the text, and the scan of what is left. *)
Lemma finditer_match_first w rest cs :
  no_bol r = true →
  w ≠ EmptyString →
  match_here f r None (w +:+ rest) = Some (rest, cs) →
  finditer f r (w +:+ rest) = cs :: finditer f r rest.
Proof.
  intros Hnb Hne Hm. unfold finditer. destruct w as [|c w]; [done|].
  rewrite str_app_cons in *. simpl. rewrite Hm. f_equal.
  rewrite str_app_length.
  replace (S (String.length w + String.length rest) - String.length rest - 1)%nat
    with (String.length w) by lia.
  rewrite finditer_from_skip. by apply finditer_from_prev.
Qed.

End Scan.

(** ** Characters *)

Section Chars.






Lemma str_forall_impl (p q : ascii → bool) (s : string) :
  (∀ c, p c = true → q c = true) →
  str_forall p s = true → str_forall q s = true.
Proof.
  intros Hpq. induction s as [|c s IH]; simpl; [done|].
  intros [Hc Hs]%andb_true_iff. by rewrite (Hpq c Hc), IH.
Qed.




(** A text that is not empty is what comes before its last character,
    and that character. *)
Lemma last_split (s : string) :
  s ≠ EmptyString → ∃ a x, s = a +:+ String x EmptyString.
Proof.
  induction s as [|c s IH]; [done|]. intros _.
  destruct s as [|c' s].
  - by exists EmptyString, c.
  - destruct IH as (a & x & E); [done|]. exists (String c a), x.
    by rewrite str_app_cons, <- E.
Qed.



End Chars.

(** ** A table row at the cursor *)

Section Row.
Context {R : Type} (f : flags).
Implicit Types (k : @cont R) (prev : option ascii) (s : string) (cs : caps).

Lemma rmatch_seq r1 r2 prev s cs k :
  rmatch f (Seq r1 r2) prev s cs k
  = rmatch f r1 prev s cs (λ prev' s' cs', rmatch f r2 prev' s' cs' k).
Proof. reflexivity. Qed.

Lemma rmatch_eps prev s cs k : rmatch f Eps prev s cs k = k prev s cs.
Proof. reflexivity. Qed.

Lemma rmatch_one o c prev s cs k :
  one_ok f o c = true →
  rmatch f (One o) prev (String c s) cs k = k (Some c) s cs.
Proof. intros H. simpl. by rewrite H. Qed.

Lemma rmatch_star o prev s cs k :
  rmatch f (Star o) prev s cs k = star f o prev s cs k.
Proof. reflexivity. Qed.

Lemma rmatch_group n r1 prev s cs k :
  rmatch f (Group n r1) prev s cs k
  = rmatch f r1 prev s cs (λ prev' s' cs', k prev' s' ((n, consumed s s') :: cs')).
Proof. reflexivity. Qed.



End Row.

Section PlanRow.






End PlanRow.

Section PlanRowHead.






End PlanRowHead.

(** ** Every collected row is a row head of the text *)

Section PlanRowSound.









End PlanRowSound.

(** * The properties *)

Lemma result_of_run {A} (m : M A) (a : A) :
  result_of m = Return a → ∃ c, m empty_console = (Return a, c).
Proof.
  unfold result_of. destruct (m empty_console) as [o c]. simpl.
  intros ->. by exists c.
Qed.

(** ** Reconciliation *)

Lemma find_errors_elem used (valid : idset) r :
  r ∈ find_errors used valid ↔ r ∈ used ∧ r.2 ∉ valid.
Proof. rewrite find_errors_filter, list_elem_of_filter. tauto. Qed.

(** C1. The failures are exactly the references whose identifier is not
    in the valid set, every occurrence kept and in the order of the
    input; no reference, no failure. *)
Theorem reconciliation_exact (used : list Reference) (valid : idset) :
  find_errors used valid = filter (λ r, r.2 ∉ valid) used
  ∧ (∀ r, r ∈ find_errors used valid ↔ r ∈ used ∧ r.2 ∉ valid)
  ∧ sublist (find_errors used valid) used
  ∧ find_errors [] valid = [].
Proof.
  split; [apply find_errors_filter|]. split; [|split].
  - apply find_errors_elem.
  - rewrite find_errors_filter. apply sublist_filter.
  - reflexivity.
Qed.

(** ** The exit code *)

Lemma find_errors_nil used (valid : idset) :
  find_errors used valid = [] ↔ ∀ r, r ∈ used → r.2 ∈ valid.
Proof.
  split.
  - intros H r Hr. destruct (decide (r.2 ∈ valid)) as [|Hn]; [done|].
    assert (r ∈ find_errors used valid) as Hin by (by apply find_errors_elem).
    rewrite H in Hin. by apply elem_of_nil in Hin.
  - intros H. destruct (find_errors used valid) as [|e es] eqn:He; [done|].
    assert (e ∈ find_errors used valid) as Hin by (rewrite He; left).
    apply find_errors_elem in Hin as [Hin Hn]. exfalso. by apply Hn, H.
Qed.

(** C2 (the code departs from it). The exit status is not decided by
    the failures alone. With the index document [[]] there is no
    reference at all, and the status is 1: the loader raises
    AttributeError and nothing catches it. With the identifiers [5] and
    ["a"] in the index and the flag [-v], the one reference resolves and
    the status is 1: [sorted] raises TypeError on the valid set after
    the first information line; without the flag the same tree ends
    with status 0. *)
Theorem exit_status_faults :
  collected list_index = []
  ∧ (run_main elements [] list_index).1 = 1%nat
  ∧ loaded number_resolved = Return (IdSet {[ "a" ]} [NInt 5])
  ∧ collected number_resolved = [(["/"; "repo"; "manifests"; "app.yaml"], "a")]
  ∧ find_errors (collected number_resolved) (IdSet {[ "a" ]} [NInt 5]) = []
  ∧ main elements ["-v"] number_resolved empty_console
    = (Raise TypeError,
       Console ["[INFO] Found 2 valid pattern IDs in catalog"] [])
  ∧ (run_main elements ["-v"] number_resolved).1 = 1%nat
  ∧ (run_main elements [] number_resolved).1 = 0%nat.
Proof. repeat split; vm_compute; reflexivity. Qed.

(** ** A malformed index *)

(** An index that is not valid JSON is caught: the loader warns and goes
    on with the entry files. *)
Lemma invalid_json_index_degrades catalog_dir msg entries :
  load_valid_pattern_ids catalog_dir
    (Catalog (Some (Raise (JSONDecodeError msg))) entries) empty_console
  = (Return (IdSet
               (list_to_set (base_names catalog_dir (Catalog None entries))
                ∪ list_to_set (declared_ids catalog_dir (Catalog None entries)))
               []),
     Console []
       ["[WARN] Failed to parse " +:+ path_str (child catalog_dir "index.json")
        +:+ ": " +:+ msg]).
Proof.
  unfold load_valid_pattern_ids, load_index, base_names, declared_ids,
    entry_files. simpl. run_m.
  destruct entries as [entries|]; simpl.
  - rewrite entry_files_loop_spec. apply return_eq.
    apply idset_eq; simpl; [|done].
    by rewrite list_to_set_app_L, (left_id_L ∅ (∪)).
  - apply return_eq. apply idset_eq; simpl; [set_solver|done].
Qed.

(** An index that parses to anything but an object makes the loader
    raise, whatever the entry files are. *)
Lemma non_object_index_raises catalog_dir data entries c :
  is_dict data = false →
  load_valid_pattern_ids catalog_dir (Catalog (Some (Return data)) entries) c
  = (Raise AttributeError, c).
Proof.
  intros H. unfold load_valid_pattern_ids, load_index. simpl.
  destruct data; try done; run_m; done.
Qed.

(** C3 (the code departs from it). The index document [[]] is valid JSON
    but not an object: the loader raises AttributeError, which its
    handler does not list; nothing is reported, the entry file next to
    the index is never looked at, and the process ends with status 1. *)
Theorem list_index_uncaught :
  loaded list_index = Raise AttributeError
  ∧ main elements [] list_index empty_console = (Raise AttributeError, empty_console)
  ∧ run_main elements [] list_index = (1%nat, empty_console).
Proof. repeat split; vm_compute; reflexivity. Qed.

(** ** The valid set as a union *)

(** C4. When the loader returns, an identifier is valid exactly when one
    of the four streams contributes it: the top-level entry list, the
    category groups, the base names of the entry files, the declaration
    lines of the entry files; and the base name of every entry file is
    valid, readable or not. The numbers of the set are those of the
    index, each value once, in the order of the document. *)
Theorem valid_set_is_union (catalog_dir : Path) (cat : catalog)
    (valid : idset) :
  result_of (load_valid_pattern_ids catalog_dir cat) = Return valid →
  (∀ x, x ∈ valid
        ↔ x ∈ top_level_ids cat ∨ x ∈ category_ids cat
          ∨ x ∈ base_names catalog_dir cat ∨ x ∈ declared_ids catalog_dir cat)
  ∧ (∀ f, f ∈ entry_files catalog_dir cat → stem f.1 ∈ valid)
  ∧ nums valid = add_nums [] (index_nums cat).
Proof.
  intros H. apply result_of_run in H as [c H].
  apply load_valid_pattern_ids_union in H as ->.
  split; [|split; [|done]].
  - intros x. rewrite elem_of_idset. simpl.
    rewrite !elem_of_union, !elem_of_list_to_set. tauto.
  - intros f Hf. rewrite elem_of_idset. simpl.
    rewrite !elem_of_union, !elem_of_list_to_set.
    left. right. unfold base_names. apply list_elem_of_fmap. by exists f.
Qed.

Lemma valid_set_is_union_witness :
  top_level_ids mixed_catalog = ["top-one"]
  ∧ category_ids mixed_catalog = ["nested-one"]
  ∧ base_names (child repo "catalog") mixed_catalog = ["file-one"; "locked"]
  ∧ declared_ids (child repo "catalog") mixed_catalog = ["declared-one"]
  ∧ ∀ x, x ∈ IdSet (list_to_set
               ["top-one"; "nested-one"; "file-one"; "locked"; "declared-one"]) []
         ↔ x ∈ top_level_ids mixed_catalog ∨ x ∈ category_ids mixed_catalog
           ∨ x ∈ base_names (child repo "catalog") mixed_catalog
           ∨ x ∈ declared_ids (child repo "catalog") mixed_catalog.
Proof.
  repeat (split; [vm_compute; reflexivity|]).
  apply (valid_set_is_union (child repo "catalog") mixed_catalog).
  vm_compute. reflexivity.
Defined.

(** ** The order of the references of a manifest *)

(** C9. The references of the manifests are, document by document in
    the order of the walk, all matches of the list-item pattern, then
    all matches of the [pattern_id] pattern, then all matches of the
    [provider] pattern, then the elements of the inline lists, each
    group in textual order. *)
Theorem manifest_refs_grouped (manifests_dir : Path) (entries : list entry) :
  result_of (collect_used_pattern_ids_from_manifests manifests_dir (Some entries))
  = Return
      (f ← rglob "*.yaml" manifests_dir entries;
       match f.2 with
       | Return content =>
           ((λ m, (f.1, group 1 m)) <$> finditer MULTILINE list_item_re content)
           ++ ((λ m, (f.1, group 1 m)) <$> finditer MULTILINE pattern_id_re content)
           ++ ((λ m, (f.1, group 1 m)) <$> finditer MULTILINE provider_re content)
           ++ (m ← finditer no_flags from_catalog_re content;
               (λ item, (f.1, item))
                 <$> filter (λ item, item ≠ EmptyString)
                       (clean_item <$> split "," (group 1 m)))
       | Raise _ => []
       end).
Proof.
  unfold result_of.
  destruct (collect_manifests_spec manifests_dir (Some entries) empty_console)
    as (c' & E & _).
  rewrite E. reflexivity.
Qed.

(** The provider line comes first in the text and last but one in the
    references. *)
Example grouped_not_interleaved :
  manifest_refs (child repo "manifests") (manifests_tree mixed_project)
  = (λ pid, (["/"; "repo"; "manifests"; "app.yaml"], pid))
      <$> ["file-one"; "nested-one"; "top-one"; "locked"; "missing-one"].
Proof. vm_compute. reflexivity. Qed.

(** ** The report *)

(** C7 (the code departs from it). With the identifiers [5] and ["a"]
    in the index and a manifest that refers to [zzz], the failure
    branch prints its head and the line of the failure, then [sorted]
    raises TypeError on the valid set: no preview of the valid
    identifiers is printed, and the process ends with status 1 by the
    fault, not by the report. *)
Theorem preview_fault :
  loaded number_unresolved = Return (IdSet {[ "a" ]} [NInt 5])
  ∧ collected number_unresolved
    = [(["/"; "repo"; "manifests"; "app.yaml"], "zzz")]
  ∧ sorted (elements (IdSet {[ "a" ]} [NInt 5])) = Raise TypeError
  ∧ main elements [] number_unresolved empty_console
    = (Raise TypeError,
       Console ["[ERROR] Unknown pattern IDs found:";
                "  - 'zzz' in manifests/app.yaml"; "";
                "Available pattern IDs:"] []).
Proof. repeat split; vm_compute; reflexivity. Qed.

(** ** Two runs on the same tree *)

Lemma bind_ext {A B} (m : M A) (g1 g2 : A → M B) c :
  (∀ a c', m c = (Return a, c') → g1 a c' = g2 a c') →
  (m ≫= g1) c = (m ≫= g2) c.
Proof.
  intros H. unfold mbind, M_bind, Py.bind.
  destruct (m c) as [[a|e] c']; [by apply H|done].
Qed.

(** C8. What a run prints and the status it ends with are a function of
    the tree: two runs whose sets iterate in different orders (their
    string hashes differ) print the same two streams and end with the
    same status. The order of the walk of a directory belongs to the
    tree. *)
Theorem runs_agree (iter1 iter2 : idset → list pyval)
    (argv : list string) (fs : project) :
  (∀ s, iter1 s ≡ₚ elements s) →
  (∀ s, iter2 s ≡ₚ elements s) →
  run_main iter1 argv fs = run_main iter2 argv fs.
Proof.
  intros H1 H2. unfold run_main.
  enough (main iter1 argv fs empty_console = main iter2 argv fs empty_console)
    as -> by done.
  unfold main. apply bind_ext. intros valid c Hl.
  apply loaded_distinct in Hl.
  rewrite (sorted_iter iter1 valid H1 Hl), (sorted_iter iter2 valid H2 Hl).
  reflexivity.
Qed.

Lemma runs_agree_witness :
  run_main elements ["-v"] crowded = run_main reversed_iter ["-v"] crowded.
Proof.
  apply runs_agree.
  - intros s. reflexivity.
  - intros s. apply reverse_Permutation.
Defined.

(** ** No empty identifier *)

Lemma manifest_doc_refs_nonempty doc content r :
  r ∈ manifest_doc_refs doc content → r.2 ≠ EmptyString.
Proof.
  unfold manifest_doc_refs, pattern_refs. rewrite !elem_of_app.
  intros [H|[H|[H|H]]].
  - apply list_elem_of_fmap in H as (m & -> & Hm). simpl.
    apply is_identifier_nonempty. eapply finditer_line_ident; [|done].
    unfold line_pattern. auto.
  - apply list_elem_of_fmap in H as (m & -> & Hm). simpl.
    apply is_identifier_nonempty. eapply finditer_line_ident; [|done].
    unfold line_pattern. auto.
  - apply list_elem_of_fmap in H as (m & -> & Hm). simpl.
    apply is_identifier_nonempty. eapply finditer_line_ident; [|done].
    unfold line_pattern. auto.
  - unfold inline_refs, inline_items in H.
    apply list_elem_of_bind in H as (m & H & _).
    apply list_elem_of_fmap in H as (item & -> & H).
    by apply list_elem_of_filter in H as [H _].
Qed.

Lemma plan_doc_refs_nonempty doc content r :
  r ∈ plan_doc_refs doc content → r.2 ≠ EmptyString.
Proof.
  unfold plan_doc_refs, pattern_refs. intros H.
  apply list_elem_of_fmap in H as (m & -> & Hm). simpl.
  apply finditer_from_sound in Hm as (p & s1 & s2 & Hm).
  eapply is_identifier_ci_nonempty, plan_row_ident, Hm.
Qed.

(** C10. When the loader returns, the empty string is not a valid
    identifier, and no collected reference carries the empty string. *)
Theorem no_empty_identifier (fs : project) (valid : idset) :
  loaded fs = Return valid →
  EmptyString ∉ valid ∧ ∀ r, r ∈ collected fs → r.2 ≠ EmptyString.
Proof.
  intros Hl. split.
  - apply result_of_run in Hl as [c Hl].
    apply load_valid_pattern_ids_union in Hl as ->.
    rewrite elem_of_idset. simpl.
    rewrite !elem_of_union, !elem_of_list_to_set.
    intros [[[H|H]|H]|H].
    + by apply entry_ids_nonempty in H.
    + unfold category_ids in H.
      destruct (dict_get "categories" _) as [[| | | | | |groups]|];
        try by apply elem_of_nil in H.
      apply list_elem_of_bind in H as (g & H & _).
      destruct g as [| | | | | |ms]; try by apply elem_of_nil in H.
      by apply entry_ids_nonempty in H.
    + unfold base_names, entry_files in H.
      apply list_elem_of_fmap in H as (f & E & Hf).
      destruct (patterns (catalog_tree fs)) as [entries|];
        [|by apply elem_of_nil in Hf].
      apply rglob_yaml_stem in Hf. by rewrite <- E in Hf.
    + unfold declared_ids, file_declared in H.
      apply list_elem_of_omap in H as (f & _ & H).
      destruct (f.2) as [content|]; [|done].
      by apply declared_id_ident, is_identifier_nonempty in H.
  - intros r. unfold collected, manifest_refs, plan_refs. rewrite elem_of_app.
    intros [H|H].
    + destruct (manifests_tree fs) as [entries|]; [|by apply elem_of_nil in H].
      apply list_elem_of_bind in H as (f & H & _). unfold refs_of in H.
      destruct (f.2); [|by apply elem_of_nil in H].
      by eapply manifest_doc_refs_nonempty.
    + destruct (specs_tree fs) as [entries|]; [|by apply elem_of_nil in H].
      apply list_elem_of_bind in H as (f & H & _). unfold refs_of in H.
      destruct (f.2); [|by apply elem_of_nil in H].
      by eapply plan_doc_refs_nonempty.
Qed.

Lemma no_empty_identifier_witness :
  EmptyString ∉ IdSet (list_to_set
      ["top-one"; "nested-one"; "file-one"; "locked"; "declared-one"]) []
  ∧ ∀ r, r ∈ collected mixed_project → r.2 ≠ EmptyString.
Proof.
  apply (no_empty_identifier mixed_project). vm_compute. reflexivity.
Defined.

(** ** The lexical rule *)

(** The identifiers of [free_form]: the index, a base name, an inline
    list and a plan row bring in strings outside the rule. *)
Lemma lexical_rule_counterexample :
  loaded free_form = Return (IdSet (list_to_set ["Foo Bar"; "My_Pattern"]) [])
  ∧ is_identifier "Foo Bar" = false
  ∧ is_identifier "My_Pattern" = false
  ∧ collected free_form
    = [(["/"; "repo"; "manifests"; "app.yaml"], "Foo Bar");
       (["/"; "repo"; "manifests"; "app.yaml"], "My_Pattern");
       (["/"; "repo"; "specs"; "plan.md"], "UPPER")]
  ∧ is_identifier "UPPER" = false.
Proof. repeat split; vm_compute; reflexivity. Qed.

(** C6, as amended. The identifiers that a line pattern captures obey
    the lexical rule: the declaration line of an entry file, and in a
    manifest the list-item, [pattern_id] and [provider] lines. *)
Theorem lexical_rule_line_patterns :
  (∀ content pid, declared_id content = Some pid → is_identifier pid = true)
  ∧ (∀ doc content r,
       r ∈ pattern_refs MULTILINE list_item_re doc content
           ++ pattern_refs MULTILINE pattern_id_re doc content
           ++ pattern_refs MULTILINE provider_re doc content →
       is_identifier r.2 = true).
Proof.
  split; [apply declared_id_ident|].
  intros doc content r. unfold pattern_refs. rewrite !elem_of_app.
  intros [H|[H|H]]; apply list_elem_of_fmap in H as (m & -> & Hm); simpl;
    (eapply finditer_line_ident; [|done]); unfold line_pattern; auto.
Qed.

Lemma lexical_rule_line_patterns_witness :
  is_identifier "declared-one" = true
  ∧ is_identifier "file-one" = true.
Proof.
  destruct lexical_rule_line_patterns as [Hd Hr]. split.
  - apply (Hd ("id: declared-one" +:+ nl)). vm_compute. reflexivity.
  - apply (Hr ["app.yaml"] ("- id: file-one" +:+ nl) (["app.yaml"], "file-one")).
    vm_compute. left.
Defined.

(** ** Table rows of a plan *)





(** * Further properties *)

(** ** What the collectors write *)

Section CollectorConsole.

Lemma scan_document_console scan per_doc ids f c :
  (∀ doc content ids, scan doc content ids = ids ++ per_doc doc content) →
  scan_document scan ids f c
  = (Return (ids ++ refs_of per_doc f),
     Console (stdout c) (stderr c ++ option_list (read_warning f))).
Proof.
  intros Hscan. destruct c as [out err].
  destruct f as [doc [content|e]]; unfold refs_of, read_warning; simpl; run_m.
  - by rewrite Hscan, app_nil_r.
  - by rewrite app_nil_r.
Qed.

Lemma scan_loop_console scan per_doc (fs : list (Path * outcome string)) :
  (∀ doc content ids, scan doc content ids = ids ++ per_doc doc content) →
  ∀ ids c,
  for_ fs (scan_document scan) ids c
  = (Return (ids ++ (f ← fs; refs_of per_doc f)),
     Console (stdout c) (stderr c ++ read_warnings fs)).
Proof.
  intros Hscan. induction fs as [|f fs IH]; intros ids [out err]; simpl.
  - run_m. by rewrite !app_nil_r.
  - unfold Py.bind. rewrite (scan_document_console scan per_doc) by done.
    rewrite IH. simpl. unfold read_warnings. simpl.
    rewrite <- !app_assoc. f_equal. f_equal.
    by destruct (read_warning f).
Qed.

End CollectorConsole.

(** What the manifest collector returns and writes. *)
Lemma manifests_collector_run (manifests_dir : Path) (d : dir) (c : console) :
  collect_used_pattern_ids_from_manifests manifests_dir d c
  = (Return (manifest_refs manifests_dir d),
     Console (stdout c)
       (stderr c ++ read_warnings (visited "*.yaml" manifests_dir d))).
Proof.
  unfold collect_used_pattern_ids_from_manifests, manifest_refs, visited.
  destruct d as [entries|].
  - by rewrite (scan_loop_console scan_manifest manifest_doc_refs _
                  scan_manifest_spec).
  - destruct c. run_m. by rewrite app_nil_r.
Qed.

(** What the plan collector returns and writes. *)
Lemma plans_collector_run (specs_dir : Path) (d : dir) (c : console) :
  collect_used_pattern_ids_from_plans specs_dir d c
  = (Return (plan_refs specs_dir d),
     Console (stdout c)
       (stderr c ++ read_warnings (visited "plan.md" specs_dir d))).
Proof.
  unfold collect_used_pattern_ids_from_plans, plan_refs, visited.
  destruct d as [entries|].
  - by rewrite (scan_loop_console scan_plan plan_doc_refs _ scan_plan_spec).
  - destruct c. run_m. by rewrite app_nil_r.
Qed.

(** X1. Neither collector ever raises. Each returns the references of
    the documents it could read ([*.yaml] below the manifests, [plan.md]
    below the specs), leaves the standard output alone and writes to
    the error stream one line for each document it could not read, in
    the order of the walk; a missing directory gives no reference and
    no line. *)
Theorem collectors_total (manifests_dir specs_dir : Path) (d : dir)
    (c : console) :
  collect_used_pattern_ids_from_manifests manifests_dir d c
  = (Return (manifest_refs manifests_dir d),
     Console (stdout c)
       (stderr c ++ read_warnings (visited "*.yaml" manifests_dir d)))
  ∧ collect_used_pattern_ids_from_plans specs_dir d c
    = (Return (plan_refs specs_dir d),
       Console (stdout c)
         (stderr c ++ read_warnings (visited "plan.md" specs_dir d))).
Proof. split; [apply manifests_collector_run|apply plans_collector_run]. Qed.

(** ** What the loader writes *)

Lemma entry_files_quiet catalog_dir cat (ids : idset) c :
  (match patterns cat with
   | Some entries =>
       for_ (rglob "*.yaml" (child catalog_dir "patterns") entries) load_entry ids
   | None => mret ids
   end c).2 = c.
Proof.
  destruct (patterns cat) as [entries|]; [|done].
  apply (quiet_for _ load_entry quiet_load_entry).
Qed.

(** What the loader writes. *)
Lemma loader_writes (catalog_dir : Path) (cat : catalog) (c : console) :
  (load_valid_pattern_ids catalog_dir cat c).2
  = Console (stdout c) (stderr c ++ index_warning catalog_dir cat).
Proof.
  unfold load_valid_pattern_ids, index_warning.
  unfold mbind at 1, M_bind, Py.bind at 1.
  destruct (index_json cat) as [loaded|].
  - unfold try_except.
    pose proof (quiet_load_index ∅ loaded c) as Hq.
    destruct (load_index ∅ loaded c) as [[ids|e] c1] eqn:E; simpl in Hq; subst c1.
    + rewrite entry_files_quiet. destruct c. simpl.
      destruct loaded as [data|e]; [by rewrite app_nil_r|].
      revert E. unfold load_index. run_m. done.
    + destruct loaded as [data|e0].
      * apply load_index_fault in E as [-> | ->]; simpl; destruct c;
          by rewrite app_nil_r.
      * assert (e = e0) as -> by (revert E; unfold load_index; run_m; congruence).
        destruct (is_json_or_key_error e0); simpl.
        -- run_m. by rewrite entry_files_quiet.
        -- destruct c. by rewrite app_nil_r.
  - run_m. rewrite entry_files_quiet. destruct c. by rewrite app_nil_r.
Qed.

Lemma loader_raise_console catalog_dir cat e c c' :
  load_valid_pattern_ids catalog_dir cat c = (Raise e, c') → c' = c.
Proof.
  intros H.
  pose proof (loader_writes catalog_dir cat c) as Hc. rewrite H in Hc.
  simpl in Hc. subst c'.
  assert (index_warning catalog_dir cat = []) as ->;
    [|destruct c; simpl; by rewrite app_nil_r].
  unfold index_warning. destruct (index_json cat) as [[data|e0]|] eqn:Hi; try done.
  destruct (is_json_or_key_error e0) eqn:He; [|done]. exfalso.
  revert H. unfold load_valid_pattern_ids. rewrite Hi.
  unfold load_index, try_except. run_m. rewrite He. simpl.
  destruct (patterns cat) as [entries|]; [|done].
  by rewrite entry_files_loop_spec.
Qed.

(** X2. The loader never writes to the standard output; to the error
    stream it writes one line when reading or parsing the index raised
    an error its handler lists, and nothing else: an entry file that
    cannot be read is passed over in silence. When the loader raises,
    it has written nothing at all. *)
Theorem loader_console (catalog_dir : Path) (cat : catalog) (c : console) :
  (load_valid_pattern_ids catalog_dir cat c).2
  = Console (stdout c) (stderr c ++ index_warning catalog_dir cat)
  ∧ (returns (load_valid_pattern_ids catalog_dir cat c).1 = false →
     (load_valid_pattern_ids catalog_dir cat c).2 = c).
Proof.
  split; [apply loader_writes|].
  destruct (load_valid_pattern_ids catalog_dir cat c) as [[ids|e] c'] eqn:E;
    [done|]. intros _. simpl. by eapply loader_raise_console.
Qed.

Lemma loader_console_witness :
  (load_valid_pattern_ids (child repo "catalog") (catalog_tree list_index)
     empty_console).2
  = empty_console.
Proof.
  apply (loader_console (child repo "catalog") (catalog_tree list_index)
           empty_console).
  vm_compute. reflexivity.
Defined.

(** ** What a run writes *)

Section RunConsole.
Variable set_iter : idset → list pyval.

Lemma loaded_run fs valid :
  loaded fs = Return valid →
  load_valid_pattern_ids (child (project_root fs) "catalog") (catalog_tree fs)
    empty_console
  = (Return valid,
     Console [] (index_warning (child (project_root fs) "catalog")
                   (catalog_tree fs))).
Proof.
  intros Hl. apply result_of_run in Hl as [c1 Hl]. rewrite Hl. f_equal.
  pose proof (loader_writes (child (project_root fs) "catalog")
                (catalog_tree fs) empty_console) as Hc.
  by rewrite Hl in Hc.
Qed.

(** The whole of a run whose loader returns. *)
Lemma main_console argv fs valid :
  loaded fs = Return valid →
  main set_iter argv fs empty_console
  = (main_outcome argv (sorted (set_iter valid))
       (find_errors (collected fs) valid),
     Console
       (main_stdout argv (project_root fs) (sorted (set_iter valid))
          (size valid) (collected fs) (find_errors (collected fs) valid))
       (main_stderr argv fs (sorted (set_iter valid)))).
Proof.
  intros Hl. apply loaded_run in Hl.
  unfold main, main_outcome, main_stdout, main_stderr, verbose_lines,
    is_verbose, collected, diagnostics, info_head.
  set (verbose := bool_decide ("--verbose" ∈ argv) || bool_decide ("-v" ∈ argv)).
  unfold mbind, M_bind, Py.bind at 1. rewrite Hl.
  set (mrefs := manifest_refs _ _). set (prefs := plan_refs _ _).
  set (w0 := index_warning _ _).
  set (w1 := read_warnings (visited "*.yaml" _ _)).
  set (w2 := read_warnings (visited "plan.md" _ _)).
  set (so := sorted (set_iter valid)). clearbody so.
  destruct verbose.
  - run_m. destruct so as [ids|e0].
    2:{ by destruct (find_errors _ _). }
    rewrite print_each_run. simpl.
    rewrite manifests_collector_run, plans_collector_run.
    fold mrefs prefs w1 w2. simpl.
    destruct (find_errors (mrefs ++ prefs) valid) as [|e es] eqn:Herr.
    + unfold success_report.
      destruct (mrefs ++ prefs); simpl;
        rewrite <- !app_assoc, <- ?list_fmap_compose; reflexivity.
    + rewrite print_each_run. simpl. rewrite print_each_run. simpl.
      unfold failure_report.
      destruct (20 <? size valid)%nat; simpl;
        rewrite <- ?app_assoc, <- ?list_fmap_compose, ?fmap_take; simpl;
        rewrite ?app_nil_r, <- ?list_fmap_compose;
        repeat (f_equal; try done); destruct e; done.
  - run_m.
    rewrite manifests_collector_run, plans_collector_run.
    fold mrefs prefs w1 w2. simpl.
    destruct (find_errors (mrefs ++ prefs) valid) as [|e es] eqn:Herr.
    + unfold success_report.
      destruct so; destruct (mrefs ++ prefs); simpl;
        rewrite <- ?app_assoc; reflexivity.
    + rewrite print_each_run. simpl.
      destruct so as [ids|e0].
      2:{ simpl. unfold failure_head. simpl. rewrite <- ?app_assoc. simpl.
          repeat (f_equal; try done); destruct e; done. }
      simpl. rewrite print_each_run. simpl.
      unfold failure_report.
      destruct (20 <? size valid)%nat; simpl;
        rewrite <- ?app_assoc, <- ?list_fmap_compose, ?fmap_take; simpl;
        rewrite ?app_nil_r, <- ?list_fmap_compose;
        repeat (f_equal; try done); destruct e; done.
Qed.

(** A run whose valid set does not mix strings and numbers. *)
Lemma main_unmixed argv fs valid :
  (∀ s, set_iter s ≡ₚ elements s) →
  loaded fs = Return valid → mixed valid = false →
  ∃ ids, sorted (elements valid) = Return ids ∧ ids ≡ₚ elements valid
    ∧ main set_iter argv fs empty_console
      = (Return (match find_errors (collected fs) valid with
                 | [] => 0%nat
                 | _ :: _ => 1%nat
                 end),
         Console
           (verbose_lines argv (py_str <$> ids) (size valid)
              (List.length (collected fs))
            ++ match find_errors (collected fs) valid with
               | [] => success_report (collected fs)
               | e :: es =>
                   failure_report (project_root fs) (e :: es) (py_str <$> ids)
                     (size valid)
               end)
           (diagnostics fs)).
Proof.
  intros Hiter Hl Hmix.
  pose proof (sorted_mixed elements valid (λ s, reflexivity _)) as Hs.
  rewrite Hmix in Hs. destruct Hs as (ids & Hs & Hp).
  exists ids. split; [done|]. split; [done|].
  rewrite (main_console argv fs valid Hl).
  assert (distinct valid) as Hd.
  { apply result_of_run in Hl as [c1 Hl]. by eapply loaded_distinct. }
  rewrite (sorted_iter set_iter valid Hiter Hd), Hs. simpl.
  by destruct (find_errors (collected fs) valid).
Qed.


End RunConsole.



(** X4. When the loader returns a valid set that does not mix strings
    and numbers, the verbosity flag only adds lines: with the same
    tree, a run with the flag ends with the same status and the same
    error stream as a run without arguments, and its standard output is
    that of the other run behind the lines of information (the number
    of valid identifiers, the identifiers in ascending order, the
    number of references). *)
Theorem verbose_only_adds (set_iter : idset → list pyval)
    (argv : list string) (fs : project) (valid : idset) :
  (∀ s, set_iter s ≡ₚ elements s) →
  loaded fs = Return valid →
  mixed valid = false →
  ∃ ids, sorted (elements valid) = Return ids
    ∧ (run_main set_iter argv fs).1 = (run_main set_iter [] fs).1
    ∧ (run_main set_iter argv fs).2.(stderr)
      = (run_main set_iter [] fs).2.(stderr)
    ∧ (run_main set_iter argv fs).2.(stdout)
      = verbose_lines argv (py_str <$> ids) (size valid)
          (List.length (collected fs))
        ++ (run_main set_iter [] fs).2.(stdout).
Proof.
  intros Hiter Hl Hmix. unfold run_main.
  destruct (main_unmixed set_iter argv fs valid Hiter Hl Hmix)
    as (ids & Hs & _ & ->).
  destruct (main_unmixed set_iter [] fs valid Hiter Hl Hmix)
    as (ids' & Hs' & _ & ->).
  assert (ids' = ids) as -> by congruence.
  exists ids. split; [done|]. simpl. done.
Qed.

Lemma verbose_only_adds_witness :
  (run_main elements ["--verbose"] scenario_a).2.(stdout)
  = ["[INFO] Found 1 valid pattern IDs in catalog";
     "       - feature-create-entity"; "";
     "[INFO] Found 1 pattern ID references"; ""]
    ++ (run_main elements [] scenario_a).2.(stdout).
Proof.
  destruct (verbose_only_adds elements ["--verbose"] scenario_a
              (IdSet (list_to_set ["feature-create-entity"]) []))
    as (ids & Hs & _ & _ & H).
  - intros s. reflexivity.
  - vm_compute. reflexivity.
  - vm_compute. reflexivity.
  - rewrite H. vm_compute in Hs. injection Hs as <-. vm_compute. reflexivity.
Defined.

(** A fault of the loader is the outcome of [main]. *)
Lemma main_loader_fault (set_iter : idset → list pyval)
    (argv : list string) (fs : project) (e : exn) :
  loaded fs = Raise e →
  main set_iter argv fs empty_console = (Raise e, empty_console).
Proof.
  intros Hl. unfold loaded, result_of in Hl.
  destruct (load_valid_pattern_ids (child (project_root fs) "catalog")
              (catalog_tree fs) empty_console) as [o c1] eqn:E.
  simpl in Hl. subst o. pose proof (loader_raise_console _ _ _ _ _ E) as ->.
  unfold main. unfold mbind at 1, M_bind, Py.bind at 1. by rewrite E.
Qed.



(** ** The status and the report of a run whose loader returns *)

Lemma elements_length (s : idset) : List.length (elements s) = size s.
Proof.
  unfold elements, idset_elements, size, idset_size.
  by rewrite length_app, !length_fmap.
Qed.

(** What [sorted] returns is ascending. *)
Lemma sorted_ascending (l ids : list pyval) :
  sorted l = Return ids →
  Sorted String.le (strings_of ids) ∧ Sorted num_le (numbers_of ids).
Proof.
  unfold sorted.
  destruct (strings_of l) as [|s ss], (numbers_of l) as [|n ns];
    intros [= <-]; rewrite ?strings_of_strs, ?strings_of_nums,
      ?numbers_of_strs, ?numbers_of_nums;
    (split; first [apply (Sorted_merge_sort String.le)
                  |apply (Sorted_merge_sort num_le)
                  |constructor]).
Qed.

(** X18. When the loader returns, the exit status is 0 exactly when
    every collected reference resolves and the run does not end in
    [sorted], and 1 otherwise. The run ends in [sorted] without a
    failure only under the verbosity flag, when the valid set holds
    strings and numbers; with a failure the status is 1 either way. *)
Theorem exit_code_cases (set_iter : idset → list pyval)
    (argv : list string) (fs : project) (valid : idset) :
  (∀ s, set_iter s ≡ₚ elements s) →
  loaded fs = Return valid →
  ((run_main set_iter argv fs).1 = 0%nat
     ↔ (∀ r, r ∈ collected fs → r.2 ∈ valid)
       ∧ is_verbose argv && mixed valid = false)
  ∧ ((run_main set_iter argv fs).1 = 1%nat
     ↔ (∃ r, r ∈ collected fs ∧ r.2 ∉ valid)
       ∨ is_verbose argv && mixed valid = true).
Proof.
  intros Hiter Hl. unfold run_main.
  rewrite (main_console set_iter argv fs valid Hl).
  pose proof (sorted_mixed set_iter valid Hiter) as Hs.
  assert (find_errors (collected fs) valid = []
          ∧ (∀ r, r ∈ collected fs → r.2 ∈ valid)
          ∨ (∃ e es, find_errors (collected fs) valid = e :: es)
            ∧ ∃ r, r ∈ collected fs ∧ r.2 ∉ valid) as Hcase.
  { destruct (find_errors (collected fs) valid) as [|e es] eqn:He.
    - left. split; [done|]. by apply find_errors_nil.
    - right. split; [eauto|]. exists e. apply find_errors_elem.
      rewrite He. by left. }
  unfold main_outcome.
  destruct Hcase as [[-> Hall]|[(e & es & ->) (r & Hr & Hn)]].
  - destruct (mixed valid); [rewrite Hs|destruct Hs as (ids & -> & _)];
      destruct (is_verbose argv); simpl; (split; split); try done;
      try tauto; try (by intros [_ ?]);
      try (intros [(r & Hr & Hn)|?]; [exfalso; by apply Hn, Hall|done]).
  - destruct (mixed valid); [rewrite Hs|destruct Hs as (ids & -> & _)];
      destruct (is_verbose argv); simpl; (split; split); try done;
      try (intros [Hall _]; exfalso; by apply Hn, Hall); eauto.
Qed.

Lemma exit_code_cases_witness :
  ((run_main elements ["-v"] number_resolved).1 = 0%nat
     ↔ (∀ r, r ∈ collected number_resolved → r.2 ∈ IdSet {[ "a" ]} [NInt 5])
       ∧ is_verbose ["-v"] && mixed (IdSet {[ "a" ]} [NInt 5]) = false)
  ∧ ((run_main elements ["-v"] number_resolved).1 = 1%nat
     ↔ (∃ r, r ∈ collected number_resolved ∧ r.2 ∉ IdSet {[ "a" ]} [NInt 5])
       ∨ is_verbose ["-v"] && mixed (IdSet {[ "a" ]} [NInt 5]) = true).
Proof.
  apply (exit_code_cases elements ["-v"] number_resolved).
  - intros s. reflexivity.
  - vm_compute. reflexivity.
Defined.

(** X19. When the loader returns a valid set that does not mix strings
    and numbers, the standard output is what the verbosity flag adds
    followed by the report: without failures, one line with the number
    of references checked, or the distinct line for no reference at
    all; with failures, one line per failure with the identifier and
    the path of its document below the project root, then the first 20
    valid identifiers in ascending order and, only when there are more
    than 20, the number of those left out. *)
Theorem report_unmixed (set_iter : idset → list pyval)
    (argv : list string) (fs : project) (valid : idset) :
  (∀ s, set_iter s ≡ₚ elements s) →
  loaded fs = Return valid →
  mixed valid = false →
  let used := collected fs in
  let failures := filter (λ r : Reference, r.2 ∉ valid) used in
  ∃ ids, sorted (elements valid) = Return ids
    ∧ ids ≡ₚ elements valid
    ∧ Sorted String.le (strings_of ids) ∧ Sorted num_le (numbers_of ids)
    ∧ (∀ r, r ∈ failures →
         r.1 = project_root fs ++ relative_to r.1 (project_root fs))
    ∧ (run_main set_iter argv fs).2.(stdout)
      = verbose_lines argv (py_str <$> ids) (size valid) (List.length used)
        ++ report (project_root fs) used failures (py_str <$> ids).
Proof.
  intros Hiter Hl Hmix used failures.
  destruct (main_unmixed set_iter argv fs valid Hiter Hl Hmix)
    as (ids & Hs & Hp & Hm).
  exists ids. split; [done|]. split; [done|].
  destruct (sorted_ascending _ _ Hs) as [Hss Hsn]. split; [done|]. split; [done|].
  assert (∀ r, r ∈ failures → r ∈ used) as Hsub.
  { intros r Hr. by apply list_elem_of_filter in Hr as [_ Hr]. }
  split.
  - intros r Hr. apply Hsub, collected_under_root in Hr as (top & p & Hsrc & _).
    rewrite Hsrc at 2. by rewrite relative_to_app.
  - unfold run_main. rewrite Hm. simpl. f_equal.
    rewrite find_errors_filter. subst used failures.
    match goal with
    | |- match ?x with _ => _ end = report _ _ ?y _ =>
        change y with x; destruct x as [|f fs'] eqn:Hf
    end.
    + unfold success_report, report. by destruct (collected fs).
    + assert (size valid = List.length (py_str <$> ids)) as ->
        by (by rewrite length_fmap, Hp, elements_length).
      apply failure_report_spec. intros r Hr. apply Hsub.
      rewrite <- Hf in Hr. exact Hr.
Qed.

Lemma report_unmixed_witness :
  (run_main reversed_iter [] crowded).2.(stdout)
  = ["[ERROR] Unknown pattern IDs found:";
     "  - 'p00' in manifests/app.yaml"; ""; "Available pattern IDs:"]
    ++ ((λ pid, "  - " +:+ pid) <$> take 20 many_ids)
    ++ ["  ... and 2 more"].
Proof.
  assert (∀ s, reversed_iter s ≡ₚ elements s) as Hiter
    by (intros s; apply reverse_Permutation).
  assert (loaded crowded = Return (IdSet (list_to_set many_ids) [])) as Hl
    by (vm_compute; reflexivity).
  assert (mixed (IdSet (list_to_set many_ids) []) = false) as Hmix
    by (vm_compute; reflexivity).
  destruct (report_unmixed reversed_iter [] crowded
              (IdSet (list_to_set many_ids) []) Hiter Hl Hmix)
    as (ids & Hs & _ & _ & _ & _ & H).
  rewrite H. vm_compute in Hs. injection Hs as <-. vm_compute. reflexivity.
Defined.

(** ** When the loader returns *)

Section LoaderReturns.

Lemma returns_bind {A B} (m : M A) (g : A → M B) c :
  returns ((m ≫= g) c).1
  = match m c with
    | (Return a, c') => returns (g a c').1
    | (Raise _, _) => false
    end.
Proof. unfold mbind, M_bind, Py.bind. by destruct (m c) as [[a|e] c']. Qed.

Lemma returns_for {A S} (ok : A → bool) (body : S → A → M S) (xs : list A) :
  (∀ s x c, returns (body s x c).1 = ok x) →
  ∀ s c, returns (for_ xs body s c).1 = forallb ok xs.
Proof.
  intros Hb. induction xs as [|x xs IH]; intros s c; simpl; [done|].
  unfold Py.bind. specialize (Hb s x c).
  destruct (body s x c) as [[s'|e] c']; simpl in Hb; rewrite <- Hb; [apply IH|done].
Qed.

Lemma returns_entry_step (ids : idset) p c :
  returns ((pid ← lift (py_get p "id" JNull);
            if truthy pid then lift (set_add ids pid) else mret ids) c).1
  = entry_ok p.
Proof.
  run_m. destruct p as [|b|z|v sh|s|l|ms]; simpl; try done.
  destruct (dict_get "id" ms) as [[|b|z|v sh|s|[|x l]|[|x l]]|]; simpl;
    try done.
  - by destruct b.
  - by destruct (num_truthy (NInt z)).
  - by destruct (num_truthy (NFloat v sh)).
  - by destruct (negb (String.eqb s EmptyString)).
Qed.

Lemma returns_add_entry_ids (ids : idset) ms c :
  returns (add_entry_ids ids (default (JArr []) (dict_get "patterns" ms)) c).1
  = holder_ok ms.
Proof.
  unfold add_entry_ids, holder_ok. rewrite returns_bind. unfold lift.
  destruct (py_iter (default (JArr []) (dict_get "patterns" ms))) as [ps|e];
    [|done].
  apply (returns_for entry_ok). intros s x c'. apply returns_entry_step.
Qed.

Lemma returns_group_step (ids : idset) category c :
  returns ((entries ← (if is_dict category
                       then lift (py_get category "patterns" (JArr []))
                       else mret (JArr []));
            add_entry_ids ids entries) c).1
  = match category with JObj gs => holder_ok gs | _ => true end.
Proof.
  destruct category as [|b|z|v sh|s|l|gs]; simpl;
    try (unfold add_entry_ids; run_m; done).
  rewrite returns_bind. unfold lift, py_get. apply returns_add_entry_ids.
Qed.

Lemma returns_load_index (ids : idset) data c :
  returns (load_index ids (Return data) c).1 = index_ok data.
Proof.
  unfold load_index, index_ok. rewrite returns_bind. unfold lift at 1.
  rewrite returns_bind. unfold lift at 1.
  destruct data as [|b|z|v sh|s|l|ms]; simpl; try done.
  rewrite returns_bind.
  pose proof (returns_add_entry_ids ids ms c) as Hh.
  pose proof (quiet_add_entry_ids ids (default (JArr []) (dict_get "patterns" ms)) c)
    as Hq.
  destruct (add_entry_ids ids (default (JArr []) (dict_get "patterns" ms)) c)
    as [[ids1|e] c1]; simpl in Hh, Hq; rewrite <- Hh; [|done]. simpl.
  rewrite returns_bind. unfold lift at 1. simpl.
  rewrite returns_bind. unfold lift at 1. unfold categories_ok.
  destruct (dict_get "categories" ms) as [cats|]; simpl.
  - destruct (truthy cats) eqn:Ht.
    + destruct cats as [|b|z|v sh|s|l|groups]; simpl; try done.
      apply (returns_for
               (λ g, match g with JObj gs => holder_ok gs | _ => true end)).
      intros s x c'. apply returns_group_step.
    + simpl. done.
  - done.
Qed.

End LoaderReturns.

Lemma dict_keys_nil (ms : list (string * json)) : dict_keys ms = [] → ms = [].
Proof. by destruct ms as [|[k v] ms]. Qed.

(** What the [patterns] member of an accepted object can be. *)
Lemma holder_ok_cases (ms : list (string * json)) :
  holder_ok ms = true
  ↔ match dict_get "patterns" ms with
     | None => True
     | Some (JArr l) => forallb entry_ok l = true
     | Some (JStr s) => s = EmptyString
     | Some (JObj gs) => gs = []
     | Some _ => False
     end.
Proof.
  unfold holder_ok.
  destruct (dict_get "patterns" ms) as [[|b|z|v sh|s|l|gs]|]; simpl; try done.
  - destruct s as [|c s]; simpl; done.
  - split; [|by intros ->].
    destruct (dict_keys gs) as [|k ks] eqn:E; [|done]. intros _.
    by apply dict_keys_nil.
Qed.

(** X6. The loader returns exactly on the catalogs it accepts: with no
    index; with an index whose reading or parsing raised a JSON or key
    error; or with an index that is an object whose [categories]
    member is missing, falsy or an object, and whose [patterns] member
    (also that of every object under [categories]) is missing, a list
    of accepted entries, the empty string or the empty object. An
    accepted entry is an object whose [id] is missing or is anything
    but a list or an object that is not empty: a string, a number, a
    boolean and [null] are accepted. On every other catalog the loader
    raises. The entry files play no part in this. *)
Theorem loader_returns_iff (catalog_dir : Path) (cat : catalog) :
  returns (result_of (load_valid_pattern_ids catalog_dir cat))
  = loader_accepts cat
  ∧ (∀ ms, holder_ok ms = true
       ↔ match dict_get "patterns" ms with
          | None => True
          | Some (JArr l) => forallb entry_ok l = true
          | Some (JStr s) => s = EmptyString
          | Some (JObj gs) => gs = []
          | Some _ => False
          end).
Proof.
  split; [|apply holder_ok_cases].
  unfold result_of, load_valid_pattern_ids, loader_accepts.
  rewrite returns_bind.
  assert (∀ (ids : idset) c,
    returns (match patterns cat with
             | Some entries =>
                 for_ (rglob "*.yaml" (child catalog_dir "patterns") entries)
                   load_entry ids
             | None => mret ids
             end c).1 = true) as Hp.
  { intros ids c. destruct (patterns cat) as [entries|]; [|done].
    by rewrite entry_files_loop_spec. }
  destruct (index_json cat) as [[data|e]|].
  - unfold try_except.
    pose proof (returns_load_index ∅ data empty_console) as Hr.
    destruct (load_index ∅ (Return data) empty_console) as [[ids|e] c1] eqn:E;
      simpl in Hr; rewrite <- Hr; [apply Hp|].
    apply load_index_fault in E as [-> | ->]; done.
  - unfold load_index, try_except. run_m.
    destruct (is_json_or_key_error e); [apply Hp|done].
  - run_m. apply Hp.
Qed.

(** ** The names the walk selects *)

Section Glob.

Lemma fnmatch_star_cons p c s :
  fnmatch (String "*" p) (String c s)
  = fnmatch p (String c s) || fnmatch (String "*" p) s.
Proof. reflexivity. Qed.

Lemma fnmatch_star_nil p :
  fnmatch (String "*" p) EmptyString = fnmatch p EmptyString.
Proof. simpl. by rewrite orb_false_r. Qed.

(** A pattern without wildcard matches itself only. *)
Lemma fnmatch_literal pat : ∀ nm,
  str_forall (λ c, negb (Ascii.eqb c "*")) pat = true →
  fnmatch pat nm = String.eqb pat nm.
Proof.
  induction pat as [|c pat IH]; intros nm Hp; [by destruct nm|].
  simpl in Hp. apply andb_true_iff in Hp as [Hc Hp].
  destruct nm as [|c' nm].
  - by destruct c as [[] [] [] [] [] [] [] []].
  - assert (fnmatch (String c pat) (String c' nm)
            = Ascii.eqb c c' && fnmatch pat nm) as ->.
    { by destruct c as [[] [] [] [] [] [] [] []]. }
    rewrite (IH nm Hp). reflexivity.
Qed.

Lemma fnmatch_yaml nm :
  fnmatch "*.yaml" nm = true ↔ ∃ x, nm = x +:+ ".yaml".
Proof.
  split.
  - induction nm as [|c nm IH].
    + rewrite fnmatch_star_nil. done.
    + rewrite fnmatch_star_cons. intros [H|H]%orb_true_iff.
      * rewrite fnmatch_literal in H by done.
        apply String.eqb_eq in H. by exists EmptyString.
      * destruct (IH H) as [x ->]. by exists (String c x).
  - intros [x ->]. induction x as [|c x IH]; [done|].
    rewrite str_app_cons, fnmatch_star_cons, IH. apply orb_true_r.
Qed.

Lemma fnmatch_plan nm : fnmatch "plan.md" nm = true ↔ nm = "plan.md".
Proof.
  rewrite fnmatch_literal by done. rewrite String.eqb_eq. split; congruence.
Qed.

Lemma rfind_dot_yaml x : ∀ i,
  rfind_dot_from i (x +:+ ".yaml") = Some (i + String.length x)%nat.
Proof.
  induction x as [|c x IH]; intros i.
  - rewrite str_app_nil_l. simpl. f_equal. lia.
  - rewrite str_app_cons. simpl. rewrite IH. f_equal. lia.
Qed.

Lemma stem_yaml x :
  stem_of_name (x +:+ ".yaml")
  = if String.eqb x EmptyString then ".yaml" else x.
Proof.
  unfold stem_of_name. rewrite rfind_dot_yaml. simpl.
  destruct x as [|c x]; [done|].
  rewrite take_str_app, str_app_length.
  assert ((0 <? String.length (String c x))%nat = true) as ->
    by (apply Nat.ltb_lt; simpl; lia).
  assert ((String.length (String c x)
           <? String.length (String c x) + String.length ".yaml" - 1)%nat = true)
    as -> by (apply Nat.ltb_lt; simpl; lia).
  done.
Qed.

Lemma name_nonempty_split (p : Path) :
  name p ≠ EmptyString → ∃ dirs, p = dirs ++ [name p].
Proof.
  unfold name. induction p as [|x p IH]; [done|]. intros H.
  destruct p as [|y p]; [by exists []|].
  destruct IH as [dirs E]; [done|]. exists (x :: dirs). simpl in *. by rewrite <- E.
Qed.

End Glob.

(** X7. The loader visits the paths below [patterns] whose name ends in
    [.yaml], and nothing else; the base name it adds for the file
    [x.yaml] is [x], dots in [x] kept, and for a file named just
    [.yaml] the whole name. *)
Theorem entry_file_base_names (catalog_dir : Path) (cat : catalog)
    (f : Path * outcome string) :
  f ∈ entry_files catalog_dir cat →
  ∃ dirs x,
    f.1 = child catalog_dir "patterns" ++ dirs ++ [x +:+ ".yaml"]
    ∧ stem f.1 = (if String.eqb x EmptyString then ".yaml" else x).
Proof.
  unfold entry_files. destruct (patterns cat) as [entries|];
    [|by intros H; apply elem_of_nil in H].
  intros Hf. apply rglob_under in Hf as (e & _ & -> & Hm). simpl.
  destruct (proj1 (fnmatch_yaml _) Hm) as [x Hx].
  assert (name (rel e) ≠ EmptyString) as Hne by (rewrite Hx; by destruct x).
  destruct (name_nonempty_split (rel e) Hne) as [dirs Hd].
  exists dirs, x. rewrite Hx in Hd. split; [by rewrite Hd at 1|].
  unfold stem. rewrite name_app by (intros E; by rewrite E in Hne).
  rewrite Hx. apply stem_yaml.
Qed.

Lemma entry_file_base_names_witness :
  ∃ dirs x,
    ["/"; "repo"; "catalog"; "patterns"; "a"; "file-one.yaml"]
    = child (child repo "catalog") "patterns" ++ dirs ++ [x +:+ ".yaml"]
    ∧ stem ["/"; "repo"; "catalog"; "patterns"; "a"; "file-one.yaml"]
      = (if String.eqb x EmptyString then ".yaml" else x).
Proof.
  apply (entry_file_base_names (child repo "catalog") mixed_catalog
           (["/"; "repo"; "catalog"; "patterns"; "a"; "file-one.yaml"],
            Return ("id: declared-one" +:+ nl))).
  vm_compute. left.
Defined.

(** X8. Every collected reference names a document the walk selected
    by its name: below [manifests] a path whose name ends in [.yaml],
    below [specs] a path whose name is exactly [plan.md]. *)
Theorem reference_sources (fs : project) (r : Reference) :
  r ∈ collected fs →
  (∃ dirs x,
     r.1 = project_root fs ++ "manifests" :: dirs ++ [x +:+ ".yaml"])
  ∨ (∃ dirs, r.1 = project_root fs ++ "specs" :: dirs ++ ["plan.md"]).
Proof.
  unfold collected, manifest_refs, plan_refs. rewrite elem_of_app.
  intros [H|H].
  - left. destruct (manifests_tree fs) as [entries|]; [|by apply elem_of_nil in H].
    apply list_elem_of_bind in H as (f & H & Hf).
    apply rglob_under in Hf as (e & _ & -> & Hm).
    unfold refs_of in H. simpl in H. destruct (text e); [|by apply elem_of_nil in H].
    apply manifest_doc_refs_doc in H.
    destruct (proj1 (fnmatch_yaml _) Hm) as [x Hx].
    assert (name (rel e) ≠ EmptyString) as Hne by (rewrite Hx; by destruct x).
    destruct (name_nonempty_split (rel e) Hne) as [dirs Hd].
    exists dirs, x. etrans; [exact H|]. unfold child.
    rewrite <- app_assoc. simpl. rewrite Hd at 1. by rewrite Hx.
  - right. destruct (specs_tree fs) as [entries|]; [|by apply elem_of_nil in H].
    apply list_elem_of_bind in H as (f & H & Hf).
    apply rglob_under in Hf as (e & _ & -> & Hm).
    unfold refs_of in H. simpl in H. destruct (text e); [|by apply elem_of_nil in H].
    apply pattern_refs_doc in H.
    apply fnmatch_plan in Hm.
    assert (name (rel e) ≠ EmptyString) as Hne by (by rewrite Hm).
    destruct (name_nonempty_split (rel e) Hne) as [dirs Hd].
    exists dirs. etrans; [exact H|]. unfold child.
    rewrite <- app_assoc. simpl. rewrite Hd at 1. by rewrite Hm.
Qed.

Lemma reference_sources_witness :
  (∃ dirs x,
     ["/"; "repo"; "specs"; "001"; "plan.md"]
     = repo ++ "manifests" :: dirs ++ [x +:+ ".yaml"])
  ∨ (∃ dirs, ["/"; "repo"; "specs"; "001"; "plan.md"]
             = repo ++ "specs" :: dirs ++ ["plan.md"]).
Proof.
  apply (reference_sources scenario_c (["/"; "repo"; "specs"; "001"; "plan.md"], "bar-baz")).
  vm_compute. left.
Defined.

(** ** Reconciliation against a larger catalog, and in parts *)

Lemma filter_weaken {A} (P Q : A → Prop)
    `{∀ x, Decision (P x)} `{∀ x, Decision (Q x)} (l : list A) :
  (∀ x, P x → Q x) → filter P l = filter P (filter Q l).
Proof.
  intros HPQ. induction l as [|x l IH]; [done|].
  rewrite !filter_cons. destruct (decide (P x)) as [Hp|Hp].
  - rewrite decide_True by auto. rewrite filter_cons.
    rewrite decide_True by done. by rewrite IH.
  - destruct (decide (Q x)); [|done].
    rewrite filter_cons. by rewrite decide_False by done.
Qed.

(** X9. Failures only shrink when the catalog grows: against a valid
    set that contains another, the failures are those of the smaller
    set that are still unknown, in the same order; so a run without
    failures stays without failures. Only the strings of the sets
    count: no reference is a number. *)
Theorem failures_shrink (used : list Reference) (valid valid' : idset) :
  (∀ s : string, s ∈ valid → s ∈ valid') →
  find_errors used valid'
  = filter (λ r : Reference, r.2 ∉ valid') (find_errors used valid)
  ∧ sublist (find_errors used valid') (find_errors used valid)
  ∧ (find_errors used valid = [] → find_errors used valid' = []).
Proof.
  intros Hsub.
  assert (find_errors used valid'
          = filter (λ r : Reference, r.2 ∉ valid') (find_errors used valid)) as E.
  { rewrite !find_errors_filter. apply filter_weaken.
    intros r Hr Hin. by apply Hr, Hsub. }
  split; [done|]. split.
  - rewrite E. apply sublist_filter.
  - intros H. by rewrite E, H.
Qed.

Lemma failures_shrink_witness :
  find_errors [(["app.yaml"], "a"); (["app.yaml"], "b"); (["plan.md"], "a")]
    (IdSet {[ "a" ]} [NInt 5])
  = filter (λ r : Reference, r.2 ∉ IdSet {[ "a" ]} [NInt 5])
      (find_errors [(["app.yaml"], "a"); (["app.yaml"], "b"); (["plan.md"], "a")] ∅).
Proof.
  apply (failures_shrink _ ∅ (IdSet {[ "a" ]} [NInt 5])).
  intros s Hs. by apply elem_of_idset, elem_of_empty in Hs.
Defined.

(** X10. The validation loop works reference by reference: the failures
    of two sequences put end to end are the failures of the first
    followed by those of the second. For a run, every failure found in
    a manifest comes before every failure found in a plan. *)
Theorem failures_in_parts (fs : project) (used1 used2 : list Reference)
    (valid : idset) :
  find_errors (used1 ++ used2) valid
  = find_errors used1 valid ++ find_errors used2 valid
  ∧ find_errors (collected fs) valid
    = find_errors (manifest_refs (child (project_root fs) "manifests")
                     (manifests_tree fs)) valid
      ++ find_errors (plan_refs (child (project_root fs) "specs")
                        (specs_tree fs)) valid.
Proof.
  assert (∀ a b : list Reference,
    find_errors (a ++ b) valid = find_errors a valid ++ find_errors b valid) as H.
  { intros a b. rewrite !find_errors_filter. apply filter_app. }
  split; [apply H|]. unfold collected. apply H.
Qed.

(** ** What the line patterns match *)

Section LineShapes.

Lemma matches_cat_app f (l1 l2 : list regex) : ∀ prev w rest cs cs',
  matches f (cat (l1 ++ l2)) prev w rest cs cs' →
  ∃ w1 w2 cs1, w = w1 +:+ w2
    ∧ matches f (cat l1) prev w1 (w2 +:+ rest) cs cs1
    ∧ matches f (cat l2) (last_char prev w1) w2 rest cs1 cs'.
Proof.
  induction l1 as [|a l1 IH]; intros prev w rest cs cs' M.
  - exists EmptyString, w, cs. simpl. auto.
  - unfold cat in M. simpl in M. fold (cat (l1 ++ l2)) in M.
    destruct M as (wa & wb & ca & -> & Ma & M).
    apply IH in M as (w1 & w2 & cs1 & -> & M1 & M2).
    exists (wa +:+ w1), w2, cs1. rewrite str_app_assoc, last_char_app.
    split; [done|]. split; [|done].
    unfold cat. simpl. fold (cat l1). exists wa, w1, ca.
    rewrite str_app_assoc in Ma. auto.
Qed.

Lemma matches_lits_exact f x : ∀ prev w rest cs cs',
  ignorecase f = false →
  matches f (lits x) prev w rest cs cs' → w = x ∧ cs' = cs.
Proof.
  intros prev w rest cs cs' Hf. revert prev w.
  induction x as [|a x IH]; intros prev w M; simpl in M.
  - by destruct M as [-> ->].
  - destruct M as (w1 & w2 & cs1 & -> & (c & -> & Hc & ->) & M).
    apply IH in M as [-> ->]. split; [|done].
    unfold one_ok, fold_case in Hc. rewrite Hf in Hc.
    apply Ascii.eqb_eq in Hc as ->. done.
Qed.

Lemma quote_char c : one_ok MULTILINE quote c = true →
  opt_quote (String c EmptyString) = true.
Proof. by destruct c as [[] [] [] [] [] [] [] []]. Qed.

(** The tail the line patterns share reads a value and binds group 1. *)
Lemma value_tail_occurrence prev v rest cs cs' :
  matches MULTILINE (cat value_tail) prev v rest cs cs' →
  ∃ pid, cs' = (1%nat, pid) :: cs ∧ value_occurrence v pid rest.
Proof.
  unfold value_tail, cat. cbn [fold_right matches].
  intros (s1 & t1 & c1 & -> & (H1 & ->) & M).
  destruct M as (q1 & t2 & c2 & -> & (Hq1 & ->) & M).
  destruct M as (pid & t3 & c3 & -> & (c3' & (Hne & Hid & ->) & ->) & M).
  destruct M as (q2 & t4 & c4 & -> & (Hq2 & ->) & M).
  destruct M as (s2 & t5 & c5 & -> & (H2 & ->) & M).
  destruct M as (w6 & t6 & c6 & -> & (-> & He & ->) & (-> & ->)).
  exists pid. split; [done|]. exists s1, q1, q2, s2.
  rewrite !str_app_nil_r. split; [done|]. split; [done|].
  split; [by destruct Hq1 as [->|(c & -> & Hc)]; [|apply quote_char]|].
  split.
  { apply is_identifier_intro; [done|]. by rewrite <- (ident_case_sensitive MULTILINE). }
  split; [by destruct Hq2 as [->|(c & -> & Hc)]; [|apply quote_char]|].
  rewrite str_app_nil_l in He. done.
Qed.

Lemma lit_exact (a c : ascii) : one_ok MULTILINE (Lit a) c = true → c = a.
Proof. unfold one_ok, fold_case. simpl. by intros ->%Ascii.eqb_eq. Qed.

(** What a line pattern matches is a line of that pattern. *)
Lemma line_pattern_occurrence r before w rest cs :
  line_pattern r →
  matches MULTILINE r (last_char None before) w rest [] cs →
  line_occurrence r before w (group 1 cs) rest.
Proof.
  intros Hr M. unfold line_occurrence, line_start.
  destruct Hr as [->|[->|[->| ->]]].
  - unfold id_decl_re in M.
    change ([Bol; lits "id:"] ++ value_tail)
      with ([Bol] ++ ([lits "id:"] ++ value_tail)) in M.
    apply matches_cat_app in M as (w0 & w' & c0 & -> & M0 & M).
    unfold cat in M0. cbn [fold_right matches] in M0.
    destruct M0 as (? & ? & ? & -> & (-> & Hb & ->) & (-> & ->)).
    apply matches_cat_app in M as (k & v & c1 & -> & Mk & Mv).
    unfold cat in Mk. cbn [fold_right matches] in Mk.
    destruct Mk as (k1 & ? & ? & -> & Mk & (-> & ->)).
    apply matches_lits_exact in Mk as [-> ->]; [|done].
    apply value_tail_occurrence in Mv as (pid & -> & Hv).
    split; [done|]. exists "id:", v. rewrite !str_app_nil_l, !str_app_nil_r.
    split; [done|]. split; [by left|]. done.
  - unfold list_item_re in M.
    change ([Bol; Star Space; One (Lit "-"); Star Space; lits "id:"] ++ value_tail)
      with ([Bol] ++ ([Star Space; One (Lit "-"); Star Space; lits "id:"]
                      ++ value_tail)) in M.
    apply matches_cat_app in M as (w0 & w' & c0 & -> & M0 & M).
    unfold cat in M0. cbn [fold_right matches] in M0.
    destruct M0 as (? & ? & ? & -> & (-> & Hb & ->) & (-> & ->)).
    apply matches_cat_app in M as (k & v & c1 & -> & Mk & Mv).
    unfold cat in Mk. cbn [fold_right matches] in Mk.
    destruct Mk as (s0 & ? & ? & -> & (H0 & ->) & Mk).
    destruct Mk as (d & ? & ? & -> & (c & -> & Hc & ->) & Mk).
    destruct Mk as (s1 & ? & ? & -> & (H1 & ->) & Mk).
    destruct Mk as (k1 & ? & ? & -> & Mk & (-> & ->)).
    apply matches_lits_exact in Mk as [-> ->]; [|done].
    apply lit_exact in Hc as ->.
    apply value_tail_occurrence in Mv as (pid & -> & Hv).
    split; [done|]. exists (s0 +:+ "-" +:+ s1 +:+ "id:"), v.
    rewrite !str_app_nil_l, !str_app_nil_r.
    split; [done|]. split; [|done]. right. left. split; [done|].
    by exists s0, s1.
  - unfold pattern_id_re in M.
    change ([Bol; Star Space; lits "pattern_id:"] ++ value_tail)
      with ([Bol] ++ ([Star Space; lits "pattern_id:"] ++ value_tail)) in M.
    apply matches_cat_app in M as (w0 & w' & c0 & -> & M0 & M).
    unfold cat in M0. cbn [fold_right matches] in M0.
    destruct M0 as (? & ? & ? & -> & (-> & Hb & ->) & (-> & ->)).
    apply matches_cat_app in M as (k & v & c1 & -> & Mk & Mv).
    unfold cat in Mk. cbn [fold_right matches] in Mk.
    destruct Mk as (s0 & ? & ? & -> & (H0 & ->) & Mk).
    destruct Mk as (k1 & ? & ? & -> & Mk & (-> & ->)).
    apply matches_lits_exact in Mk as [-> ->]; [|done].
    apply value_tail_occurrence in Mv as (pid & -> & Hv).
    split; [done|]. exists (s0 +:+ "pattern_id:"), v.
    rewrite !str_app_nil_l, !str_app_nil_r.
    split; [done|]. split; [|done]. right. right. left. split; [done|].
    by exists s0.
  - unfold provider_re in M.
    change ([Bol; Star Space; lits "provider:"] ++ value_tail)
      with ([Bol] ++ ([Star Space; lits "provider:"] ++ value_tail)) in M.
    apply matches_cat_app in M as (w0 & w' & c0 & -> & M0 & M).
    unfold cat in M0. cbn [fold_right matches] in M0.
    destruct M0 as (? & ? & ? & -> & (-> & Hb & ->) & (-> & ->)).
    apply matches_cat_app in M as (k & v & c1 & -> & Mk & Mv).
    unfold cat in Mk. cbn [fold_right matches] in Mk.
    destruct Mk as (s0 & ? & ? & -> & (H0 & ->) & Mk).
    destruct Mk as (k1 & ? & ? & -> & Mk & (-> & ->)).
    apply matches_lits_exact in Mk as [-> ->]; [|done].
    apply value_tail_occurrence in Mv as (pid & -> & Hv).
    split; [done|]. exists (s0 +:+ "provider:"), v.
    rewrite !str_app_nil_l, !str_app_nil_r.
    split; [done|]. split; [|done]. right. right. right. split; [done|].
    by exists s0.
Qed.

(** A result of a scan, with the text before it. *)
Lemma finditer_from_at f r cs : ∀ s prev skip,
  cs ∈ finditer_from f r prev s skip →
  ∃ before w rest,
    s = before +:+ w +:+ rest ∧ matches f r (last_char prev before) w rest [] cs.
Proof.
  induction s as [|c s IH]; intros prev skip H.
  - destruct skip; simpl in H; [|by apply elem_of_nil in H].
    destruct (match_here f r prev EmptyString) as [[s' cs']|] eqn:Hm;
      [|by apply elem_of_nil in H].
    apply list_elem_of_singleton in H as ->.
    apply match_here_sound in Hm as (w & E & M).
    by exists EmptyString, w, s'.
  - assert (∀ n, cs ∈ finditer_from f r (Some c) s n →
              ∃ before w rest, String c s = before +:+ w +:+ rest
                ∧ matches f r (last_char prev before) w rest [] cs) as Hstep.
    { intros n Hn. apply IH in Hn as (before & w & rest & -> & M).
      by exists (String c before), w, rest. }
    destruct skip; simpl in H; [|by eapply Hstep].
    destruct (match_here f r prev (String c s)) as [[s' cs']|] eqn:Hm.
    + apply elem_of_cons in H as [->|H]; [|by eapply Hstep].
      apply match_here_sound in Hm as (w & E & M).
      by exists EmptyString, w, s'.
    + by eapply Hstep.
Qed.

(** The first match of a search, with the text before it. *)
Lemma search_from_at f r cs : ∀ s prev,
  search_from f r prev s = Some cs →
  ∃ before w rest,
    s = before +:+ w +:+ rest ∧ matches f r (last_char prev before) w rest [] cs.
Proof.
  induction s as [|c s IH]; intros prev H; simpl in H.
  - destruct (match_here f r prev EmptyString) as [[s' cs']|] eqn:Hm; [|done].
    injection H as ->. apply match_here_sound in Hm as (w & E & M).
    by exists EmptyString, w, s'.
  - destruct (match_here f r prev (String c s)) as [[s' cs']|] eqn:Hm.
    + injection H as ->. apply match_here_sound in Hm as (w & E & M).
      by exists EmptyString, w, s'.
    + apply IH in H as (before & w & rest & -> & M).
      by exists (String c before), w, rest.
Qed.

End LineShapes.

(** ** A line at the cursor is matched *)

Section LineMatch.
Context {R : Type} (f : flags).
Implicit Types (k : @cont R) (prev : option ascii) (s w rest : string) (cs : caps).

Lemma star_ext o s : ∀ prev cs k k',
  (∀ p s' cs', k p s' cs' = k' p s' cs') →
  star f o prev s cs k = star f o prev s cs k'.
Proof.
  induction s as [|c s IH]; intros prev cs k k' Hk; simpl; [apply Hk|].
  destruct (one_ok f o c); [|apply Hk].
  rewrite (IH (Some c) cs k k' Hk). by rewrite Hk.
Qed.

(** Continuations that agree give the same result. *)
Lemma rmatch_ext r : ∀ prev s cs k k',
  (∀ p s' cs', k p s' cs' = k' p s' cs') →
  rmatch f r prev s cs k = rmatch f r prev s cs k'.
Proof.
  induction r as [|o|o|o|o|r1 IH1 r2 IH2|r1 IH1 r2 IH2|n r1 IH1| |];
    intros prev s cs k k' Hk; simpl.
  - apply Hk.
  - destruct s as [|c s]; [done|]. destruct (one_ok f o c); [apply Hk|done].
  - by apply star_ext.
  - destruct s as [|c s]; [done|]. destruct (one_ok f o c); [|done].
    by apply star_ext.
  - destruct s as [|c s]; [apply Hk|]. destruct (one_ok f o c); [|apply Hk].
    by rewrite !Hk.
  - apply IH1. intros p s' cs'. by apply IH2.
  - by rewrite (IH1 prev s cs k k' Hk), (IH2 prev s cs k k' Hk).
  - apply IH1. intros p s' cs'. apply Hk.
  - destruct (at_bol f prev); [apply Hk|done].
  - destruct (at_eol f s); [apply Hk|done].
Qed.

Lemma rmatch_cat_app (l1 l2 : list regex) : ∀ prev s cs k,
  rmatch f (cat (l1 ++ l2)) prev s cs k
  = rmatch f (cat l1) prev s cs (λ p s' cs', rmatch f (cat l2) p s' cs' k).
Proof.
  induction l1 as [|a l1 IH]; intros prev s cs k; [done|].
  unfold cat. simpl. fold (cat (l1 ++ l2)) (cat l1).
  apply rmatch_ext. intros p s' cs'. apply IH.
Qed.

Lemma lits_self x : ∀ prev rest cs k,
  rmatch f (lits x) prev (x +:+ rest) cs k = k (last_char prev x) rest cs.
Proof.
  intros prev rest cs k. apply lits_take; [done|].
  intros i a b Ha Hb. rewrite Ha in Hb. injection Hb as <-.
  simpl. apply Ascii.eqb_refl.
Qed.

(** The repetition succeeds as soon as what follows succeeds where it
    stands. *)
Lemma star_some o s prev cs k :
  is_Some (k prev s cs) → is_Some (star f o prev s cs k).
Proof.
  intros Hk. destruct s as [|c s]; simpl; [done|].
  destruct (one_ok f o c); [|done].
  by destruct (star f o (Some c) s cs k).
Qed.

(** The repetition succeeds when what follows succeeds after some of
    the characters it can take. *)
Lemma star_exists o w : ∀ prev rest cs k,
  str_forall (one_ok f o) w = true →
  is_Some (k (last_char prev w) rest cs) →
  is_Some (star f o prev (w +:+ rest) cs k).
Proof.
  induction w as [|c w IH]; intros prev rest cs k Hw Hk.
  - by apply star_some.
  - rewrite str_app_cons. simpl in *. apply andb_true_iff in Hw as [Hc Hw].
    rewrite Hc. destruct (IH (Some c) rest cs k Hw Hk) as [r ->]. done.
Qed.

Lemma rmatch_bol prev s cs k :
  at_bol f prev = true → rmatch f Bol prev s cs k = k prev s cs.
Proof. intros H. simpl. by rewrite H. Qed.

Lemma opt_skip o prev s cs k :
  stops f o s = true → rmatch f (Opt o) prev s cs k = k prev s cs.
Proof.
  intros Hs. destruct s as [|c s]; simpl; [done|].
  simpl in Hs. apply negb_true_iff in Hs. by rewrite Hs.
Qed.

Lemma opt_take o c prev s cs k res :
  one_ok f o c = true →
  k (Some c) s cs = Some res →
  rmatch f (Opt o) prev (String c s) cs k = Some res.
Proof. intros Hc Hk. simpl. by rewrite Hc, Hk. Qed.

End LineMatch.

Section ValueMatch.

Lemma opt_quote_cases q :
  opt_quote q = true →
  q = EmptyString
  ∨ ∃ c, q = String c EmptyString ∧ one_ok MULTILINE quote c = true
         ∧ isspace c = false ∧ one_ok MULTILINE ident_char c = false.
Proof.
  unfold opt_quote. intros [[H|H]%orb_true_iff|H]%orb_true_iff;
    apply String.eqb_eq in H as ->; [by left|right..].
  - by exists "034"%char.
  - by exists "'"%char.
Qed.

Lemma ident_not_space c : is_ident_char c = true → isspace c = false.
Proof. by destruct c as [[] [] [] [] [] [] [] []]. Qed.

Lemma ident_not_quote c :
  is_ident_char c = true → one_ok MULTILINE quote c = false.
Proof. by destruct c as [[] [] [] [] [] [] [] []]. Qed.

Lemma space_not_ident c :
  isspace c = true → one_ok MULTILINE ident_char c = false.
Proof. by destruct c as [[] [] [] [] [] [] [] []]. Qed.

Lemma space_not_quote c :
  isspace c = true → one_ok MULTILINE quote c = false.
Proof. by destruct c as [[] [] [] [] [] [] [] []]. Qed.

(** After the value, the head of the text is white space, a newline or
    the end: neither an identifier character nor a quote. *)
Lemma after_value_stops o s2 rest :
  (∀ c, isspace c = true → one_ok MULTILINE o c = false) →
  blank s2 = true → at_eol MULTILINE rest = true →
  stops MULTILINE o (s2 +:+ rest) = true.
Proof.
  intros Ho H2 He. destruct s2 as [|c s2].
  - rewrite str_app_nil_l. destruct rest as [|c rest]; [done|]. simpl in *.
    rewrite andb_true_r in He. apply Ascii.eqb_eq in He as ->.
    by rewrite Ho.
  - rewrite str_app_cons. simpl. unfold blank in H2. simpl in H2.
    apply andb_true_iff in H2 as [Hc _]. by rewrite Ho.
Qed.

Lemma is_identifier_elim pid :
  is_identifier pid = true →
  ∃ c p, pid = String c p ∧ is_ident_char c = true
         ∧ str_forall (one_ok MULTILINE ident_char) pid = true.
Proof.
  unfold is_identifier. intros [Hne Hall]%andb_true_iff.
  destruct pid as [|c p]; [done|]. exists c, p. split; [done|].
  simpl in Hall. apply andb_true_iff in Hall as [Hc Hp]. split; [done|].
  by rewrite ident_case_sensitive, (str_forall_app _ (String c EmptyString) p)
    by done; simpl; rewrite Hc, Hp.
Qed.

(** The end of the value: white space up to the end of some line. *)
Lemma value_end_match s2 rest prev cs :
  blank s2 = true → at_eol MULTILINE rest = true →
  ∃ s', rmatch MULTILINE (cat [Star Space; Eol]) prev (s2 +:+ rest) cs
          (λ _ s' cs', Some (s', cs'))
        = Some (s', cs).
Proof.
  intros H2 He. unfold cat. cbn [fold_right].
  rewrite rmatch_seq, rmatch_star.
  destruct (star_exists MULTILINE Space s2 prev rest cs
              (λ p s' cs', rmatch MULTILINE (Seq Eol Eps) p s' cs'
                             (λ _ s'' cs'', Some (s'', cs''))) H2)
    as [[s' cs'] Hs].
  { simpl. by rewrite He. }
  rewrite Hs. exists s'. f_equal. f_equal.
  apply star_sound in Hs as (w & t & _ & _ & Hk). simpl in Hk.
  destruct (at_eol MULTILINE t); [|done]. by injection Hk as _ <-.
Qed.

(** A value at the cursor is read, and its identifier bound. *)
Lemma value_tail_match v pid rest prev cs :
  value_occurrence v pid rest →
  ∃ s', rmatch MULTILINE (cat value_tail) prev (v +:+ rest) cs
          (λ _ s' cs', Some (s', cs'))
        = Some (s', (1%nat, pid) :: cs).
Proof.
  intros (s1 & q1 & q2 & s2 & -> & H1 & Hq1 & Hp & Hq2 & H2 & He).
  destruct (is_identifier_elim pid Hp) as (c0 & p0 & Epid & Hc0 & Hid).
  rewrite !str_app_assoc.
  change value_tail
    with ([Star Space; Opt quote; Group 1 (Plus ident_char); Opt quote]
          ++ [Star Space; Eol]).
  rewrite rmatch_cat_app. unfold cat at 1. cbn [fold_right].
  (* the text after the identifier: a quote or not, then the end *)
  assert (∀ p, ∃ s', rmatch MULTILINE (Opt quote) p (q2 +:+ s2 +:+ rest)
                       ((1%nat, pid) :: cs)
                       (λ p' s'' cs'', rmatch MULTILINE Eps p' s'' cs''
                          (λ p0 s0 cs0, rmatch MULTILINE (cat [Star Space; Eol])
                             p0 s0 cs0 (λ _ s3 cs3, Some (s3, cs3))))
                     = Some (s', (1%nat, pid) :: cs)) as Hq2m.
  { intros p. destruct (opt_quote_cases q2 Hq2) as [->|(c & -> & Hc & _ & _)].
    - rewrite str_app_nil_l, opt_skip
        by (apply after_value_stops; auto using space_not_quote).
      rewrite rmatch_eps. apply value_end_match; done.
    - rewrite str_app_cons, str_app_nil_l.
      destruct (value_end_match s2 rest (Some c) ((1%nat, pid) :: cs) H2 He)
        as [s' Hs].
      exists s'. apply opt_take; [done|]. by rewrite rmatch_eps. }
  assert (stops MULTILINE ident_char (q2 +:+ s2 +:+ rest) = true) as Hstop.
  { destruct (opt_quote_cases q2 Hq2) as [->|(c & -> & _ & _ & Hc)].
    - rewrite str_app_nil_l. apply after_value_stops; auto using space_not_ident.
    - rewrite str_app_cons. unfold stops. by rewrite Hc. }
  (* the identifier, bound by the group *)
  assert (∀ p, ∃ s', rmatch MULTILINE
                       (Seq (Group 1 (Plus ident_char)) (Seq (Opt quote) Eps))
                       p (pid +:+ q2 +:+ s2 +:+ rest) cs
                       (λ p0 s0 cs0, rmatch MULTILINE (cat [Star Space; Eol])
                          p0 s0 cs0 (λ _ s3 cs3, Some (s3, cs3)))
                     = Some (s', (1%nat, pid) :: cs)) as Hidm.
  { intros p. destruct (Hq2m (last_char p pid)) as [s' Hs]. exists s'.
    rewrite rmatch_seq, rmatch_group.
    apply plus_take; [by rewrite Epid|done|done|]. cbv beta.
    rewrite consumed_app, rmatch_seq. exact Hs. }
  (* the opening quote, or none *)
  assert (∀ p, ∃ s', rmatch MULTILINE
                       (Seq (Opt quote)
                          (Seq (Group 1 (Plus ident_char)) (Seq (Opt quote) Eps)))
                       p (q1 +:+ pid +:+ q2 +:+ s2 +:+ rest) cs
                       (λ p0 s0 cs0, rmatch MULTILINE (cat [Star Space; Eol])
                          p0 s0 cs0 (λ _ s3 cs3, Some (s3, cs3)))
                     = Some (s', (1%nat, pid) :: cs)) as Hq1m.
  { intros p. rewrite rmatch_seq.
    destruct (opt_quote_cases q1 Hq1) as [->|(c & -> & Hc & _ & _)].
    - rewrite str_app_nil_l, opt_skip; [apply Hidm|].
      rewrite Epid, str_app_cons. unfold stops.
      by rewrite (ident_not_quote c0 Hc0).
    - rewrite str_app_cons, str_app_nil_l.
      destruct (Hidm (Some c)) as [s' Hs]. exists s'. by apply opt_take. }
  destruct (Hq1m (last_char prev s1)) as [s' Hs]. exists s'.
  rewrite rmatch_seq, rmatch_star. apply star_take; [exact H1| |exact Hs].
  destruct (opt_quote_cases q1 Hq1) as [->|(c & -> & _ & Hc & _)].
  - rewrite str_app_nil_l, Epid, str_app_cons. unfold stops, one_ok.
    by rewrite (ident_not_space c0 Hc0).
  - rewrite str_app_cons. unfold stops, one_ok. by rewrite Hc.
Qed.

End ValueMatch.

Section LineAtCursor.

(** A line of a pattern at the start of a line is matched, and binds
    its identifier. *)
Lemma line_match r k v pid rest prev :
  key_occurrence r k → value_occurrence v pid rest →
  at_bol MULTILINE prev = true →
  ∃ s', match_here MULTILINE r prev (k +:+ v +:+ rest) = Some (s', [(1%nat, pid)]).
Proof.
  intros Hk Hv Hb. unfold match_here.
  destruct Hk as [[-> ->]|[(-> & s0 & s1 & H0 & H1 & ->)
                          |[(-> & s0 & H0 & ->)|(-> & s0 & H0 & ->)]]].
  - destruct (value_tail_match v pid rest (last_char prev "id:") [] Hv) as [s' Hs].
    exists s'. unfold id_decl_re. rewrite rmatch_cat_app.
    unfold cat at 1. cbn [fold_right].
    rewrite rmatch_seq, rmatch_bol by done. cbv beta.
    rewrite rmatch_seq, lits_self. by rewrite rmatch_eps.
  - destruct (value_tail_match v pid rest
                (last_char prev (s0 +:+ "-" +:+ s1 +:+ "id:")) [] Hv) as [s' Hs].
    exists s'. unfold list_item_re. rewrite rmatch_cat_app.
    unfold cat at 1. cbn [fold_right]. rewrite !str_app_assoc.
    rewrite rmatch_seq, rmatch_bol by done. cbv beta.
    rewrite rmatch_seq, rmatch_star. apply star_take; [exact H0|done|]. cbv beta.
    rewrite (str_app_cons "-" EmptyString), str_app_nil_l.
    rewrite rmatch_seq, rmatch_one by done. cbv beta.
    rewrite rmatch_seq, rmatch_star. apply star_take; [exact H1|done|]. cbv beta.
    rewrite rmatch_seq, lits_self, rmatch_eps.
    rewrite !last_char_app in Hs. exact Hs.
  - destruct (value_tail_match v pid rest
                (last_char prev (s0 +:+ "pattern_id:")) [] Hv) as [s' Hs].
    exists s'. unfold pattern_id_re. rewrite rmatch_cat_app.
    unfold cat at 1. cbn [fold_right]. rewrite !str_app_assoc.
    rewrite rmatch_seq, rmatch_bol by done. cbv beta.
    rewrite rmatch_seq, rmatch_star. apply star_take; [exact H0|done|]. cbv beta.
    rewrite rmatch_seq, lits_self, rmatch_eps.
    rewrite !last_char_app in Hs. exact Hs.
  - destruct (value_tail_match v pid rest
                (last_char prev (s0 +:+ "provider:")) [] Hv) as [s' Hs].
    exists s'. unfold provider_re. rewrite rmatch_cat_app.
    unfold cat at 1. cbn [fold_right]. rewrite !str_app_assoc.
    rewrite rmatch_seq, rmatch_bol by done. cbv beta.
    rewrite rmatch_seq, rmatch_star. apply star_take; [exact H0|done|]. cbv beta.
    rewrite rmatch_seq, lits_self, rmatch_eps.
    rewrite !last_char_app in Hs. exact Hs.
Qed.

End LineAtCursor.

(** ** Lines of entry files and manifests *)

(** A reference of a line pattern is taken from a line of the text. *)
Lemma pattern_refs_lines (re : regex) (doc : Path) (content : string)
    (r : Reference) :
  line_pattern re →
  r ∈ pattern_refs MULTILINE re doc content →
  r.1 = doc
  ∧ ∃ before w rest,
      content = before +:+ w +:+ rest ∧ line_occurrence re before w r.2 rest.
Proof.
  intros Hre Hr. unfold pattern_refs, finditer in Hr.
  apply list_elem_of_fmap in Hr as (cs & -> & Hcs).
  apply finditer_from_at in Hcs as (before & w & rest & -> & M).
  split; [done|]. exists before, w, rest. split; [done|]. simpl.
  by apply line_pattern_occurrence.
Qed.

(** X11. The identifier an entry file declares is taken from a line
    that begins with [id:] in the first column, at the start of the
    text or after a newline, and holds nothing after the identifier
    and its optional quotes but white space: an indented or nested
    [id:] is not a declaration. *)
Theorem declared_id_line (content pid : string) :
  declared_id content = Some pid →
  ∃ before v rest,
    content = before +:+ "id:" +:+ v +:+ rest
    ∧ line_start before = true ∧ value_occurrence v pid rest.
Proof.
  unfold declared_id, search. intros H.
  destruct (search_from MULTILINE id_decl_re None content) as [cs|] eqn:Hs;
    [|done].
  injection H as <-.
  apply search_from_at in Hs as (before & w & rest & -> & M).
  apply line_pattern_occurrence in M; [|by left].
  destruct M as (Hb & k & v & -> & Hk & Hv).
  destruct Hk as [[_ ->]|[[E _]|[[E _]|[E _]]]]; try done.
  exists before, v, rest. by rewrite str_app_assoc.
Qed.

Lemma declared_id_line_witness :
  ∃ before v rest,
    "name: x" +:+ nl +:+ "id: abc-1" +:+ nl = before +:+ "id:" +:+ v +:+ rest
    ∧ line_start before = true ∧ value_occurrence v "abc-1" rest.
Proof.
  apply (declared_id_line ("name: x" +:+ nl +:+ "id: abc-1" +:+ nl)).
  vm_compute. reflexivity.
Defined.


(** ** Inline lists *)

Section Strip.

Lemma lstrip_app (p : ascii → bool) (a y : string) :
  str_forall p a = true → lstrip p (a +:+ y) = lstrip p y.
Proof.
  induction a as [|c a IH]; [by rewrite str_app_nil_l|].
  rewrite str_app_cons. simpl. intros [-> Ha]%andb_true_iff. by apply IH.
Qed.

Lemma rstrip_all (p : ascii → bool) (b : string) :
  str_forall p b = true → rstrip p b = EmptyString.
Proof.
  induction b as [|c b IH]; [done|]. simpl.
  intros [-> Hb]%andb_true_iff. by rewrite IH.
Qed.

Lemma rstrip_app (p : ascii → bool) (y b : string) :
  str_forall (λ c, negb (p c)) y = true → str_forall p b = true →
  rstrip p (y +:+ b) = y.
Proof.
  intros Hy Hb. induction y as [|c y IH].
  - rewrite str_app_nil_l. by apply rstrip_all.
  - rewrite str_app_cons. simpl in *. apply andb_true_iff in Hy as [Hc Hy].
    rewrite (IH Hy). apply negb_true_iff in Hc. rewrite Hc. by destruct y.
Qed.

(** Stripping removes what surrounds a text free of the stripped
    characters. *)
Lemma strip_by_app (p : ascii → bool) (a y b : string) :
  str_forall p a = true → str_forall (λ c, negb (p c)) y = true →
  str_forall p b = true →
  strip_by p (a +:+ y +:+ b) = y.
Proof.
  intros Ha Hy Hb. unfold strip_by. rewrite lstrip_app by done.
  destruct y as [|c y].
  - rewrite str_app_nil_l, <- (str_app_nil_r b).
    by rewrite lstrip_app.
  - rewrite str_app_cons. simpl in Hy. apply andb_true_iff in Hy as [Hc Hy].
    simpl. apply negb_true_iff in Hc as Hc'. rewrite Hc'.
    rewrite <- str_app_cons. apply rstrip_app; [|done].
    simpl. by rewrite Hc, Hy.
Qed.

End Strip.

Section InlineChars.

Lemma dq_not_space c : Ascii.eqb "034" c = true → negb (isspace c) = true.
Proof. by intros <-%Ascii.eqb_eq. Qed.

Lemma sq_not_space c : Ascii.eqb "'" c = true → negb (isspace c) = true.
Proof. by intros <-%Ascii.eqb_eq. Qed.

Lemma sq_not_dq c : Ascii.eqb "'" c = true → negb (Ascii.eqb "034" c) = true.
Proof. by intros <-%Ascii.eqb_eq. Qed.

Lemma plain_not_space c : plain_char c = true → negb (isspace c) = true.
Proof. by destruct c as [[] [] [] [] [] [] [] []]. Qed.

Lemma plain_not_dq c : plain_char c = true → negb (Ascii.eqb "034" c) = true.
Proof. by destruct c as [[] [] [] [] [] [] [] []]. Qed.

Lemma plain_not_sq c : plain_char c = true → negb (Ascii.eqb "'" c) = true.
Proof. by destruct c as [[] [] [] [] [] [] [] []]. Qed.

Lemma plain_not_comma c : plain_char c = true → negb (Ascii.eqb c ",") = true.
Proof. by destruct c as [[] [] [] [] [] [] [] []]. Qed.

Lemma space_not_comma c : isspace c = true → negb (Ascii.eqb c ",") = true.
Proof. by destruct c as [[] [] [] [] [] [] [] []]. Qed.

Lemma dq_not_comma c : Ascii.eqb "034" c = true → negb (Ascii.eqb c ",") = true.
Proof. by intros <-%Ascii.eqb_eq. Qed.

Lemma sq_not_comma c : Ascii.eqb "'" c = true → negb (Ascii.eqb c ",") = true.
Proof. by intros <-%Ascii.eqb_eq. Qed.

Lemma not_bracket c :
  negb (Ascii.eqb c "]") = true →
  one_ok no_flags (NotSet [CChar "]"]) c = true.
Proof. by destruct c as [[] [] [] [] [] [] [] []]. Qed.

End InlineChars.

Section Items.

(** What [clean_item] leaves of an element as written. *)
Lemma clean_decorated (raw x : string) : decorated raw x → clean_item raw = x.
Proof.
  intros (w1 & d1 & q1 & q2 & d2 & w2 & -> & Hw1 & Hd1 & Hq1 & Hx
          & Hq2 & Hd2 & Hw2).
  apply andb_true_iff in Hx as [_ Hx].
  unfold clean_item, strip, strip_char, all_char, blank in *.
  replace (w1 +:+ d1 +:+ q1 +:+ x +:+ q2 +:+ d2 +:+ w2)
    with (w1 +:+ (d1 +:+ q1 +:+ x +:+ q2 +:+ d2) +:+ w2)
    by by rewrite !str_app_assoc.
  rewrite strip_by_app; [|done| |done].
  2:{ rewrite !str_forall_app, !andb_true_iff. repeat split.
      - by apply (str_forall_impl _ _ _ dq_not_space).
      - by apply (str_forall_impl _ _ _ sq_not_space).
      - by apply (str_forall_impl _ _ _ plain_not_space).
      - by apply (str_forall_impl _ _ _ sq_not_space).
      - by apply (str_forall_impl _ _ _ dq_not_space). }
  replace (d1 +:+ q1 +:+ x +:+ q2 +:+ d2)
    with (d1 +:+ (q1 +:+ x +:+ q2) +:+ d2)
    by by rewrite !str_app_assoc.
  rewrite strip_by_app; [|done| |done].
  2:{ rewrite !str_forall_app, !andb_true_iff. repeat split.
      - by apply (str_forall_impl _ _ _ sq_not_dq).
      - by apply (str_forall_impl _ _ _ plain_not_dq).
      - by apply (str_forall_impl _ _ _ sq_not_dq). }
  apply strip_by_app; [done| |done].
  by apply (str_forall_impl _ _ _ plain_not_sq).
Qed.

Lemma decorated_comma_free (raw x : string) :
  decorated raw x → str_forall (λ c, negb (Ascii.eqb c ",")) raw = true.
Proof.
  intros (w1 & d1 & q1 & q2 & d2 & w2 & -> & Hw1 & Hd1 & Hq1 & Hx
          & Hq2 & Hd2 & Hw2).
  apply andb_true_iff in Hx as [_ Hx].
  unfold all_char, blank in *.
  rewrite !str_forall_app, !andb_true_iff. repeat split.
  - by apply (str_forall_impl _ _ _ space_not_comma).
  - by apply (str_forall_impl _ _ _ dq_not_comma).
  - by apply (str_forall_impl _ _ _ sq_not_comma).
  - by apply (str_forall_impl _ _ _ plain_not_comma).
  - by apply (str_forall_impl _ _ _ sq_not_comma).
  - by apply (str_forall_impl _ _ _ dq_not_comma).
  - by apply (str_forall_impl _ _ _ space_not_comma).
Qed.

Lemma decorated_nonempty (raw x : string) :
  decorated raw x → x ≠ EmptyString.
Proof.
  intros (w1 & d1 & q1 & q2 & d2 & w2 & _ & _ & _ & _ & Hx & _).
  apply andb_true_iff in Hx as [Hx _]. by destruct x.
Qed.

Lemma split_comma_free (p : string) :
  str_forall (λ c, negb (Ascii.eqb c ",")) p = true → split "," p = [p].
Proof.
  induction p as [|c p IH]; [done|]. simpl.
  intros [Hc Hp]%andb_true_iff. apply negb_true_iff in Hc.
  by rewrite Hc, (IH Hp).
Qed.

Lemma split_comma_app (p t : string) :
  str_forall (λ c, negb (Ascii.eqb c ",")) p = true →
  split "," (p +:+ "," +:+ t) = p :: split "," t.
Proof.
  induction p as [|c p IH].
  - intros _. by rewrite str_app_nil_l, (str_app_cons ","), str_app_nil_l.
  - rewrite str_app_cons. simpl.
    intros [Hc Hp]%andb_true_iff. apply negb_true_iff in Hc.
    by rewrite Hc, (IH Hp).
Qed.

Lemma split_join (raws : list string) :
  raws ≠ [] →
  Forall (λ p, str_forall (λ c, negb (Ascii.eqb c ",")) p = true) raws →
  split "," (join "," raws) = raws.
Proof.
  intros Hne H. induction H as [|p ps Hp Hps IH]; [done|].
  destruct ps as [|p' ps].
  - by apply split_comma_free.
  - change (join "," (p :: p' :: ps)) with (p +:+ "," +:+ join "," (p' :: ps)).
    rewrite split_comma_app by done. by rewrite IH.
Qed.

Lemma decorated_all (raws xs : list string) :
  Forall2 decorated raws xs →
  Forall (λ p, str_forall (λ c, negb (Ascii.eqb c ",")) p = true) raws
  ∧ filter (λ item, item ≠ EmptyString) (clean_item <$> raws) = xs.
Proof.
  induction 1 as [|raw x raws xs Hd _ [IH1 IH2]]; [done|]. split.
  - constructor; [by apply (decorated_comma_free raw x)|done].
  - rewrite fmap_cons, (clean_decorated raw x Hd).
    rewrite filter_cons_True by by apply (decorated_nonempty raw x).
    by rewrite IH2.
Qed.

End Items.

(** X15. The elements of an inline list, separated by commas and each
    written with optional white space and quotes around it, are read
    in their order, without what surrounds them. *)
Theorem inline_items_decorated (raws xs : list string) :
  Forall2 decorated raws xs → inline_items (join "," raws) = xs.
Proof.
  intros H. unfold inline_items.
  destruct (decorated_all raws xs H) as [Hc Hf].
  destruct raws as [|r0 raws].
  { by apply Forall2_nil_inv_l in H as ->. }
  by rewrite split_join.
Qed.

Lemma inline_items_decorated_witness :
  inline_items (join "," [" 'file-one'"; "two "]) = ["file-one"; "two"].
Proof.
  apply (inline_items_decorated [" 'file-one'"; "two "] ["file-one"; "two"]).
  repeat constructor.
  - exists " ", EmptyString, "'", "'", EmptyString, EmptyString.
    repeat split; vm_compute; done.
  - exists EmptyString, EmptyString, EmptyString, EmptyString, EmptyString,
      " ".
    repeat split; vm_compute; done.
Defined.

(** The scan of a text that starts with an inline list. *)
Lemma inline_refs_first (doc : Path) (s1 body rest : string) :
  blank s1 = true → body ≠ EmptyString → bracket_free body = true →
  inline_refs doc ("from_catalog:" +:+ s1 +:+ "[" +:+ body +:+ "]" +:+ rest)
  = ((λ item, (doc, item)) <$> inline_items body) ++ inline_refs doc rest.
Proof.
  intros Hs Hne Hb. unfold inline_refs.
  replace ("from_catalog:" +:+ s1 +:+ "[" +:+ body +:+ "]" +:+ rest)
    with (("from_catalog:" +:+ s1 +:+ "[" +:+ body +:+ "]") +:+ rest)
    by by rewrite !str_app_assoc.
  rewrite (finditer_match_first no_flags from_catalog_re _ rest [(1%nat, body)]).
  - done.
  - done.
  - done.
  - rewrite !str_app_assoc.
    unfold match_here, from_catalog_re, cat. cbn [fold_right].
    rewrite rmatch_seq, lits_self. cbv beta.
    rewrite rmatch_seq, rmatch_star.
    apply star_take; [exact Hs|done|]. cbv beta.
    rewrite (str_app_cons "[" EmptyString), str_app_nil_l.
    rewrite rmatch_seq, rmatch_one by done. cbv beta.
    rewrite rmatch_seq, rmatch_group.
    apply plus_take; [done| |done|].
    { unfold bracket_free in Hb. by apply (str_forall_impl _ _ _ not_bracket). }
    cbv beta.
    rewrite (str_app_cons "]" EmptyString), str_app_nil_l.
    rewrite rmatch_seq, rmatch_one by done. cbv beta.
    rewrite rmatch_eps. by rewrite consumed_app.
Qed.

(** X16. On a text that starts with an inline list, [from_catalog:],
    optional white space and a bracketed text that is not empty, the
    loop over the inline lists appends the elements of that text and
    goes on with what follows the closing bracket. *)
Theorem inline_list_first (doc : Path) (s1 body rest : string)
    (ids : list Reference) :
  blank s1 = true → body ≠ EmptyString → bracket_free body = true →
  append_inline_items doc
    ("from_catalog:" +:+ s1 +:+ "[" +:+ body +:+ "]" +:+ rest) ids
  = append_inline_items doc rest
      (ids ++ ((λ item, (doc, item)) <$> inline_items body)).
Proof.
  intros Hs Hne Hb. rewrite !append_inline_items_spec.
  rewrite inline_refs_first by done. by rewrite app_assoc.
Qed.

Lemma inline_list_first_witness :
  append_inline_items ["app.yaml"]
    ("from_catalog:" +:+ " " +:+ "[" +:+ "file-one, 'two'" +:+ "]" +:+ nl) []
  = append_inline_items ["app.yaml"] nl
      ([] ++ ((λ item, (["app.yaml"], item))
              <$> inline_items "file-one, 'two'")).
Proof.
  apply (inline_list_first ["app.yaml"] " " "file-one, 'two'" nl []); done.
Defined.

(** ** Lines that follow other lines *)

Section Align.

(** Two ways to cut one text. *)
Lemma app_split (a t x y : string) :
  a +:+ t = x +:+ y →
  (∃ d, x = a +:+ d ∧ t = d +:+ y)
  ∨ (∃ d, d ≠ EmptyString ∧ a = x +:+ d ∧ y = d +:+ t).
Proof.
  revert x. induction a as [|c a IH]; intros x E.
  - left. exists x. by rewrite str_app_nil_l in *.
  - destruct x as [|c' x].
    + right. exists (String c a). by rewrite str_app_nil_l in *.
    + rewrite !str_app_cons in E. injection E as -> E.
      destruct (IH x E) as [(d & -> & ->)|(d & Hd & -> & ->)].
      * left. exists d. by rewrite str_app_cons.
      * right. exists d. by rewrite str_app_cons.
Qed.

Lemma last_char_nonempty (p q : option ascii) (d : string) :
  d ≠ EmptyString → last_char p d = last_char q d.
Proof. by destruct d. Qed.

Lemma last_char_some (c : ascii) (a : string) :
  is_Some (last_char (Some c) a).
Proof. revert c. induction a as [|x a IH]; intros c; [by eexists|apply IH]. Qed.

Lemma ends_line_nonempty (d : string) : ends_line d → d ≠ EmptyString.
Proof. by intros H ->. Qed.

Lemma ends_line_app (x d : string) :
  d ≠ EmptyString → ends_line (x +:+ d) → ends_line d.
Proof.
  unfold ends_line. intros Hd. rewrite last_char_app.
  by rewrite (last_char_nonempty _ None d Hd).
Qed.

Lemma on_line_not_ends (seg : string) : on_line seg = true → ¬ ends_line seg.
Proof.
  intros Hs He. destruct (last_split seg (ends_line_nonempty _ He)) as (a & x & ->).
  unfold ends_line in He. rewrite last_char_app in He. simpl in He.
  injection He as ->. unfold on_line in Hs. rewrite str_forall_app in Hs.
  by apply andb_true_iff in Hs as [_ Hs].
Qed.

(** A text that ends a line does not end inside a segment without a
    newline. *)
Lemma peel_solid (seg d t y : string) :
  on_line seg = true → ends_line d → d +:+ t = seg +:+ y →
  ∃ d', d = seg +:+ d' ∧ ends_line d' ∧ d' +:+ t = y.
Proof.
  intros Hs Hd E.
  destruct (app_split d t seg y E) as [(e & -> & ->)|(d' & Hne & -> & ->)].
  - unfold on_line in Hs. rewrite str_forall_app in Hs.
    apply andb_true_iff in Hs as [Hs _]. by destruct (on_line_not_ends d).
  - exists d'. split; [done|]. split; [by eapply ends_line_app|done].
Qed.

(** Leading white space is read in one way only. *)
Lemma blank_prefix_align (b : string) : ∀ s0 X Y,
  blank b = true → blank s0 = true → nonblank_head X = true →
  b +:+ Y = s0 +:+ X →
  ∃ s0', s0 = b +:+ s0' ∧ blank s0' = true ∧ Y = s0' +:+ X.
Proof.
  induction b as [|c b IH]; intros s0 X Y Hb H0 HX E.
  - exists s0. by rewrite str_app_nil_l in *.
  - unfold blank in Hb. simpl in Hb. apply andb_true_iff in Hb as [Hc Hb].
    destruct s0 as [|c' s0].
    + rewrite str_app_nil_l, str_app_cons in E. subst X. simpl in HX.
      by rewrite Hc in HX.
    + rewrite !str_app_cons in E. injection E as -> E.
      unfold blank in H0. simpl in H0. apply andb_true_iff in H0 as [_ H0].
      destruct (IH s0 X Y Hb H0 HX E) as (s0' & -> & H' & ->).
      exists s0'. by rewrite str_app_cons.
Qed.

Lemma blank_align (x y X Y : string) :
  blank x = true → blank y = true →
  nonblank_head X = true → nonblank_head Y = true →
  x +:+ X = y +:+ Y → x = y ∧ X = Y.
Proof.
  intros Hx Hy HX HY E.
  destruct (blank_prefix_align y x X Y Hy Hx HX (eq_sym E))
    as (s' & -> & Hs' & ->).
  destruct s' as [|c s'].
  - by rewrite str_app_nil_r, str_app_nil_l.
  - rewrite str_app_cons in HY. unfold blank in Hs'. simpl in *.
    apply andb_true_iff in Hs' as [Hc _]. by rewrite Hc in HY.
Qed.

Lemma nonblank_head_app (X Y : string) :
  nonblank_head X = true → nonblank_head (X +:+ Y) = true.
Proof. destruct X; [done|]. by rewrite str_app_cons. Qed.

(** A run of identifier characters, followed by what can follow a
    value, does not read a text in which such a run is followed by
    another character. *)
Lemma ident_run_stop (L1 : string) : ∀ x pidm Z tail,
  str_forall is_ident_char L1 = true →
  is_ident_char x = false → isspace x = false →
  one_ok MULTILINE quote x = false →
  str_forall is_ident_char pidm = true → value_stop Z = true →
  pidm +:+ Z = L1 +:+ String x tail → False.
Proof.
  induction L1 as [|l L1 IH]; intros x pidm Z tail HL Hx1 Hx2 Hx3 Hp HZ E.
  - rewrite str_app_nil_l in E. destruct pidm as [|c p].
    + rewrite str_app_nil_l in E. subst Z. unfold value_stop in HZ.
      by rewrite Hx2, Hx3 in HZ.
    + rewrite str_app_cons in E. injection E as -> _. simpl in Hp.
      by rewrite Hx1 in Hp.
  - simpl in HL. apply andb_true_iff in HL as [Hl HL].
    rewrite str_app_cons in E. destruct pidm as [|c p].
    + rewrite str_app_nil_l in E. subst Z. unfold value_stop in HZ.
      by rewrite (ident_not_space l Hl), (ident_not_quote l Hl) in HZ.
    + rewrite str_app_cons in E. injection E as -> E. simpl in Hp.
      apply andb_true_iff in Hp as [_ Hp]. by eapply IH.
Qed.

Lemma value_stop_tail (q2 s2 rest : string) :
  opt_quote q2 = true → blank s2 = true → at_eol MULTILINE rest = true →
  value_stop (q2 +:+ s2 +:+ rest) = true.
Proof.
  intros Hq H2 He.
  destruct (opt_quote_cases q2 Hq) as [->|(c & -> & Hc & _)].
  - rewrite str_app_nil_l. destruct s2 as [|c s2].
    + rewrite str_app_nil_l. destruct rest as [|c rest]; [done|]. simpl in He.
      rewrite andb_true_r in He. by apply Ascii.eqb_eq in He as ->.
    + rewrite str_app_cons. unfold blank in H2. simpl in H2.
      apply andb_true_iff in H2 as [Hc _]. unfold value_stop. by rewrite Hc.
  - rewrite str_app_cons. unfold value_stop. rewrite Hc. apply orb_true_r.
Qed.

End Align.

Section Overlap.

Lemma opt_quote_on_line (q : string) : opt_quote q = true → on_line q = true.
Proof.
  unfold opt_quote. intros [[H|H]%orb_true_iff|H]%orb_true_iff;
    by apply String.eqb_eq in H as ->.
Qed.

Lemma ident_not_newline c :
  is_ident_char c = true → negb (Ascii.eqb c "010") = true.
Proof. by destruct c as [[] [] [] [] [] [] [] []]. Qed.

Lemma ident_on_line (pid : string) :
  is_identifier pid = true → on_line pid = true.
Proof.
  unfold is_identifier. intros [_ H]%andb_true_iff.
  by apply (str_forall_impl _ _ _ ident_not_newline).
Qed.

Lemma ident_nonblank_head (pid s : string) :
  is_identifier pid = true → nonblank_head (pid +:+ s) = true.
Proof.
  intros (c & p & -> & Hc & _)%is_identifier_elim. rewrite str_app_cons.
  simpl. by rewrite (ident_not_space c Hc).
Qed.

Lemma key_on_line_occurrence (r : regex) (k : string) :
  key_on_line r k → key_occurrence r k.
Proof.
  intros [(-> & s0 & s1 & H0 & H1 & _ & ->)|[(-> & s0 & H0 & ->)
                                            |(-> & s0 & H0 & ->)]].
  - right. left. split; [done|]. by exists s0, s1.
  - right. right. left. split; [done|]. by exists s0.
  - right. right. right. split; [done|]. by exists s0.
Qed.

Variables (r : regex) (K Km pid : string).

Hypothesis HK_head : nonblank_head K = true.
Hypothesis HK_key : ∀ s0, blank s0 = true → key_on_line r (s0 +:+ K).
Hypothesis HK_val : ∀ q1 pidm q2 s2 rest_m tail,
  opt_quote q1 = true → is_identifier pidm = true → opt_quote q2 = true →
  blank s2 = true → at_eol MULTILINE rest_m = true →
  q1 +:+ pidm +:+ q2 +:+ s2 +:+ rest_m = K +:+ tail → False.
Hypothesis HKm_occ : ∀ s0, blank s0 = true → key_occurrence r (s0 +:+ Km).
Hypothesis HKm_peel : ∀ d t y,
  ends_line d → d +:+ t = Km +:+ y →
  (∃ d', d = Km +:+ d' ∧ ends_line d' ∧ d' +:+ t = y)
  ∨ (∃ e X, blank e = true ∧ nonblank_head X = true ∧ t = e +:+ X
            ∧ ∀ tail, X ≠ K +:+ tail).

(** A match that starts before a line of the pattern either binds the
    identifier of that line, or ends before the line, or ends in the
    white space that starts it, before a newline after which the line
    can still be read. *)
Lemma overlap (a s0 v rest s0m vm pidm rest_m : string) :
  ends_line a → blank s0 = true → value_occurrence v pid rest →
  blank s0m = true → value_occurrence vm pidm rest_m →
  a +:+ (s0 +:+ K) +:+ v +:+ rest = (s0m +:+ Km +:+ vm) +:+ rest_m →
  pidm = pid
  ∨ ∃ a2 k2,
      a +:+ (s0 +:+ K) +:+ v +:+ rest = a2 +:+ k2 +:+ v +:+ rest
      ∧ key_on_line r k2 ∧ ends_line a2
      ∧ (String.length (s0m +:+ Km +:+ vm) ≤ String.length a2)%nat.
Proof.
  intros Ha H0 Hv H0m Hvm E.
  rewrite !str_app_assoc in E.
  remember (s0 +:+ K +:+ v +:+ rest) as t eqn:Ht.
  destruct (app_split a t s0m _ E) as [(e & Es & Et)|(d & Hd & Ea & Ed)].
  - (* the match starts in the white space of the line *)
    left. subst s0m. unfold blank in H0m. rewrite str_forall_app in H0m.
    apply andb_true_iff in H0m as [_ He].
    destruct (line_match r (e +:+ Km) vm pidm rest_m None (HKm_occ e He) Hvm
                eq_refl) as [s1 M1].
    destruct (line_match r (s0 +:+ K) v pid rest None
                (key_on_line_occurrence _ _ (HK_key s0 H0)) Hv eq_refl)
      as [s2 M2].
    rewrite !str_app_assoc in M1, M2. rewrite <- Ht, Et in M2.
    rewrite M1 in M2. by injection M2.
  - assert (ends_line d) as Hdl.
    { apply (ends_line_app s0m d Hd). by rewrite <- Ea. }
    destruct (HKm_peel d t _ Hdl (eq_sym Ed))
      as [(d1 & E1 & Hd1 & Ed1)|(e & X & He & HX & Et & Hno)].
    2:{ (* the match reads its key across the start of the line *)
        exfalso. rewrite Et in Ht.
        destruct (blank_align e s0 X (K +:+ v +:+ rest) He H0 HX
                    (nonblank_head_app _ _ HK_head) Ht) as [_ EX].
        by apply (Hno (v +:+ rest)). }
    destruct Hvm as (s1 & q1 & q2 & s2 & Evm & H1 & Hq1 & Hp & Hq2 & H2 & Hel).
    rewrite Evm, !str_app_assoc in Ed1.
    destruct (app_split d1 t s1 _ Ed1) as [(e & Es & Et)|(d2 & Hd2 & E2 & Ed2)].
    { (* the match reads its value across the start of the line *)
      exfalso. rewrite Et in Ht.
      assert (blank e = true) as He.
      { subst s1. unfold blank in H1. rewrite str_forall_app in H1.
        by apply andb_true_iff in H1 as [_ H1]. }
      assert (nonblank_head (q1 +:+ pidm +:+ q2 +:+ s2 +:+ rest_m) = true) as Hh.
      { destruct (opt_quote_cases q1 Hq1) as [->|(c & -> & _ & Hc & _)].
        - rewrite str_app_nil_l. by apply ident_nonblank_head.
        - rewrite str_app_cons. simpl. by rewrite Hc. }
      destruct (blank_align e s0 _ (K +:+ v +:+ rest) He H0 Hh
                  (nonblank_head_app _ _ HK_head) Ht) as [_ EX].
      by apply (HK_val q1 pidm q2 s2 rest_m (v +:+ rest)). }
    assert (ends_line d2) as Hdl2.
    { apply (ends_line_app s1 d2 Hd2). by rewrite <- E2. }
    destruct (peel_solid q1 d2 t _ (opt_quote_on_line _ Hq1) Hdl2 (eq_sym Ed2))
      as (d3 & E3 & Hd3 & Ed3).
    destruct (peel_solid pidm d3 t _ (ident_on_line _ Hp) Hd3 Ed3)
      as (d4 & E4 & Hd4 & Ed4).
    destruct (peel_solid q2 d4 t _ (opt_quote_on_line _ Hq2) Hd4 Ed4)
      as (d5 & E5 & Hd5 & Ed5).
    right.
    destruct (app_split d5 t s2 _ Ed5) as [(e & Es & Et)|(d6 & Hd6 & E6 & Ed6)].
    + (* the match ends in the white space that starts the line *)
      assert (blank e = true) as He.
      { subst s2. unfold blank in H2. rewrite str_forall_app in H2.
        by apply andb_true_iff in H2 as [_ H2]. }
      rewrite Et in Ht.
      destruct (blank_prefix_align e s0 (K +:+ v +:+ rest) rest_m He H0
                  (nonblank_head_app _ _ HK_head) Ht)
        as (s0' & E0 & H0' & Er).
      destruct s0' as [|c s0'].
      { exfalso. rewrite str_app_nil_l in Er. subst rest_m.
        destruct K as [|c K']; [done|]. rewrite str_app_cons in Hel.
        simpl in Hel, HK_head. rewrite andb_true_r in Hel.
        apply Ascii.eqb_eq in Hel as ->. done. }
      assert (c = "010"%char) as ->.
      { subst rest_m. rewrite str_app_cons in Hel. simpl in Hel.
        rewrite andb_true_r in Hel. by apply Ascii.eqb_eq in Hel. }
      exists (a +:+ e +:+ String "010" EmptyString), (s0' +:+ K).
      split.
      { subst s0. by rewrite !str_app_assoc. }
      split.
      { apply HK_key. unfold blank in H0'. by simpl in H0'. }
      split.
      { unfold ends_line. by rewrite !last_char_app. }
      subst a d d1 d2 d3 d4 s2 vm.
      rewrite !str_app_length. simpl. lia.
    + (* the match ends before the line *)
      exists a, (s0 +:+ K). split; [done|]. split; [by apply HK_key|].
      split; [done|].
      subst a d d1 d2 d3 d4 d5 vm.
      rewrite !str_app_length. lia.
Qed.

End Overlap.

Section Keys.

(** The key of [pattern_id:] or [provider:] is not read as a value. *)
Lemma literal_not_value (l : ascii) (L1 : string) (x : ascii)
    (L2 q1 pidm q2 s2 rest_m tail : string) :
  str_forall is_ident_char (String l L1) = true →
  is_ident_char x = false → isspace x = false →
  one_ok MULTILINE quote x = false →
  opt_quote q1 = true → is_identifier pidm = true → opt_quote q2 = true →
  blank s2 = true → at_eol MULTILINE rest_m = true →
  q1 +:+ pidm +:+ q2 +:+ s2 +:+ rest_m
  = (String l L1 +:+ String x L2) +:+ tail → False.
Proof.
  intros HL Hx1 Hx2 Hx3 Hq1 Hp Hq2 H2 He E.
  rewrite str_app_assoc, (str_app_cons x) in E.
  destruct (opt_quote_cases q1 Hq1) as [->|(c & -> & Hc & _)].
  - rewrite str_app_nil_l in E.
    apply (ident_run_stop (String l L1) x pidm (q2 +:+ s2 +:+ rest_m)
             (L2 +:+ tail)); try done.
    + unfold is_identifier in Hp. by apply andb_true_iff in Hp as [_ Hp].
    + by apply value_stop_tail.
  - rewrite !str_app_cons in E. injection E as -> _.
    simpl in HL. apply andb_true_iff in HL as [Hl _].
    by rewrite (ident_not_quote l Hl) in Hc.
Qed.

(** The key of a list item, the dash and [id:] on one line, is not
    read as a value. *)
Lemma list_key_not_value (sx q1 pidm q2 s2 rest_m tail : string) :
  blank sx = true → on_line sx = true →
  opt_quote q1 = true → is_identifier pidm = true → opt_quote q2 = true →
  blank s2 = true → at_eol MULTILINE rest_m = true →
  q1 +:+ pidm +:+ q2 +:+ s2 +:+ rest_m = ("-" +:+ sx +:+ "id:") +:+ tail →
  False.
Proof.
  intros Hsx Hl Hq1 Hp Hq2 H2 He E.
  rewrite !str_app_assoc, (str_app_cons "-"), str_app_nil_l in E.
  destruct (opt_quote_cases q1 Hq1) as [->|(c & -> & Hc & _)].
  2:{ rewrite !str_app_cons in E. by injection E as -> _. }
  rewrite str_app_nil_l in E.
  destruct (is_identifier_elim pidm Hp) as (c & p & -> & _ & Hall).
  rewrite ident_case_sensitive in Hall by done. simpl in Hall.
  apply andb_true_iff in Hall as [_ Hall].
  rewrite str_app_cons in E. injection E as -> E.
  destruct sx as [|x sx].
  - rewrite str_app_nil_l in E.
    apply (ident_run_stop "id" ":" p (q2 +:+ s2 +:+ rest_m) tail); try done.
    by apply value_stop_tail.
  - unfold blank in Hsx. simpl in Hsx. apply andb_true_iff in Hsx as [Hx Hsx].
    rewrite str_app_cons in E. destruct p as [|c p].
    2:{ rewrite str_app_cons in E. injection E as -> _. simpl in Hall.
        apply andb_true_iff in Hall as [Hc _].
        by rewrite (ident_not_space x Hc) in Hx. }
    rewrite str_app_nil_l in E.
    destruct (opt_quote_cases q2 Hq2) as [->|(c & -> & Hc & _)].
    2:{ rewrite !str_app_cons in E. injection E as -> _.
        by rewrite (space_not_quote x Hx) in Hc. }
    rewrite str_app_nil_l, <- str_app_cons in E.
    destruct (blank_prefix_align s2 (String x sx) ("id:" +:+ tail) rest_m)
      as (s' & Es & Hs' & Er); [done|by unfold blank; simpl; rewrite Hx|done|done|].
    destruct s' as [|c s'].
    + rewrite str_app_nil_l in Er. by subst rest_m.
    + subst rest_m. rewrite str_app_cons in He. simpl in He.
      rewrite andb_true_r in He. apply Ascii.eqb_eq in He as ->.
      rewrite Es in Hl. unfold on_line in Hl. rewrite str_forall_app in Hl.
      by apply andb_true_iff in Hl as [_ Hl].
Qed.

(** Where the end of a line can lie in the key of a list item. *)
Lemma list_key_peel (sx sxm d t y : string) :
  blank sxm = true →
  ends_line d → d +:+ t = ("-" +:+ sxm +:+ "id:") +:+ y →
  (∃ d', d = ("-" +:+ sxm +:+ "id:") +:+ d' ∧ ends_line d' ∧ d' +:+ t = y)
  ∨ (∃ e X, blank e = true ∧ nonblank_head X = true ∧ t = e +:+ X
            ∧ ∀ tail, X ≠ ("-" +:+ sx +:+ "id:") +:+ tail).
Proof.
  intros Hm Hd E. rewrite !str_app_assoc in E.
  destruct (peel_solid "-" d t _ eq_refl Hd E) as (d1 & -> & Hd1 & E1).
  destruct (app_split d1 t sxm _ E1) as [(e & Es & Et)|(d2 & Hd2 & E2 & Ed2)].
  - right. exists e, ("id:" +:+ y). split.
    { subst sxm. unfold blank in Hm. rewrite str_forall_app in Hm.
      by apply andb_true_iff in Hm as [_ Hm]. }
    split; [done|]. split; [done|]. intros tail H.
    rewrite !str_app_assoc in H. discriminate H.
  - left.
    assert (ends_line d2) as Hd2'.
    { apply (ends_line_app sxm d2 Hd2). by rewrite <- E2. }
    destruct (peel_solid "id:" d2 t y eq_refl Hd2' (eq_sym Ed2))
      as (d3 & -> & Hd3 & E3).
    exists d3. subst d1. by rewrite !str_app_assoc.
Qed.

Lemma literal_peel (L d t y : string) :
  on_line L = true →
  ends_line d → d +:+ t = L +:+ y →
  (∃ d', d = L +:+ d' ∧ ends_line d' ∧ d' +:+ t = y)
  ∨ (∃ e X, blank e = true ∧ nonblank_head X = true ∧ t = e +:+ X
            ∧ ∀ tail, X ≠ L +:+ tail).
Proof. intros HL Hd E. left. by apply peel_solid. Qed.

(** A match that starts before a line of its pattern: see [overlap]. *)
Lemma overlap_lines (r : regex) (a k v pid rest km vm pidm rest_m : string) :
  key_on_line r k → key_occurrence r km → ends_line a →
  value_occurrence v pid rest → value_occurrence vm pidm rest_m →
  a +:+ k +:+ v +:+ rest = (km +:+ vm) +:+ rest_m →
  pidm = pid
  ∨ ∃ a2 k2,
      a +:+ k +:+ v +:+ rest = a2 +:+ k2 +:+ v +:+ rest
      ∧ key_on_line r k2 ∧ ends_line a2
      ∧ (String.length (km +:+ vm) ≤ String.length a2)%nat.
Proof.
  intros Hk Hkm Ha Hv Hvm E.
  destruct Hk as [(-> & s0 & sx & H0 & Hsx & Hl & ->)|[(-> & s0 & H0 & ->)
                                                     |(-> & s0 & H0 & ->)]];
    destruct Hkm as [[? _]|[(? & s0m & sxm & H0m & Hsxm & ->)
                           |[(? & s0m & H0m & ->)|(? & s0m & H0m & ->)]]];
    try done.
  - rewrite (str_app_assoc s0m) in E |- *.
    apply (overlap list_item_re ("-" +:+ sx +:+ "id:") ("-" +:+ sxm +:+ "id:")
             pid) with (rest_m := rest_m); try done.
    + intros s Hs. left. split; [done|]. by exists s, sx.
    + intros q1 p q2 s2 rm tail ? ? ? ? ? HE.
      by apply (list_key_not_value sx q1 p q2 s2 rm tail).
    + intros s Hs. right. left. split; [done|]. by exists s, sxm.
    + intros d t y. by apply list_key_peel.
  - rewrite (str_app_assoc s0m) in E |- *.
    apply (overlap pattern_id_re "pattern_id:" "pattern_id:" pid)
      with (rest_m := rest_m); try done.
    + intros s Hs. right. left. split; [done|]. by exists s.
    + intros q1 p q2 s2 rm tail ? ? ? ? ? HE.
      by apply (literal_not_value "p" "attern" "_" "id:" q1 p q2 s2 rm tail).
    + intros s Hs. right. right. left. split; [done|]. by exists s.
    + intros d t y. by apply literal_peel.
  - rewrite (str_app_assoc s0m) in E |- *.
    apply (overlap provider_re "provider:" "provider:" pid)
      with (rest_m := rest_m); try done.
    + intros s Hs. right. right. split; [done|]. by exists s.
    + intros q1 p q2 s2 rm tail ? ? ? ? ? HE.
      by apply (literal_not_value "p" "rovider" ":" EmptyString
                  q1 p q2 s2 rm tail).
    + intros s Hs. right. right. right. split; [done|]. by exists s.
    + intros d t y. by apply literal_peel.
Qed.

End Keys.

Section Collected.

(** Every line of a manifest pattern that starts a line is reached by
    the scan, whatever was matched before it. *)
Lemma line_collected_from (r : regex) (pid v rest : string) :
  value_occurrence v pid rest →
  ∀ s prev skip a k,
    s = a +:+ k +:+ v +:+ rest → key_on_line r k →
    at_bol MULTILINE (last_char prev a) = true →
    (skip ≤ String.length a)%nat →
    ∃ cs, cs ∈ finditer_from MULTILINE r prev s skip ∧ group 1 cs = pid.
Proof.
  intros Hv. induction s as [|c s IH]; intros prev skip a k Es Hk Hb Hskip.
  - destruct a; [|by rewrite str_app_cons in Es].
    rewrite str_app_nil_l in Es.
    apply key_on_line_occurrence in Hk.
    destruct (line_match r k v pid rest prev Hk Hv Hb) as [s' Hm].
    rewrite <- Es in Hm. exists [(1%nat, pid)]. split; [|done].
    destruct skip; [|simpl in Hskip; lia]. simpl. rewrite Hm. left.
  - destruct skip as [|n].
    + destruct a as [|c' a].
      * rewrite str_app_nil_l in Es.
        destruct (line_match r k v pid rest prev
                    (key_on_line_occurrence _ _ Hk) Hv Hb) as [s' Hm].
        rewrite <- Es in Hm. exists [(1%nat, pid)]. split; [|done].
        simpl. rewrite Hm. left.
      * rewrite str_app_cons in Es. injection Es as <- Es.
        simpl. simpl in Hb.
        destruct (match_here MULTILINE r prev (String c s)) as [[rest_m cs]|]
          eqn:Hm.
        2:{ destruct (IH (Some c) 0%nat a k Es Hk Hb) as (cs & Hin & Hg);
              [lia|]. by exists cs. }
        apply match_here_sound in Hm as Hs. destruct Hs as (w & Ew & M).
        assert (line_pattern r) as Hr.
        { destruct Hk as [[-> _]|[[-> _]|[-> _]]]; unfold line_pattern; auto. }
        assert (∃ before, prev = last_char None before) as [before ->].
        { destruct prev as [x|]; [by exists (String x EmptyString)|by exists EmptyString]. }
        apply (line_pattern_occurrence r before w rest_m cs Hr) in M.
        destruct M as (_ & km & vm & -> & Hkm & Hvm).
        assert (ends_line (String c a)) as Ha.
        { unfold ends_line. simpl. destruct (last_char_some c a) as [x El].
          rewrite El in Hb |- *. simpl in Hb.
          by apply Ascii.eqb_eq in Hb as ->. }
        assert (String c a +:+ k +:+ v +:+ rest = (km +:+ vm) +:+ rest_m) as E.
        { by rewrite str_app_cons, <- Es. }
        destruct (overlap_lines r _ k v pid rest km vm _ rest_m Hk Hkm Ha Hv Hvm E)
          as [Hp|(a2 & k2 & E2 & Hk2 & Ha2 & Hlen)].
        { exists cs. split; [left|done]. }
        destruct a2 as [|c2 a2]; [done|].
        rewrite !str_app_cons in E2. injection E2 as <- E2.
        assert (S (String.length s)
                = String.length (km +:+ vm) + String.length rest_m)%nat as El.
        { by rewrite <- str_app_length, <- Ew. }
        destruct (IH (Some c)
                    (S (String.length s) - String.length rest_m - 1)%nat a2 k2)
          as (cs' & Hin & Hg).
        { by rewrite Es, E2. }
        { done. }
        { unfold ends_line in Ha2. simpl in Ha2. by rewrite Ha2. }
        { simpl in Hlen. lia. }
        exists cs'. split; [by right|done].
    + destruct a as [|c' a]; [simpl in Hskip; lia|].
      rewrite str_app_cons in Es. injection Es as <- Es. simpl.
      apply (IH (Some c) n a k Es Hk); [done|simpl in Hskip; lia].
Qed.

End Collected.

(** ** Where the references of a manifest come from *)

Section ManifestSources.

Lemma bracket_free_intro (s : string) :
  str_forall (one_ok no_flags (NotSet [CChar "]"])) s = true →
  bracket_free s = true.
Proof.
  apply str_forall_impl. intros c.
  by destruct c as [[] [] [] [] [] [] [] []].
Qed.

(** What the pattern of inline lists matches. *)
Lemma from_catalog_occurrence prev w rest cs :
  matches no_flags from_catalog_re prev w rest [] cs →
  inline_occurrence w (group 1 cs).
Proof.
  unfold from_catalog_re, cat. cbn [fold_right matches].
  intros (k1 & t1 & c1 & -> & Mk & M).
  apply matches_lits_exact in Mk as [-> ->]; [|done].
  destruct M as (s1 & t2 & c2 & -> & (H1 & ->) & M).
  destruct M as (b1 & t3 & c3 & -> & (c & -> & Hc & ->) & M).
  destruct M as (body & t4 & c4 & -> & (c4' & (Hne & Hb & ->) & ->) & M).
  destruct M as (b2 & t5 & c5 & -> & (c' & -> & Hc' & ->) & (-> & ->)).
  change (Ascii.eqb "[" c = true) in Hc. change (Ascii.eqb "]" c' = true) in Hc'.
  apply Ascii.eqb_eq in Hc as <-. apply Ascii.eqb_eq in Hc' as <-.
  exists s1. rewrite !str_app_nil_r. split; [done|]. split; [done|].
  split; [done|]. by apply bracket_free_intro.
Qed.

(** A reference of an inline list is an element of a list of the
    text. *)
Lemma inline_refs_lists (doc : Path) (content : string) (r : Reference) :
  r ∈ inline_refs doc content →
  r.1 = doc
  ∧ ∃ before w body rest,
      content = before +:+ w +:+ rest
      ∧ inline_occurrence w body ∧ r.2 ∈ inline_items body.
Proof.
  unfold inline_refs, finditer. intros H.
  apply list_elem_of_bind in H as (cs & Hr & Hcs).
  apply list_elem_of_fmap in Hr as (item & -> & Hitem).
  apply finditer_from_at in Hcs as (before & w & rest & -> & M).
  split; [done|]. exists before, w, (group 1 cs), rest.
  split; [done|]. split; [|done]. by eapply from_catalog_occurrence.
Qed.

End ManifestSources.

(** X13. Whatever the scan of a manifest appends names the manifest,
    and its identifier is read from a line of one of the three line
    patterns, the line starting the text or following a newline and
    holding the key, the identifier between optional quotes and white
    space only, or is an element of an inline [from_catalog] list of
    the text. *)
Theorem manifest_reference_source (doc : Path) (content : string)
    (ids : list Reference) (r : Reference) :
  r ∈ scan_manifest doc content ids →
  r ∈ ids ∨ (r.1 = doc ∧ manifest_source content r.2).
Proof.
  rewrite scan_manifest_spec. unfold manifest_doc_refs.
  rewrite !elem_of_app. intros [H|[H|[H|[H|H]]]]; [by left|right..].
  - apply pattern_refs_lines in H as (Hd & before & w & rest & E & Ho);
      [|by right; left]. split; [done|]. left.
    exists list_item_re, before, w, rest. split; [|done]. left.
  - apply pattern_refs_lines in H as (Hd & before & w & rest & E & Ho);
      [|by right; right; left]. split; [done|]. left.
    exists pattern_id_re, before, w, rest. split; [|done]. right. left.
  - apply pattern_refs_lines in H as (Hd & before & w & rest & E & Ho);
      [|by right; right; right]. split; [done|]. left.
    exists provider_re, before, w, rest. split; [|done]. right. right. left.
  - apply inline_refs_lists in H as (Hd & before & w & body & rest & E & Ho & Hi).
    split; [done|]. right. by exists before, w, body, rest.
Qed.

Lemma manifest_reference_source_witness :
  (["app.yaml"], "two") ∈ ([] : list Reference)
  ∨ (["app.yaml"] = ["app.yaml"]
     ∧ manifest_source
         ("- id: one" +:+ nl +:+ "from_catalog: [two, three]" +:+ nl) "two").
Proof.
  apply (manifest_reference_source ["app.yaml"]
           ("- id: one" +:+ nl +:+ "from_catalog: [two, three]" +:+ nl) []
           (["app.yaml"], "two")).
  vm_compute. right. left.
Defined.

Section FirstDeclaration.

Lemma id_decl_at prev s s' cs :
  match_here MULTILINE id_decl_re prev s = Some (s', cs) →
  at_bol MULTILINE prev = true ∧ starts_with "id:" s = true.
Proof.
  intros Hm. apply match_here_sound in Hm as (w & -> & M).
  assert (∃ before, prev = last_char None before) as [before ->].
  { destruct prev as [x|]; [by exists (String x EmptyString)|by exists EmptyString]. }
  apply (line_pattern_occurrence id_decl_re before w s' cs) in M; [|by left].
  destruct M as (Hb & k & v & -> & Hk & _). split; [done|].
  destruct Hk as [[_ ->]|[[E _]|[[E _]|[E _]]]]; try done.
Qed.

(** A search goes through a text none of whose lines starts with
    [id:] and reaches the cursor after it. *)
Lemma search_from_skips before : ∀ prev t s' cs,
  has_line_with "id:" prev before = false →
  at_bol MULTILINE (last_char prev before) = true →
  match_here MULTILINE id_decl_re (last_char prev before) t = Some (s', cs) →
  search_from MULTILINE id_decl_re prev (before +:+ t) = Some cs.
Proof.
  induction before as [|c b IH]; intros prev t s' cs Hn Hb Hm.
  - rewrite str_app_nil_l. simpl in Hm. destruct t; simpl; by rewrite Hm.
  - rewrite str_app_cons. cbn [has_line_with last_char] in Hn, Hb, Hm.
    apply orb_false_iff in Hn as [Hh Hn]. cbn [search_from].
    destruct (match_here MULTILINE id_decl_re prev (String c (b +:+ t)))
      as [[s1 cs1]|] eqn:H1; [|by eapply IH].
    exfalso. apply id_decl_at in H1 as [Hp Hs]. rewrite Hp in Hh.
    destruct b as [|c1 [|c2 b]].
    + rewrite str_app_nil_l in Hs. cbn [starts_with] in Hs.
      apply andb_true_iff in Hs as [Hs _]. apply Ascii.eqb_eq in Hs as <-.
      by vm_compute in Hb.
    + rewrite str_app_cons, str_app_nil_l in Hs. cbn [starts_with] in Hs.
      apply andb_true_iff in Hs as [_ [Hs _]%andb_true_iff].
      apply Ascii.eqb_eq in Hs as <-. by vm_compute in Hb.
    + rewrite !str_app_cons in Hs. cbn [starts_with] in Hs, Hh.
      rewrite andb_true_r in Hs, Hh. cbn [andb] in Hh. by rewrite Hs in Hh.
Qed.

End FirstDeclaration.

(** X12. An entry file declares the identifier of its first line that
    starts with [id:], when that line holds nothing but the identifier,
    between optional quotes, matching or not, and white space. *)
Theorem declared_id_first (before v pid rest : string) :
  line_start before = true →
  has_line_with "id:" None before = false →
  value_occurrence v pid rest →
  declared_id (before +:+ "id:" +:+ v +:+ rest) = Some pid.
Proof.
  intros Hb Hn Hv.
  destruct (line_match id_decl_re "id:" v pid rest (last_char None before))
    as [s' Hm]; [by left|done|done|].
  unfold declared_id, search.
  by rewrite (search_from_skips before None _ s' [(1%nat, pid)]).
Qed.

Lemma declared_id_first_witness :
  declared_id (("name: x" +:+ nl +:+ "  id: no" +:+ nl)
               +:+ "id:" +:+ " 'abc-1" +:+ nl +:+ "id: other")
  = Some "abc-1".
Proof.
  apply (declared_id_first ("name: x" +:+ nl +:+ "  id: no" +:+ nl)
           " 'abc-1" "abc-1" (nl +:+ "id: other")).
  - reflexivity.
  - reflexivity.
  - exists " ", "'", EmptyString, EmptyString. repeat split; vm_compute; done.
Defined.

(** X14. Every line of a manifest that starts the text or follows a
    newline and holds a key of a line pattern and a value is
    collected, wherever it is in the text and whatever precedes it,
    provided the dash and the [id:] of a list item are on one line. *)
Theorem manifest_line_collected (re : regex) (doc : Path)
    (before k v pid rest : string) (ids : list Reference) :
  line_start before = true → key_on_line re k → value_occurrence v pid rest →
  (doc, pid) ∈ scan_manifest doc (before +:+ k +:+ v +:+ rest) ids.
Proof.
  intros Hb Hk Hv. rewrite scan_manifest_spec.
  assert ((doc, pid)
          ∈ pattern_refs MULTILINE re doc (before +:+ k +:+ v +:+ rest)) as H.
  { destruct (line_collected_from re pid v rest Hv
                (before +:+ k +:+ v +:+ rest) None 0%nat before k)
      as (cs & Hin & Hg); [done|done|done|lia|].
    unfold pattern_refs. apply list_elem_of_fmap. exists cs.
    by rewrite Hg. }
  unfold manifest_doc_refs. rewrite !elem_of_app.
  destruct Hk as [[-> _]|[[-> _]|[-> _]]]; auto.
Qed.

Lemma manifest_line_collected_witness :
  (["app.yaml"], "some-provider")
  ∈ scan_manifest ["app.yaml"]
      (("provider: first" +:+ nl +:+ nl) +:+ "  provider:"
       +:+ " 'some-provider " +:+ (nl +:+ "x")) [].
Proof.
  apply (manifest_line_collected provider_re ["app.yaml"]
           ("provider: first" +:+ nl +:+ nl) "  provider:"
           " 'some-provider " "some-provider" (nl +:+ "x") []).
  - reflexivity.
  - right. right. split; [done|]. by exists "  ".
  - exists " ", "'", EmptyString, " ". repeat split; vm_compute; done.
Defined.

(** ** The order of a walk *)

Section WalkOrder.

Lemma rglob_perm pat d (es es' : list entry) :
  es ≡ₚ es' → rglob pat d es ≡ₚ rglob pat d es'.
Proof. intros H. unfold rglob. by rewrite H. Qed.

Lemma visited_perm pat d (t t' : dir) :
  walk_perm t t' → visited pat d t ≡ₚ visited pat d t'.
Proof.
  destruct t as [es|], t' as [es'|]; try done. simpl. apply rglob_perm.
Qed.

Lemma refs_perm per_doc (fs fs' : list (Path * outcome string)) :
  fs ≡ₚ fs' →
  (f ← fs; refs_of per_doc f) ≡ₚ (f ← fs'; refs_of per_doc f).
Proof. intros H. by rewrite H. Qed.

Lemma manifest_refs_perm d (t t' : dir) :
  walk_perm t t' → manifest_refs d t ≡ₚ manifest_refs d t'.
Proof.
  destruct t as [es|], t' as [es'|]; try done. simpl. intros H.
  by apply refs_perm, rglob_perm.
Qed.

Lemma plan_refs_perm d (t t' : dir) :
  walk_perm t t' → plan_refs d t ≡ₚ plan_refs d t'.
Proof.
  destruct t as [es|], t' as [es'|]; try done. simpl. intros H.
  by apply refs_perm, rglob_perm.
Qed.

Lemma collected_perm (fs fs' : project) :
  same_tree fs fs' → collected fs ≡ₚ collected fs'.
Proof.
  intros (Hr & _ & _ & Hm & Hs). unfold collected. rewrite Hr.
  by rewrite (manifest_refs_perm _ _ _ Hm), (plan_refs_perm _ _ _ Hs).
Qed.

Lemma diagnostics_perm (fs fs' : project) :
  same_tree fs fs' → diagnostics fs ≡ₚ diagnostics fs'.
Proof.
  intros (Hr & Hi & _ & Hm & Hs). unfold diagnostics, read_warnings.
  rewrite Hr.
  rewrite (visited_perm "*.yaml" _ _ _ Hm), (visited_perm "plan.md" _ _ _ Hs).
  unfold index_warning. by rewrite Hi.
Qed.

(** The valid set does not depend on the order in which the entry
    files are visited. *)
Lemma loaded_same_tree (fs fs' : project) :
  same_tree fs fs' → loaded fs = loaded fs'.
Proof.
  intros (Hr & Hi & Hp & _ & _).
  unfold loaded, result_of, load_valid_pattern_ids.
  rewrite Hr, Hi. unfold mbind at 1 3, M_bind, Py.bind at 1 3.
  match goal with |- context [?m empty_console] =>
    destruct (m empty_console) as [[ids|e] c1] end; [|done].
  destruct (patterns (catalog_tree fs)) as [es|],
    (patterns (catalog_tree fs')) as [es'|]; try done.
  rewrite !entry_files_loop_spec. simpl.
  simpl in Hp. apply (rglob_perm "*.yaml"
    (child (child (project_root fs') "catalog") "patterns")) in Hp.
  f_equal. apply idset_eq; simpl; [|done]. f_equal.
  apply list_to_set_perm_L. by rewrite Hp.
Qed.

End WalkOrder.

Section WalkReport.

Lemma find_errors_perm (used used' : list Reference) (valid : idset) :
  used ≡ₚ used' → find_errors used valid ≡ₚ find_errors used' valid.
Proof. intros H. rewrite !find_errors_filter. by rewrite H. Qed.

Lemma success_report_perm (used used' : list Reference) :
  used ≡ₚ used' → success_report used = success_report used'.
Proof.
  intros H. unfold success_report.
  destruct used as [|r used], used' as [|r' used'].
  - done.
  - by apply Permutation_nil_l in H.
  - by apply Permutation_nil_r in H.
  - by rewrite (Permutation_length H).
Qed.

Lemma failure_report_perm root (es es' : list Reference) ids n :
  es ≡ₚ es' → failure_report root es ids n ≡ₚ failure_report root es' ids n.
Proof. intros H. unfold failure_report. by rewrite H. Qed.

Lemma failure_head_perm root (es es' : list Reference) :
  es ≡ₚ es' → failure_head root es ≡ₚ failure_head root es'.
Proof. intros H. unfold failure_head. by rewrite H. Qed.

(** The standard output, whatever [sorted] gave. *)
Lemma main_stdout_perm argv root so n (used used' es es' : list Reference) :
  used ≡ₚ used' → es ≡ₚ es' →
  main_stdout argv root so n used es ≡ₚ main_stdout argv root so n used' es'.
Proof.
  intros Hu He. unfold main_stdout.
  rewrite (Permutation_length Hu), (success_report_perm used used' Hu).
  destruct es as [|e t], es' as [|e' t'];
    try (by apply Permutation_nil_l in He);
    try (by apply Permutation_nil_r in He).
  destruct so as [ids|e0].
  - apply Permutation_app_head. by apply failure_report_perm.
  - destruct (is_verbose argv); [done|]. by apply failure_head_perm.
Qed.

(** The status, whatever [sorted] gave. *)
Lemma main_outcome_perm argv so (es es' : list Reference) :
  es ≡ₚ es' → main_outcome argv so es = main_outcome argv so es'.
Proof.
  intros He. unfold main_outcome.
  destruct es as [|e t], es' as [|e' t'];
    try (by apply Permutation_nil_l in He);
    try (by apply Permutation_nil_r in He); done.
Qed.

Lemma main_stderr_perm argv so (fs fs' : project) :
  same_tree fs fs' → main_stderr argv fs so ≡ₚ main_stderr argv fs' so.
Proof.
  intros Ht. pose proof (diagnostics_perm fs fs' Ht) as Hd.
  destruct Ht as (Hr & Hi & _). unfold main_stderr, index_warning.
  rewrite Hr, Hi. destruct so; [done|]. by destruct (is_verbose argv).
Qed.

End WalkReport.

(** X17. The order in which the directories are walked changes the
    order of lines only: two runs over the same tree, its entry files,
    manifests and plans visited in different orders, end with the same
    status and print the same lines on each stream, up to their
    order. *)
Theorem walk_order_lines (set_iter : idset → list pyval)
    (argv : list string) (fs fs' : project) :
  same_tree fs fs' →
  (run_main set_iter argv fs).1 = (run_main set_iter argv fs').1
  ∧ stdout (run_main set_iter argv fs).2 ≡ₚ stdout (run_main set_iter argv fs').2
  ∧ stderr (run_main set_iter argv fs).2 ≡ₚ stderr (run_main set_iter argv fs').2.
Proof.
  intros Ht. pose proof (loaded_same_tree fs fs' Ht) as Hl.
  pose proof (collected_perm fs fs' Ht) as Hc.
  unfold run_main. destruct (loaded fs) as [valid|e] eqn:E.
  - rewrite (main_console set_iter argv fs valid E).
    rewrite (main_console set_iter argv fs' valid (eq_sym Hl)).
    pose proof (find_errors_perm _ _ valid Hc) as He.
    rewrite (main_outcome_perm argv _ _ _ He).
    assert (project_root fs = project_root fs') as Hr by apply Ht.
    rewrite Hr.
    pose proof (main_stdout_perm argv (project_root fs')
                  (sorted (set_iter valid)) (size valid) _ _ _ _ Hc He) as Ho.
    pose proof (main_stderr_perm argv (sorted (set_iter valid)) fs fs' Ht) as Hd.
    by destruct (main_outcome argv (sorted (set_iter valid))
                   (find_errors (collected fs') valid)).
  - rewrite (main_loader_fault set_iter argv fs e E).
    by rewrite (main_loader_fault set_iter argv fs' e (eq_sym Hl)).
Qed.

Lemma walk_order_lines_witness :
  (run_main elements ["-v"] noisy).1 = (run_main elements ["-v"] noisy_reversed).1
  ∧ stdout (run_main elements ["-v"] noisy).2
    ≡ₚ stdout (run_main elements ["-v"] noisy_reversed).2
  ∧ stderr (run_main elements ["-v"] noisy).2
    ≡ₚ stderr (run_main elements ["-v"] noisy_reversed).2.
Proof.
  apply (walk_order_lines elements ["-v"] noisy noisy_reversed).
  repeat split; try reflexivity; vm_compute;
    first [reflexivity | apply Permutation_swap].
Defined.
